(** * CT vs MRI analyzer: the image pipeline of [src/app/utils/analyze.ts]

    The pipeline turns an RGBA raster into a normalized grayscale buffer,
    nine scalar features, a label with a confidence, and a false-colour
    heatmap.  This development embeds the functions of [analyze.ts] and
    proves the properties the specification states about them (C1 to
    C10), and further properties of the code (X1 to X22): bounds,
    idempotence and monotonicity of the stages, what the classifier needs
    to answer MRI, what the analysis and the heatmap never read, and the
    state of the page component of [page.tsx] as events arrive.

    Data model.
    - A [Uint8ClampedArray] is a flat [list Z] of bytes, four per pixel.
    - A JavaScript number that only ever holds an integer (loop indices,
      byte sums, histogram counts, Sobel responses) is a [Z]; all of them
      stay far below 2^53, where double arithmetic on integers is exact.
    - Every other JavaScript number is a real, and every arithmetic
      operation that can round is wrapped in [rnd] (rounding to binary64);
      a [Float32Array] element store is [fround].  [Math.exp], [Math.log2],
      [Math.hypot] and [Math.pow], which ECMAScript leaves
      implementation-approximated, are parameters.  A theorem names the
      properties of these operations that it relies on; exact real
      arithmetic ([rnd] the identity) satisfies all of them.  The entropy
      is bounded by 8 in doubles for the 65536 pixels of the canvas that
      the pipeline analyses, and in exact arithmetic for a buffer of any
      size; a part of a theorem that holds in exact arithmetic only
      carries the premise that nothing rounds.
    - A read outside an array is [undefined] in JavaScript; the theorems
      about pixel values assume a buffer that holds the whole grid, where
      the code reads no such entry. *)

From Stdlib Require Import Reals Lra Lia ZArith List String Sorted Permutation.
From stdpp Require Import base list.

Local Open Scope Z_scope.

(** ** Loops and array access *)

(** [for (let i = lo; i < hi; i++) s = body(i, s)] *)
Definition for_loop {S : Type} (lo hi : Z) (body : Z -> S -> S) (s : S) : S :=
  fold_left (fun s k => body (lo + Z.of_nat k) s) (seq 0 (Z.to_nat (hi - lo))) s.

(** [a[i]] on an array.  A read outside the array is [undefined] in
    JavaScript; the model gives the default [d], and every theorem that
    depends on the value read assumes a buffer of the right length, where
    no read is outside. *)
Definition get {A : Type} (d : A) (a : list A) (i : Z) : A :=
  if i <? 0 then d else nth (Z.to_nat i) a d.

(** [a[i] = v] on a typed array: a store outside the array is ignored. *)
Definition set {A : Type} (a : list A) (i : Z) (v : A) : list A :=
  if i <? 0 then a else <[Z.to_nat i := v]> a.

(** Conversion of an integral number on a store into a
    [Uint8ClampedArray]. *)
Definition ToUint8Clamp (n : Z) : Z := Z.max 0 (Z.min 255 n).

(** [Math.round]: the nearest integer, ties towards plus infinity.  It is
    exact on doubles. *)
Definition Math_round (x : R) : Z := Zfloor (x + / 2).

Definition is_byte (v : Z) : Prop := 0 <= v <= 255.

(** The luma channel and the alpha channel of a buffer: the entries at
    offsets 0 and 3 of each pixel. *)
Fixpoint lumas (data : list Z) : list Z :=
  match data with
  | y :: _ :: _ :: _ :: rest => y :: lumas rest
  | y :: _ => [y]
  | [] => []
  end.

Fixpoint alphas (data : list Z) : list Z :=
  match data with
  | _ :: _ :: _ :: a :: rest => a :: alphas rest
  | _ => []
  end.

(** Sums of the entries of an array, for stating properties. *)
Definition sumZ (l : list Z) : Z := fold_right Z.add 0 l.
Definition sumR (l : list R) : R := fold_right Rplus 0%R l.

(** The invariant of the counting loop of [computeHistogram]: 256 bins,
    none negative. *)
Definition bins_ok (hist : list Z) : Prop :=
  length hist = 256%nat /\ Forall (fun c => 0 <= c) hist.

(** One term [p log2 p] of the entropy, with [0 log2 0 = 0]. *)
Definition plog2 (p : R) : R :=
  if Rlt_dec 0 p then (p * (ln p / ln 2))%R else 0%R.

(** The buffer of [n] pixels that all have the colour [(r, g, b, a)]. *)
Fixpoint uniformImage (n : nat) (r g b a : Z) : list Z :=
  match n with
  | O => []
  | Datatypes.S n => r :: g :: b :: a :: uniformImage n r g b a
  end.

(** The 256 x 256 uniform gray image of constant luma 128. *)
Definition grayImage : list Z := uniformImage (256 * 256) 128 128 128 255.

(** The 256 x 256 image whose upper half is black and whose lower half is
    white. *)
Definition splitImage : list Z :=
  uniformImage (128 * 256) 0 0 0 255 ++ uniformImage (128 * 256) 255 255 255 255.

(** The feature record whose nine features are all 0. *)
Definition zeroFeatures : list (string * R) :=
  [("histMean", 0); ("histVar", 0); ("histEntropy", 0); ("edgeMean", 0);
   ("edgeStd", 0); ("edgeP50", 0); ("edgeP90", 0); ("edgeP99", 0);
   ("textureE", 0)]%string%R.

(** Two buffers of whole pixels with the same red, green and blue at every
    pixel: they differ in the alpha channel at most. *)
Fixpoint sameColour (d1 d2 : list Z) : Prop :=
  match d1, d2 with
  | r1 :: g1 :: b1 :: _ :: rest1, r2 :: g2 :: b2 :: _ :: rest2 =>
      r1 = r2 /\ g1 = g2 /\ b1 = b2 /\ sameColour rest1 rest2
  | [], [] => True
  | _, _ => False
  end.

(** Every whole pixel of the buffer has equal red, green and blue. *)
Fixpoint grayPixels (data : list Z) : Prop :=
  match data with
  | r :: g :: b :: _ :: rest => r = g /\ g = b /\ grayPixels rest
  | _ => True
  end.

(** The number of entries of [l] equal to [v]. *)
Fixpoint countZ (v : Z) (l : list Z) : Z :=
  match l with
  | [] => 0
  | y :: l => (if y =? v then 1 else 0) + countZ v l
  end.

(** The sum of the bins of [hist] weighted by their indices, the first bin
    having the index [i]. *)
Fixpoint wsum (hist : list Z) (i : Z) : Z :=
  match hist with
  | [] => 0
  | c :: rest => c * i + wsum rest (i + 1)
  end.

(** How many of the [n] indices from [i] on are equal to [a]. *)
Fixpoint hits (a : Z) (n : nat) (i : Z) : R :=
  match n with
  | O => 0%R
  | Datatypes.S n => ((if i =? a then 1 else 0) + hits a n (i + 1))%R
  end.

(** *** The population variance of a window, as a real number

    What the variance loop of [drawGradCAMLikeHeatmap] computes in
    doubles and stores in single precision, stated without rounding. *)




(** A 3 x 3 gray image of nine different levels and a 2 x 2 gray image of
    four. *)
Definition nineLevels : list Z :=
  [10; 10; 10; 255; 20; 20; 20; 255; 30; 30; 30; 255;
   40; 40; 40; 255; 50; 50; 50; 255; 60; 60; 60; 255;
   70; 70; 70; 255; 80; 80; 80; 255; 200; 200; 200; 255].

Definition fourLevels : list Z :=
  [10; 10; 10; 255; 200; 200; 200; 255; 30; 30; 30; 255; 90; 90; 90; 255].

(** How far the count [c] of a bin is from the count 256 of a uniform
    histogram of 65536 pixels, as it enters the bound of the entropy:
    with r = c / 256 it is (r - 1)^2 / (2 (r + 1)). *)
Definition binGap (c : Z) : R :=
  ((IZR c - 256) * (IZR c - 256) / (512 * (IZR c + 256)))%R.

(** ** Exact real arithmetic, the idealised instance of the parameters *)

Definition exact (x : R) : R := x.
Definition hypot_exact (x y : R) : R := sqrt (x * x + y * y).
Definition log2_exact (x : R) : R := (ln x / ln 2)%R.
Definition pow_exact (x y : R) : R :=
  if Req_dec_T x 0 then (if Rlt_dec 0 y then 0%R else 1%R) else Rpower x y.

Inductive Modality : Type := CT | MRI.

Record AnalysisResult : Type := mkResult {
  modality : Modality;
  confidence : R;
  features : list (string * R)
}.

(** [obj[k]] on a record of numbers. *)
Fixpoint field (k : string) (obj : list (string * R)) : R :=
  match obj with
  | [] => 0%R
  | (k', v) :: rest => if String.eqb k k' then v else field k rest
  end.

(** [Array.from(values).sort((a, b) => a - b)].  On finite doubles [a - b]
    is negative, zero or positive exactly as [a < b], [a = b] or [a > b],
    so the comparator orders the numbers ascending; numbers that compare
    equal are the same number, so the result does not depend on the
    sorting algorithm.  Written as an insertion sort. *)
Fixpoint sort_insert (x : R) (arr : list R) : list R :=
  match arr with
  | [] => [x]
  | y :: rest => if Rle_dec x y then x :: arr else y :: sort_insert x rest
  end.

Definition sort_ascending (values : list R) : list R :=
  fold_right sort_insert [] values.

(** ** The page component of [src/app/page.tsx]

    The state of the component is the four [useState] cells.  A handler
    is the function from the state it starts in to the state it leaves
    once all its [set...] calls have taken effect. *)

Record PageState : Type := mkPage {
  imageUrl : option string;
  result : option AnalysisResult;
  isProcessing : bool;
  error : option string
}.

Definition initialPage : PageState := mkPage None None false None.

Definition setImageUrl (v : option string) (s : PageState) : PageState :=
  mkPage v (result s) (isProcessing s) (error s).
Definition setResult (v : option AnalysisResult) (s : PageState) : PageState :=
  mkPage (imageUrl s) v (isProcessing s) (error s).
Definition setIsProcessing (v : bool) (s : PageState) : PageState :=
  mkPage (imageUrl s) (result s) v (error s).
Definition setError (v : option string) (s : PageState) : PageState :=
  mkPage (imageUrl s) (result s) (isProcessing s) v.

(** A thrown value, as far as the page looks at it: its [message], if it
    has one. *)
Inductive Thrown : Type := Throw (message : option string).

(** [err?.message ?? "Analysis failed"] *)
Definition messageOf (err : Thrown) : string :=
  match err with
  | Throw (Some m) => m
  | Throw None => "Analysis failed"
  end.

(** [ensureCanvasContext]: [ctx] is what [canvas.getContext("2d")]
    returns, [None] for [null]. *)
Definition ensureCanvasContext {C : Type} (ctx : option C) : Thrown + C :=
  match ctx with
  | Some c => inr c
  | None => inl (Throw (Some "Canvas 2D not supported"%string))
  end.

(** [onFileChange]: [file] is the object URL made for
    [e.target.files?.[0]], [None] when no file was chosen. *)
Definition onFileChange (file : option string) (s : PageState) : PageState :=
  match file with
  | None => s
  | Some url => setError None (setResult None (setImageUrl (Some url) s))
  end.

(** [!!imageUrl && !isProcessing]; the empty string is falsy. *)
Definition canAnalyze (s : PageState) : bool :=
  match imageUrl s with
  | Some url => negb (String.eqb url "") && negb (isProcessing s)
  | None => false
  end.

(** The part of [onAnalyze] before the first [await]. *)
Definition onAnalyze_start (s : PageState) : PageState :=
  setError None (setIsProcessing true s).

(** [onAnalyze].  [refs] tells whether the three refs are all set;
    [analysis] is how the call of [analyzeCtVsMri] ends and [heatmap] how
    the call of [drawGradCAMLikeHeatmap] ends if it is reached, [None] for
    a normal return. *)
Definition onAnalyze (refs : bool) (analysis : Thrown + AnalysisResult)
    (heatmap : option Thrown) (s : PageState) : PageState :=
  if negb refs then s else
  let s := onAnalyze_start s in
  let s :=
    match analysis with
    | inr res =>
        let s := setResult (Some res) s in
        match heatmap with
        | None => s
        | Some err => setError (Some (messageOf err)) s
        end
    | inl err => setError (Some (messageOf err)) s
    end in
  setIsProcessing false s.

(** *** The page as events arrive

    A call of [onAnalyze] runs up to its first [await] when the button is
    clicked and goes on when the awaited call returns or throws; other
    events may arrive in between.  [awaitingAnalysis] and
    [awaitingHeatmap] count the calls of [onAnalyze] that are waiting at
    the first and at the second [await]. *)

Record Running : Type := mkRunning {
  page : PageState;
  awaitingAnalysis : nat;
  awaitingHeatmap : nat
}.

Inductive PageEvent : Type :=
  | FileChosen (file : option string)
  | AnalyzeClicked (refs : bool)
  | AnalysisReturned (res : AnalysisResult)
  | AnalysisThrew (err : Thrown)
  | HeatmapReturned
  | HeatmapThrew (err : Thrown).

(** [catch] and [finally] of [onAnalyze]. *)
Definition onAnalyze_catch (err : Thrown) (s : PageState) : PageState :=
  setIsProcessing false (setError (Some (messageOf err)) s).

(** One event.  [None]: the event cannot arrive in this state, because
    the button is disabled ([disabled={!canAnalyze}]) or because no call
    is waiting for it. *)
Definition pageStep (ev : PageEvent) (r : Running) : option Running :=
  match ev with
  | FileChosen file =>
      Some (mkRunning (onFileChange file (page r))
              (awaitingAnalysis r) (awaitingHeatmap r))
  | AnalyzeClicked refs =>
      if canAnalyze (page r) then
        if refs then
          Some (mkRunning (onAnalyze_start (page r))
                  (Datatypes.S (awaitingAnalysis r)) (awaitingHeatmap r))
        else Some r
      else None
  | AnalysisReturned res =>
      match awaitingAnalysis r with
      | Datatypes.S n =>
          Some (mkRunning (setResult (Some res) (page r))
                  n (Datatypes.S (awaitingHeatmap r)))
      | O => None
      end
  | AnalysisThrew err =>
      match awaitingAnalysis r with
      | Datatypes.S n =>
          Some (mkRunning (onAnalyze_catch err (page r)) n (awaitingHeatmap r))
      | O => None
      end
  | HeatmapReturned =>
      match awaitingHeatmap r with
      | Datatypes.S n =>
          Some (mkRunning (setIsProcessing false (page r)) (awaitingAnalysis r) n)
      | O => None
      end
  | HeatmapThrew err =>
      match awaitingHeatmap r with
      | Datatypes.S n =>
          Some (mkRunning (onAnalyze_catch err (page r)) (awaitingAnalysis r) n)
      | O => None
      end
  end.

Fixpoint pageRun (evs : list PageEvent) (r : Running) : option Running :=
  match evs with
  | [] => Some r
  | ev :: evs =>
      match pageStep ev r with
      | Some r' => pageRun evs r'
      | None => None
      end
  end.

(** The page after mounting: nothing chosen, no call running. *)
Definition mounted : Running := mkRunning initialPage 0 0.

(** What holds of the page between events: [isProcessing] counts the
    running calls, and no error is shown while one is running. *)
Definition page_invariant (r : Running) : Prop :=
  (awaitingAnalysis r + awaitingHeatmap r
   = if isProcessing (page r) then 1 else 0)%nat /\
  (isProcessing (page r) = true -> error (page r) = None).

Section Analyze.

(** Rounding of a real result to the nearest double, and to the nearest
    single on a [Float32Array] store. *)
Variable rnd : R -> R.
Variable fround : R -> R.
Variable Math_exp Math_log2 : R -> R.
Variable Math_hypot Math_pow : R -> R -> R.

Definition lit (x : R) : R := rnd x.
Definition fadd (x y : R) : R := rnd (x + y).
Definition fsub (x y : R) : R := rnd (x - y).
Definition fmul (x y : R) : R := rnd (x * y).
Definition fdiv (x y : R) : R := rnd (x / y).
Definition Math_sqrt (x : R) : R := rnd (sqrt x).

Infix "⊕" := fadd (at level 50, left associativity).
Infix "⊖" := fsub (at level 50, left associativity).
Infix "⊗" := fmul (at level 40, left associativity).
Infix "⊘" := fdiv (at level 40, left associativity).

(** *** Normalizer *)

Definition luma (r g b : Z) : Z :=
  Math_round (lit 0.2126 ⊗ IZR r ⊕ lit 0.7152 ⊗ IZR g ⊕ lit 0.0722 ⊗ IZR b).

(** The last three cases are a buffer whose length is no multiple of 4:
    a missing channel reads as [undefined], [y] is then NaN unless only
    alpha is missing, NaN is stored as 0, and stores past the end are
    ignored. *)
Fixpoint toGrayscale (data : list Z) : list Z :=
  match data with
  | r :: g :: b :: a :: rest =>
      let y := luma r g b in
      ToUint8Clamp y :: ToUint8Clamp y :: ToUint8Clamp y :: ToUint8Clamp a
        :: toGrayscale rest
  | [r; g; b] =>
      let y := luma r g b in [ToUint8Clamp y; ToUint8Clamp y; ToUint8Clamp y]
  | [_; _] => [0; 0]
  | [_] => [0]
  | [] => []
  end.

(** First loop of [normalizeIntensity]: [(min, max)] over [data[i]],
    [i] stepping by 4. *)
Fixpoint scanMinMax (data : list Z) (mn mx : Z) : Z * Z :=
  match data with
  | v :: tl =>
      let mn' := if v <? mn then v else mn in
      let mx' := if v >? mx then v else mx in
      match tl with
      | _ :: _ :: _ :: rest => scanMinMax rest mn' mx'
      | _ => (mn', mx')
      end
  | [] => (mn, mx)
  end.

Definition normalizePixel (mn range y : Z) : Z :=
  Math_round (IZR (y - mn) ⊘ IZR range ⊗ 255).

(** Second loop of [normalizeIntensity]. *)
Fixpoint stretch (mn range : Z) (data : list Z) : list Z :=
  match data with
  | y :: g :: b :: a :: rest =>
      let n := ToUint8Clamp (normalizePixel mn range y) in
      n :: n :: n :: ToUint8Clamp a :: stretch mn range rest
  | y :: tl =>
      let n := ToUint8Clamp (normalizePixel mn range y) in
      n :: map (fun _ => n) tl
  | [] => []
  end.

Definition normalizeIntensity (data : list Z) : list Z :=
  let '(mn, mx) := scanMinMax data 255 0 in
  let range := Z.max 1 (mx - mn) in
  stretch mn range data.

(** *** Feature extractors *)

(** First loop of [computeHistogram]: the bin counts and the pixel
    count.  [hist] is an ordinary array of 256 numbers and [data[i]] a
    byte, so [hist[data[i]]++] always hits one of the bins. *)
Fixpoint histCounts (data : list Z) (hist : list Z) (count : Z) : list Z * Z :=
  match data with
  | v :: tl =>
      let hist' := set hist v (get 0 hist v + 1) in
      match tl with
      | _ :: _ :: _ :: rest => histCounts rest hist' (count + 1)
      | _ => (hist', count + 1)
      end
  | [] => (hist, count)
  end.

Definition computeHistogram (data : list Z) : list R :=
  let '(hist, count) := histCounts data (replicate 256 0) 0 in
  map (fun c => IZR c ⊘ IZR count) hist.

(** [hist.reduce((s, p) => s + p, 0)]: the sum of an array as a program
    adds it up, for stating properties. *)
Definition fsum (l : list R) : R := fold_left (fun s p => s ⊕ p) l 0%R.

Definition gxKernel : list Z := [-1; 0; 1; -2; 0; 2; -1; 0; 1].
Definition gyKernel : list Z := [-1; -2; -1; 0; 0; 0; 1; 2; 1].

Definition clamp (x mn mx : Z) : Z := Z.max mn (Z.min mx x).

(** The two kernel loops of [computeSobelEdges] at the pixel [(x, y)]:
    [(gx, gy, idx)] after them.  [clampf] is the local [clamp]. *)
Definition sobelKernelLoops (clampf : Z -> Z -> Z -> Z)
    (gray : list Z) (width height x y : Z) : Z * Z * Z :=
  for_loop (-1) 2 (fun ky acc =>
    for_loop (-1) 2 (fun kx '(gx, gy, idx) =>
      let px := clampf (x + kx) 0 (width - 1) in
      let py := clampf (y + ky) 0 (height - 1) in
      let i := (py * width + px) * 4 in
      let v := get 0 gray i in
      (gx + get 0 gxKernel idx * v, gy + get 0 gyKernel idx * v, idx + 1))
    acc) (0, 0, 0).

Definition computeSobelEdgesWith (clampf : Z -> Z -> Z -> Z)
    (gray : list Z) (width height : Z) : list R :=
  let magnitude := replicate (Z.to_nat (width * height)) 0%R in
  for_loop 1 (height - 1) (fun y magnitude =>
    for_loop 1 (width - 1) (fun x magnitude =>
      let '(gx, gy, _) := sobelKernelLoops clampf gray width height x y in
      let m := Math_hypot (IZR gx) (IZR gy) in
      set magnitude (y * width + x) (fround m))
    magnitude) magnitude.

Definition computeSobelEdges : list Z -> Z -> Z -> list R :=
  computeSobelEdgesWith clamp.

(** [computeSobelEdges] with the neighbour coordinates left as they are:
    the function C9 compares [computeSobelEdges] with. *)
Definition computeSobelEdges_unclamped : list Z -> Z -> Z -> list R :=
  computeSobelEdgesWith (fun x _ _ => x).

(** The 3 x 3 Sobel responses at [(x, y)] as the specification words them:
    the kernels [-1 0 1; -2 0 2; -1 0 1] and [-1 -2 -1; 0 0 0; 1 2 1] over
    the neighbours, each sampled at its coordinates clamped to the nearest
    valid ones (edge replicate). *)
Definition sampleClamped (gray : list Z) (width height x y : Z) : Z :=
  get 0 gray ((clamp y 0 (height - 1) * width + clamp x 0 (width - 1)) * 4).

Definition sobelGx (gray : list Z) (width height x y : Z) : Z :=
  let s := sampleClamped gray width height in
  - s (x - 1) (y - 1) + s (x + 1) (y - 1)
  - 2 * s (x - 1) y + 2 * s (x + 1) y
  - s (x - 1) (y + 1) + s (x + 1) (y + 1).

Definition sobelGy (gray : list Z) (width height x y : Z) : Z :=
  let s := sampleClamped gray width height in
  - s (x - 1) (y - 1) - 2 * s x (y - 1) - s (x + 1) (y - 1)
  + s (x - 1) (y + 1) + 2 * s x (y + 1) + s (x + 1) (y + 1).

Definition mean (values : list R) : R :=
  let s := fold_left (fun s v => s ⊕ v) values 0%R in
  s ⊘ IZR (Z.of_nat (length values)).

Definition std (values : list R) (mu : option R) : R :=
  let m := match mu with Some m => m | None => mean values end in
  let s2 := fold_left (fun s2 v => let d := v ⊖ m in s2 ⊕ d ⊗ d) values 0%R in
  Math_sqrt (s2 ⊘ IZR (Z.max 1 (Z.of_nat (length values) - 1))).

Definition percentileIndex (len : Z) (p : R) : Z :=
  Z.min (len - 1) (Z.max 0 (Math_round (p ⊘ 100 ⊗ IZR (len - 1)))).

Definition percentiles (values : list R) (ps : list R) : list R :=
  let arr := sort_ascending values in
  map (fun p => get 0%R arr (percentileIndex (Z.of_nat (length arr)) p)) ps.

Definition computeTextureEnergy (gray : list Z) (width height : Z) : R :=
  let energy :=
    for_loop 0 (height - 1) (fun y energy =>
      for_loop 0 (width - 1) (fun x energy =>
        let i := (y * width + x) * 4 in
        let dx := get 0 gray i - get 0 gray (i + 4) in
        let dy := get 0 gray i - get 0 gray (i + width * 4) in
        energy + (Z.abs dx + Z.abs dy))
      energy) 0 in
  IZR energy ⊘ IZR (width * height).

(** *** Linear classifier *)

Definition logistic (x : R) : R := 1 ⊘ (1 ⊕ Math_exp (- x)).

Definition weights : list (string * R) :=
  [("histMean", - lit 0.01); ("histVar", - lit 0.002);
   ("histEntropy", lit 0.8); ("edgeMean", - lit 0.015);
   ("edgeStd", - lit 0.02); ("edgeP50", - lit 0.001);
   ("edgeP90", - lit 0.0008); ("edgeP99", - lit 0.0005);
   ("textureE", - lit 0.004)]%string%R.

Definition bias : R := (- 1)%R.

Definition size : Z := 256.

Definition histogramMean (hist : list R) : R :=
  fst (fold_left (fun '(s, i) p => (s ⊕ p ⊗ IZR i, i + 1)) hist (0%R, 0)).

Definition histogramVar (hist : list R) (histMean : R) : R :=
  fst (fold_left (fun '(s, i) p =>
         (s ⊕ p ⊗ (IZR i ⊖ histMean) ⊗ (IZR i ⊖ histMean), i + 1))
       hist (0%R, 0)).

Definition histogramEntropy (hist : list R) : R :=
  (- fold_left (fun s p => if Rlt_dec 0 p then s ⊕ p ⊗ Math_log2 p else s)
       hist 0)%R.

(** The feature record of [analyzeCtVsMri], from the normalized buffer. *)
Definition extractFeatures (norm : list Z) : list (string * R) :=
  let hist := computeHistogram norm in
  let histMean := histogramMean hist in
  let histVar := histogramVar hist histMean in
  let histEntropy := histogramEntropy hist in
  let edges := computeSobelEdges norm size size in
  let edgeMean := mean edges in
  let edgeStd := std edges (Some edgeMean) in
  let ps := percentiles edges [50; 90; 99]%R in
  let edgeP50 := get 0%R ps 0 in
  let edgeP90 := get 0%R ps 1 in
  let edgeP99 := get 0%R ps 2 in
  let textureE := computeTextureEnergy norm size size in
  [("histMean", histMean); ("histVar", histVar);
   ("histEntropy", histEntropy); ("edgeMean", edgeMean);
   ("edgeStd", edgeStd); ("edgeP50", edgeP50); ("edgeP90", edgeP90);
   ("edgeP99", edgeP99); ("textureE", textureE)]%string.

(** [let score = bias; for (const k of Object.keys(features)) score +=
    features[k] * weights[k]] *)
Definition classifierScore (features : list (string * R)) : R :=
  fold_left (fun score k => score ⊕ field k features ⊗ field k weights)
    (map fst features) bias.

Definition classify (features : list (string * R)) : AnalysisResult :=
  let score := classifierScore features in
  let probMRI := logistic score in
  let modality := if Rlt_dec 0.5 probMRI then MRI else CT in
  let confidence :=
    match modality with MRI => probMRI | CT => 1 ⊖ probMRI end in
  mkResult modality confidence features.

(** [analyzeCtVsMri], from the pixels that [getImageData] returns for the
    256 x 256 canvas. *)
Definition analyzeCtVsMri (imageData : list Z) : AnalysisResult :=
  let gray := toGrayscale imageData in
  let norm := normalizeIntensity gray in
  classify (extractFeatures norm).

(** *** Local-variance heatmap *)

Definition window : Z := 5.
Definition radius : Z := window / 2.

(** [gray[i] = gray[i + 1] = gray[i + 2] = data[i]]; the alpha bytes of
    [gray] keep their initial 0. *)
Fixpoint copyLuma (data : list Z) : list Z :=
  match data with
  | y :: _ :: _ :: _ :: rest =>
      ToUint8Clamp y :: ToUint8Clamp y :: ToUint8Clamp y :: 0 :: copyLuma rest
  | y :: tl => ToUint8Clamp y :: map (fun _ => ToUint8Clamp y) tl
  | [] => []
  end.

(** The two window loops at the pixel [(x, y)]: [(sum, sum2, count)]. *)
Definition windowSums (gray : list Z) (width height x y : Z) : Z * Z * Z :=
  for_loop (- radius) (radius + 1) (fun dy acc =>
    for_loop (- radius) (radius + 1) (fun dx '(sum, sum2, count) =>
      let xx := Z.min (width - 1) (Z.max 0 (x + dx)) in
      let yy := Z.min (height - 1) (Z.max 0 (y + dy)) in
      let v := get 0 gray ((yy * width + xx) * 4) in
      (sum + v, sum2 + v * v, count + 1))
    acc) (0, 0, 0).

Definition localVariance (gray : list Z) (width height : Z) : list R :=
  let variance := replicate (Z.to_nat (width * height)) 0%R in
  for_loop 0 height (fun y variance =>
    for_loop 0 width (fun x variance =>
      let '(sum, sum2, count) := windowSums gray width height x y in
      let mu := IZR sum ⊘ IZR count in
      let varpx := IZR sum2 ⊘ IZR count ⊖ mu ⊗ mu in
      set variance (y * width + x) (fround varpx))
    variance) variance.

(** [let min = Infinity, max = -Infinity] and the scan over [variance];
    [None] is the initial infinity, below (above) which every number
    lies. *)
Definition scanRange (variance : list R) : option R * option R :=
  fold_left (fun '(mn, mx) v =>
      (match mn with
       | Some m => if Rlt_dec v m then Some v else Some m
       | None => Some v
       end,
       match mx with
       | Some m => if Rlt_dec m v then Some v else Some m
       | None => Some v
       end))
    variance (None, None).

(** The normalized field.  The scan leaves the infinities only for an
    empty field, which has nothing to normalize. *)
Definition heatNormalize (variance : list R) : list R :=
  match scanRange variance with
  | (Some mn, Some mx) =>
      let range := Rmax (lit 1e-6) (mx ⊖ mn) in
      map (fun v => fround ((v ⊖ mn) ⊘ range)) variance
  | _ => []
  end.

Definition colormap (v : R) : Z * Z * Z :=
  let r := Z.min 255 (Z.max 0 (Math_round (255 ⊗ Math_pow v (lit 0.35)))) in
  let g := Z.min 255 (Z.max 0
             (Math_round (255 ⊗ Math_pow v (lit 1.2) ⊗ (1 ⊖ v)))) in
  let b := Z.min 255 (Z.max 0 (Math_round (255 ⊗ (1 ⊖ v)))) in
  (r, g, b).

(** [drawGradCAMLikeHeatmap], from the pixels of the source canvas to the
    pixels put on the heatmap canvas. *)
Definition drawGradCAMLikeHeatmap (data : list Z) (width height : Z) : list Z :=
  let gray := copyLuma data in
  let variance := localVariance gray width height in
  let norm := heatNormalize variance in
  let out := replicate (Z.to_nat (width * height * 4)) 0 in
  for_loop 0 height (fun y out =>
    for_loop 0 width (fun x out =>
      let i := y * width + x in
      let v := get 0%R norm i in
      let '(r, g, b) := colormap v in
      let j := i * 4 in
      let out := set out j (ToUint8Clamp r) in
      let out := set out (j + 1) (ToUint8Clamp g) in
      let out := set out (j + 2) (ToUint8Clamp b) in
      set out (j + 3) (ToUint8Clamp 180))
    out) out.

(** *** The two exported functions as the page calls them

    A canvas is given by what [getContext("2d")] returns for it, and the
    context of a canvas that is read by the pixels [getImageData] returns
    from it.  The result is the value returned or the value thrown. *)

Definition analyzeCtVsMri_async (outCanvas : option (list Z))
    : Thrown + AnalysisResult :=
  match ensureCanvasContext outCanvas with
  | inl err => inl err
  | inr imageData => inr (analyzeCtVsMri imageData)
  end.

Definition drawGradCAMLikeHeatmap_async (srcCanvas : option (list Z))
    (heatmapCanvas : option unit) (width height : Z) : Thrown + list Z :=
  match ensureCanvasContext srcCanvas with
  | inl err => inl err
  | inr data =>
      match ensureCanvasContext heatmapCanvas with
      | inl err => inl err
      | inr _ => inr (drawGradCAMLikeHeatmap data width height)
      end
  end.

(** ** Properties of the arithmetic the theorems rely on

    Each holds of IEEE 754 round-to-nearest on the ranges named, and of
    exact real arithmetic.  A theorem depends only on the ones its
    [Proof using] lists. *)

(** Rounding is monotone. *)
Hypothesis rnd_mono : forall x y : R, (x <= y)%R -> (rnd x <= rnd y)%R.

(** A number [n / 2^k] with a mantissa of at most 53 bits is a double,
    and rounding leaves it as it is. *)
Hypothesis rnd_dyadic : forall (n : Z) (k : nat),
  Z.abs n <= 2 ^ 53 -> (k <= 64)%nat ->
  rnd (IZR n / 2 ^ k) = (IZR n / 2 ^ k)%R.

(** Between 2^-64 and 2^64, far from underflow and overflow, rounding
    changes a number by at most the fraction 2^-53 of it. *)
Hypothesis rnd_error : forall x : R,
  (/ 2 ^ 64 <= x <= 2 ^ 64)%R -> (Rabs (rnd x - x) <= x / 2 ^ 53)%R.

(** [Math.exp] never returns a negative number. *)
Hypothesis exp_nonneg : forall x : R, (0 <= Math_exp x)%R.

(** [Math.exp(1)] is Euler's number within 2^-40. *)
Hypothesis exp_1_accurate : (Rabs (Math_exp 1 - exp 1) <= / 2 ^ 40)%R.

(** [Math.log2] is not positive up to 1, and is 0 at 1. *)
Hypothesis log2_nonpos : forall x : R, (0 < x <= 1)%R -> (Math_log2 x <= 0)%R.
Hypothesis log2_1 : Math_log2 1 = 0%R.

(** [Math.hypot(0, 0)] is 0, [Math.pow(0, y)] is 0 for a positive [y], and
    0 is a single-precision number. *)
Hypothesis hypot_0 : Math_hypot 0 0 = 0%R.
Hypothesis pow_0 : forall y : R, (0 < y)%R -> Math_pow 0 y = 0%R.
Hypothesis fround_0 : fround 0 = 0%R.

(** Rounding a double gives the same double. *)
Hypothesis rnd_idem : forall x : R, rnd (rnd x) = rnd x.

(** [Math.exp] is at least 1 from 0 on, [Math.hypot] is never negative,
    and [Math.pow(1, y)] is 1. *)
Hypothesis exp_ge_1 : forall x : R, (0 <= x)%R -> (1 <= Math_exp x)%R.
Hypothesis hypot_nonneg : forall x y : R, (0 <= Math_hypot x y)%R.
Hypothesis pow_1 : forall y : R, Math_pow 1 y = 1%R.

(** [Math.exp] is monotone, and [Math.exp(0)] is 1. *)
Hypothesis exp_monotone : forall x y : R, (x <= y)%R -> (Math_exp x <= Math_exp y)%R.
Hypothesis exp_at_0 : Math_exp 0 = 1%R.

(** Rounding to single precision is monotone, and 1 is a single-precision
    number. *)
Hypothesis fround_mono : forall x y : R, (x <= y)%R -> (fround x <= fround y)%R.
Hypothesis fround_1 : fround 1 = 1%R.

(** Rounding is symmetric: the double nearest to [- x] is the negation of
    the double nearest to [x]. *)
Hypothesis rnd_opp : forall x : R, rnd (- x) = (- rnd x)%R.

(** [Math.log2] is exact at 1/256, and from 2^-16 up to 1 it is within
    2^-30 of the binary logarithm. *)
Hypothesis log2_256 : Math_log2 (/ 256) = (- 8)%R.
Hypothesis log2_accurate : forall x : R,
  (/ 2 ^ 16 <= x <= 1)%R -> (Rabs (Math_log2 x - ln x / ln 2) <= / 2 ^ 30)%R.

(** Up to 2^64 in size, no single-precision number [n / 2^k] is nearer
    to [x] than [fround x] is. *)
Hypothesis fround_nearest : forall (x : R) (n : Z) (k : nat),
  (Rabs x <= 2 ^ 64)%R -> Z.abs n <= 2 ^ 24 -> (k <= 64)%nat ->
  (Rabs (fround x - x) <= Rabs (IZR n / 2 ^ k - x))%R.

(** ** Loops and arrays: general facts *)

Lemma for_loop_nil {S : Type} (lo hi : Z) (body : Z -> S -> S) (s : S) :
  hi <= lo -> for_loop lo hi body s = s.
Proof.
  intros H. unfold for_loop.
  replace (Z.to_nat (hi - lo)) with 0%nat by lia. reflexivity.
Qed.

Lemma for_loop_snoc {S : Type} (lo hi : Z) (body : Z -> S -> S) (s : S) :
  lo <= hi ->
  for_loop lo (hi + 1) body s = body hi (for_loop lo hi body s).
Proof.
  intros H. unfold for_loop.
  replace (Z.to_nat (hi + 1 - lo)) with (Datatypes.S (Z.to_nat (hi - lo))) by lia.
  rewrite seq_S, fold_left_app. simpl.
  f_equal. lia.
Qed.

(** Induction on the upper bound of a loop, with an invariant that may
    mention the index reached. *)
Lemma for_loop_ind {S : Type} (P : Z -> S -> Prop) (lo hi : Z)
    (body : Z -> S -> S) (s : S) :
  lo <= hi ->
  P lo s ->
  (forall i t, lo <= i < hi -> P i t -> P (i + 1) (body i t)) ->
  P hi (for_loop lo hi body s).
Proof.
  intros Hle H0 Hstep.
  assert (Hn : forall n : nat, lo + Z.of_nat n <= hi ->
                 P (lo + Z.of_nat n) (for_loop lo (lo + Z.of_nat n) body s)).
  { induction n as [|n IH]; intros Hb.
    - rewrite for_loop_nil by lia. now rewrite Z.add_0_r.
    - replace (lo + Z.of_nat (Datatypes.S n)) with (lo + Z.of_nat n + 1) by lia.
      rewrite for_loop_snoc by lia.
      apply Hstep; [lia | apply IH; lia]. }
  specialize (Hn (Z.to_nat (hi - lo))).
  replace (lo + Z.of_nat (Z.to_nat (hi - lo))) with hi in Hn by lia.
  apply Hn. lia.
Qed.

Lemma for_loop_inv {S : Type} (P : S -> Prop) (lo hi : Z)
    (body : Z -> S -> S) (s : S) :
  P s ->
  (forall i t, lo <= i < hi -> P t -> P (body i t)) ->
  P (for_loop lo hi body s).
Proof.
  intros H0 Hstep.
  destruct (Z_le_gt_dec lo hi) as [Hle|Hgt].
  - apply (for_loop_ind (fun _ => P)); auto.
  - now rewrite for_loop_nil by lia.
Qed.

Lemma for_loop_ext {S : Type} (lo hi : Z) (body body' : Z -> S -> S) (s : S) :
  (forall i t, lo <= i < hi -> body i t = body' i t) ->
  for_loop lo hi body s = for_loop lo hi body' s.
Proof.
  intros Hext.
  destruct (Z_le_gt_dec lo hi) as [Hle|Hgt].
  - apply (for_loop_ind
             (fun i t => t = for_loop lo i body' s) lo hi body s); auto.
    + now rewrite for_loop_nil by lia.
    + intros i t Hi ->. rewrite for_loop_snoc by lia. now apply Hext.
  - now rewrite !for_loop_nil by lia.
Qed.

Lemma fold_left_cons {A B : Type} (f : A -> B -> A) (x : B) (l : list B) (s : A) :
  fold_left f (x :: l) s = fold_left f l (f s x).
Proof. reflexivity. Qed.

Lemma length_set {A : Type} (a : list A) (i : Z) (v : A) :
  length (set a i v) = length a.
Proof. unfold set. destruct (i <? 0); [reflexivity | apply length_insert]. Qed.

Lemma get_set_eq {A : Type} (d : A) (a : list A) (i : Z) (v : A) :
  0 <= i < Z.of_nat (length a) -> get d (set a i v) i = v.
Proof.
  intros H. unfold get, set.
  destruct (i <? 0) eqn:E; [lia|].
  apply nth_lookup_Some, list_lookup_insert_eq. lia.
Qed.

Lemma get_set_ne {A : Type} (d : A) (a : list A) (i j : Z) (v : A) :
  i <> j -> get d (set a i v) j = get d a j.
Proof.
  intros H. unfold get, set.
  destruct (j <? 0) eqn:Ej; [reflexivity|].
  destruct (i <? 0) eqn:Ei; [reflexivity|].
  rewrite !nth_lookup, list_lookup_insert_ne; [reflexivity | lia].
Qed.

Lemma elem_of_map {A B : Type} (f : A -> B) (l : list A) (y : B) :
  y ∈ map f l <-> exists x, y = f x /\ x ∈ l.
Proof.
  rewrite list_elem_of_In, in_map_iff. split.
  - intros (x & Hx & Hin). exists x. split; [auto | now apply list_elem_of_In].
  - intros (x & Hx & Hin). exists x. split; [auto | now apply list_elem_of_In].
Qed.

Lemma clamp_inside (x mn mx : Z) : mn <= x <= mx -> clamp x mn mx = x.
Proof. unfold clamp. lia. Qed.

(** ** The clamp of the Sobel kernel loop *)

Lemma sobelKernelLoops_unclamped (gray : list Z) (width height x y : Z) :
  1 <= x < width - 1 -> 1 <= y < height - 1 ->
  sobelKernelLoops clamp gray width height x y
  = sobelKernelLoops (fun x _ _ => x) gray width height x y.
Proof.
  intros Hx Hy. unfold sobelKernelLoops.
  apply for_loop_ext. intros ky acc Hky.
  apply for_loop_ext. intros kx [[gx gy] idx] Hkx.
  rewrite !clamp_inside by lia. reflexivity.
Qed.

(** C9: the clamp inside the kernel loop of [computeSobelEdges] is never
    active.  At every pixel the output loops visit and every kernel
    offset in [-1, 1] the clamped sample coordinate is the unclamped one,
    and [computeSobelEdges] is equal, on every input, to the same
    function without the clamp. *)
Theorem computeSobelEdges_clamp_inactive :
  (forall width height x y kx ky : Z,
      1 <= x <= width - 2 -> 1 <= y <= height - 2 ->
      -1 <= kx <= 1 -> -1 <= ky <= 1 ->
      clamp (x + kx) 0 (width - 1) = x + kx /\
      clamp (y + ky) 0 (height - 1) = y + ky) /\
  (forall (gray : list Z) (width height : Z),
      computeSobelEdges gray width height
      = computeSobelEdges_unclamped gray width height).
Proof.
  split.
  - intros width height x y kx ky Hx Hy Hkx Hky.
    split; apply clamp_inside; lia.
  - intros gray width height.
    unfold computeSobelEdges, computeSobelEdges_unclamped, computeSobelEdgesWith.
    apply for_loop_ext. intros y mag Hy.
    apply for_loop_ext. intros x mag' Hx.
    rewrite sobelKernelLoops_unclamped by lia. reflexivity.
Qed.

(** ** Rounding of representable numbers *)

Lemma rnd_IZR (n : Z) : Z.abs n <= 2 ^ 53 -> rnd (IZR n) = IZR n.
Proof using rnd_dyadic.
  intros H. generalize (rnd_dyadic n 0 H ltac:(lia)).
  simpl. now rewrite Rdiv_1_r.
Qed.

Lemma rnd_0 : rnd 0 = 0%R.
Proof using rnd_dyadic. apply (rnd_IZR 0). lia. Qed.

Lemma rnd_1 : rnd 1 = 1%R.
Proof using rnd_dyadic. apply (rnd_IZR 1). lia. Qed.

Lemma rnd_half : rnd 0.5 = 0.5%R.
Proof using rnd_dyadic.
  generalize (rnd_dyadic 1 1 ltac:(lia) ltac:(lia)).
  replace (1 / 2 ^ 1)%R with 0.5%R by lra. auto.
Qed.

(** ** The linear classifier *)

Lemma logistic_bounds (x : R) : (0 <= logistic x <= 1)%R.
Proof using rnd_mono rnd_dyadic exp_nonneg.
  unfold logistic, fdiv, fadd.
  assert (H1 : (1 <= rnd (1 + Math_exp (- x)))%R).
  { rewrite <- rnd_1 at 1. apply rnd_mono.
    generalize (exp_nonneg (- x)). lra. }
  set (d := rnd (1 + Math_exp (- x))) in *.
  assert (Hq : (0 <= 1 / d <= 1)%R).
  { assert (H2 : (0 < / d)%R) by (apply Rinv_0_lt_compat; lra).
    assert (H3 : (/ d <= 1)%R).
    { rewrite <- Rinv_1. apply Rinv_le_contravar; lra. }
    unfold Rdiv. lra. }
  split.
  - rewrite <- rnd_0. apply rnd_mono. lra.
  - rewrite <- rnd_1 at 2. apply rnd_mono. lra.
Qed.

(** C3: for every input image, that is for the pixels of the 256 x 256
    canvas the image is drawn on, the result of [analyzeCtVsMri] has
    0.5 <= confidence <= 1, where probMRI = 1/(1+exp(-score)), the label
    is MRI if probMRI > 0.5 and CT otherwise, and the confidence is
    probMRI for the label MRI and 1 - probMRI for the label CT. *)
Theorem analyzeCtVsMri_confidence (imageData : list Z) :
  Z.of_nat (length imageData) = 4 * size * size ->
  let result := analyzeCtVsMri imageData in
  let score := classifierScore (features result) in
  let probMRI := (1 ⊘ (1 ⊕ Math_exp (- score)))%R in
  (0.5 <= confidence result <= 1)%R /\
  (modality result = MRI <-> (probMRI > 0.5)%R) /\
  (modality result = CT <-> ~ (probMRI > 0.5)%R) /\
  confidence result
  = match modality result with MRI => probMRI | CT => 1 ⊖ probMRI end.
Proof using rnd_mono rnd_dyadic exp_nonneg.
  intros _ result score probMRI. subst result score probMRI.
  unfold analyzeCtVsMri, classify. cbn [features modality confidence].
  fold (logistic (classifierScore
                    (extractFeatures (normalizeIntensity (toGrayscale imageData))))).
  generalize (logistic_bounds (classifierScore
                (extractFeatures (normalizeIntensity (toGrayscale imageData))))).
  generalize (logistic (classifierScore
                (extractFeatures (normalizeIntensity (toGrayscale imageData))))).
  intros p Hp.
  destruct (Rlt_dec 0.5 p) as [Hgt|Hle].
  - repeat split; try lra; try discriminate; try (intros; lra).
  - repeat split; try discriminate; try reflexivity; try (intros; lra).
    + unfold fsub. rewrite <- rnd_half. apply rnd_mono. lra.
    + unfold fsub. rewrite <- rnd_1 at 2. apply rnd_mono. lra.
Qed.

Lemma rnd_le_dyadic (x : R) (n : Z) (k : nat) :
  Z.abs n <= 2 ^ 53 -> (k <= 64)%nat ->
  (x <= IZR n / 2 ^ k)%R -> (rnd x <= IZR n / 2 ^ k)%R.
Proof using rnd_mono rnd_dyadic.
  intros Hn Hk Hx. rewrite <- (rnd_dyadic n k Hn Hk). now apply rnd_mono.
Qed.

Lemma rnd_ge_dyadic (x : R) (n : Z) (k : nat) :
  Z.abs n <= 2 ^ 53 -> (k <= 64)%nat ->
  (IZR n / 2 ^ k <= x)%R -> (IZR n / 2 ^ k <= rnd x)%R.
Proof using rnd_mono rnd_dyadic.
  intros Hn Hk Hx. rewrite <- (rnd_dyadic n k Hn Hk). now apply rnd_mono.
Qed.

Lemma rnd_nonneg (x : R) : (0 <= x)%R -> (0 <= rnd x)%R.
Proof using rnd_mono rnd_dyadic.
  intros H. rewrite <- rnd_0. now apply rnd_mono.
Qed.

Lemma Rabs_le_bounds (a b : R) : (Rabs a <= b)%R -> (- b <= a <= b)%R.
Proof. unfold Rabs. destruct (Rcase_abs a); lra. Qed.

Lemma Math_round_IZR (n : Z) : Math_round (IZR n) = n.
Proof.
  unfold Math_round. apply Zfloor_eq. lra.
Qed.

Lemma Math_round_mono (x y : R) : (x <= y)%R -> Math_round x <= Math_round y.
Proof. intros H. unfold Math_round. apply Zfloor_le. lra. Qed.

Lemma Math_round_between (x : R) (lo hi : Z) :
  (IZR lo - / 2 <= x)%R -> (x < IZR hi + / 2)%R -> lo <= Math_round x <= hi.
Proof.
  intros Hlo Hhi. unfold Math_round. split.
  - apply Zfloor_lub. lra.
  - destruct (Zfloor_bound (x + / 2)) as [Hb _].
    assert (Hlt : (IZR (Zfloor (x + / 2)) < IZR (hi + 1))%R).
    { rewrite plus_IZR. lra. }
    apply lt_IZR in Hlt. lia.
Qed.

Lemma ToUint8Clamp_byte (v : Z) : is_byte v -> ToUint8Clamp v = v.
Proof. unfold is_byte, ToUint8Clamp. lia. Qed.

Lemma ToUint8Clamp_is_byte (v : Z) : is_byte (ToUint8Clamp v).
Proof. unfold is_byte, ToUint8Clamp. lia. Qed.

(** ** Grayscale conversion *)

(** The weighted sum of [luma] lies between two dyadic bounds of the exact
    sum: the three weights add up to 1. *)
Lemma luma_sum_bounds (r g b : Z) :
  is_byte r -> is_byte g -> is_byte b ->
  (IZR (217 * r + 732 * g + 73 * b) / 2 ^ 10
   <= lit 0.2126 ⊗ IZR r ⊕ lit 0.7152 ⊗ IZR g ⊕ lit 0.0722 ⊗ IZR b
   <= IZR (218 * r + 733 * g + 74 * b) / 2 ^ 10)%R.
Proof using rnd_mono rnd_dyadic.
  unfold is_byte. intros Hr Hg Hb.
  assert (Hr' : (0 <= IZR r <= 255)%R) by (split; apply IZR_le; lia).
  assert (Hg' : (0 <= IZR g <= 255)%R) by (split; apply IZR_le; lia).
  assert (Hb' : (0 <= IZR b <= 255)%R) by (split; apply IZR_le; lia).
  assert (H1 : (IZR 217 / 2 ^ 10 <= lit 0.2126 <= IZR 218 / 2 ^ 10)%R).
  { unfold lit. split; [apply rnd_ge_dyadic | apply rnd_le_dyadic]; try lia; lra. }
  assert (H2 : (IZR 732 / 2 ^ 10 <= lit 0.7152 <= IZR 733 / 2 ^ 10)%R).
  { unfold lit. split; [apply rnd_ge_dyadic | apply rnd_le_dyadic]; try lia; lra. }
  assert (H3 : (IZR 73 / 2 ^ 10 <= lit 0.0722 <= IZR 74 / 2 ^ 10)%R).
  { unfold lit. split; [apply rnd_ge_dyadic | apply rnd_le_dyadic]; try lia; lra. }
  assert (T1 : (IZR (217 * r) / 2 ^ 10 <= lit 0.2126 ⊗ IZR r
                <= IZR (218 * r) / 2 ^ 10)%R).
  { unfold fmul. split; [apply rnd_ge_dyadic | apply rnd_le_dyadic]; try lia;
      rewrite mult_IZR; nra. }
  assert (T2 : (IZR (732 * g) / 2 ^ 10 <= lit 0.7152 ⊗ IZR g
                <= IZR (733 * g) / 2 ^ 10)%R).
  { unfold fmul. split; [apply rnd_ge_dyadic | apply rnd_le_dyadic]; try lia;
      rewrite mult_IZR; nra. }
  assert (T3 : (IZR (73 * b) / 2 ^ 10 <= lit 0.0722 ⊗ IZR b
                <= IZR (74 * b) / 2 ^ 10)%R).
  { unfold fmul. split; [apply rnd_ge_dyadic | apply rnd_le_dyadic]; try lia;
      rewrite mult_IZR; nra. }
  assert (T12 : (IZR (217 * r + 732 * g) / 2 ^ 10
                 <= lit 0.2126 ⊗ IZR r ⊕ lit 0.7152 ⊗ IZR g
                 <= IZR (218 * r + 733 * g) / 2 ^ 10)%R).
  { unfold fadd. split; [apply rnd_ge_dyadic | apply rnd_le_dyadic]; try lia;
      rewrite plus_IZR; lra. }
  unfold fadd at 1 3.
  split; [apply rnd_ge_dyadic | apply rnd_le_dyadic]; try lia;
    rewrite plus_IZR; lra.
Qed.

Lemma luma_is_byte (r g b : Z) :
  is_byte r -> is_byte g -> is_byte b -> is_byte (luma r g b).
Proof using rnd_mono rnd_dyadic.
  intros Hr Hg Hb. destruct (luma_sum_bounds r g b Hr Hg Hb) as [Hlo Hhi].
  unfold is_byte in *. unfold luma. apply Math_round_between.
  - assert (H : (0 <= IZR (217 * r + 732 * g + 73 * b))%R) by (apply IZR_le; lia).
    assert (H' : (0 <= IZR (217 * r + 732 * g + 73 * b) / 2 ^ 10)%R).
    { lra. }
    lra.
  - assert (H : (IZR (218 * r + 733 * g + 74 * b) <= 261375)%R)
      by (apply IZR_le; lia).
    lra.
Qed.

(** Induction over a buffer pixel by pixel; the first four cases are the
    buffers shorter than a pixel. *)
Lemma pixels_ind (P : list Z -> Prop) :
  P [] -> (forall r, P [r]) -> (forall r g, P [r; g]) ->
  (forall r g b, P [r; g; b]) ->
  (forall r g b a rest, P rest -> P (r :: g :: b :: a :: rest)) ->
  forall data, P data.
Proof.
  intros H0 H1 H2 H3 H4.
  fix IH 1. intros [|r [|g [|b [|a rest]]]];
    [apply H0 | apply H1 | apply H2 | apply H3 | apply H4, IH].
Qed.

(** C8: for every buffer of bytes, every pixel of [toGrayscale] has
    R = G = B = round(0.2126 R_in + 0.7152 G_in + 0.0722 B_in) and the
    alpha of the input pixel. *)
Theorem toGrayscale_pixels (data : list Z) :
  Forall is_byte data ->
  length (toGrayscale data) = length data /\
  forall (i : nat) (r g b a : Z),
    data !! (4 * i)%nat = Some r -> data !! (4 * i + 1)%nat = Some g ->
    data !! (4 * i + 2)%nat = Some b -> data !! (4 * i + 3)%nat = Some a ->
    let y := Math_round (lit 0.2126 ⊗ IZR r ⊕ lit 0.7152 ⊗ IZR g
                         ⊕ lit 0.0722 ⊗ IZR b) in
    toGrayscale data !! (4 * i)%nat = Some y /\
    toGrayscale data !! (4 * i + 1)%nat = Some y /\
    toGrayscale data !! (4 * i + 2)%nat = Some y /\
    toGrayscale data !! (4 * i + 3)%nat = Some a.
Proof using rnd_mono rnd_dyadic.
  induction data as [|r0|r0 g0|r0 g0 b0|r0 g0 b0 a0 rest IH] using pixels_ind;
    intros Hbytes.
  - split; [reflexivity | intros i r g b a H; destruct i; discriminate].
  - split; [reflexivity | intros i r g b a _ H].
    replace (4 * i + 1)%nat with (Datatypes.S (4 * i)) in H by lia. discriminate.
  - split; [reflexivity | intros i r g b a _ _ H].
    replace (4 * i + 2)%nat with (Datatypes.S (Datatypes.S (4 * i))) in H by lia.
    discriminate.
  - split; [reflexivity | intros i r g b a _ _ _ H].
    replace (4 * i + 3)%nat
      with (Datatypes.S (Datatypes.S (Datatypes.S (4 * i)))) in H by lia.
    discriminate.
  - apply Forall_cons in Hbytes as [Hr Hbytes].
    apply Forall_cons in Hbytes as [Hg Hbytes].
    apply Forall_cons in Hbytes as [Hb Hbytes].
    apply Forall_cons in Hbytes as [Ha Hbytes].
    destruct (IH Hbytes) as [IHlen IHpx].
    split; [simpl; now rewrite IHlen|].
    intros i r g b a.
    destruct i as [|i].
    + simpl. intros [= <-] [= <-] [= <-] [= <-].
      fold (luma r0 g0 b0).
      rewrite (ToUint8Clamp_byte (luma r0 g0 b0)) by now apply luma_is_byte.
      rewrite (ToUint8Clamp_byte a0) by assumption. auto.
    + replace (4 * Datatypes.S i)%nat
        with (Datatypes.S (Datatypes.S (Datatypes.S (Datatypes.S (4 * i))))) by lia.
      cbn [toGrayscale]. simpl lookup. apply IHpx.
Qed.

(** ** Intensity normalization *)

Lemma scanMinMax_fold (data : list Z) (mn mx : Z) :
  scanMinMax data mn mx
  = (fold_left Z.min (lumas data) mn, fold_left Z.max (lumas data) mx).
Proof.
  revert mn mx.
  induction data as [|r0|r0 g0|r0 g0 b0|r0 g0 b0 a0 rest IH] using pixels_ind;
    intros mn mx; cbn [scanMinMax lumas fold_left]; try rewrite IH;
    f_equal; try f_equal;
    try (destruct (r0 <? mn) eqn:E; lia);
    try (destruct (r0 >? mx) eqn:E; lia).
Qed.

Lemma fold_min_le (l : list Z) (m : Z) :
  fold_left Z.min l m <= m /\ forall v, v ∈ l -> fold_left Z.min l m <= v.
Proof.
  revert m. induction l as [|x l IH]; intros m; simpl.
  - split; [lia | intros v Hv; inversion Hv].
  - destruct (IH (Z.min m x)) as [H1 H2]. split; [lia|].
    intros v Hv. apply elem_of_cons in Hv as [->|Hv]; [lia | auto].
Qed.

Lemma fold_max_ge (l : list Z) (m : Z) :
  m <= fold_left Z.max l m /\ forall v, v ∈ l -> v <= fold_left Z.max l m.
Proof.
  revert m. induction l as [|x l IH]; intros m; simpl.
  - split; [lia | intros v Hv; inversion Hv].
  - destruct (IH (Z.max m x)) as [H1 H2]. split; [lia|].
    intros v Hv. apply elem_of_cons in Hv as [->|Hv]; [lia | auto].
Qed.

Lemma fold_min_elem (l : list Z) (m : Z) :
  fold_left Z.min l m = m \/ fold_left Z.min l m ∈ l.
Proof.
  revert m. induction l as [|x l IH]; intros m; simpl; [now left|].
  destruct (IH (Z.min m x)) as [H|H].
  - rewrite H. destruct (Z.min_spec m x) as [[_ ->]|[_ ->]];
      [now left | right; apply list_elem_of_here].
  - right. now apply list_elem_of_further.
Qed.

Lemma fold_max_elem (l : list Z) (m : Z) :
  fold_left Z.max l m = m \/ fold_left Z.max l m ∈ l.
Proof.
  revert m. induction l as [|x l IH]; intros m; simpl; [now left|].
  destruct (IH (Z.max m x)) as [H|H].
  - rewrite H. destruct (Z.max_spec m x) as [[_ ->]|[_ ->]];
      [right; apply list_elem_of_here | now left].
  - right. now apply list_elem_of_further.
Qed.

Lemma lumas_bytes (data : list Z) :
  Forall is_byte data -> Forall is_byte (lumas data).
Proof.
  induction data as [|r0|r0 g0|r0 g0 b0|r0 g0 b0 a0 rest IH] using pixels_ind;
    intros H; cbn [lumas]; auto.
  - apply Forall_cons in H as [H _]. constructor; [exact H | constructor].
  - apply Forall_cons in H as [H _]. constructor; [exact H | constructor].
  - apply Forall_cons in H as [Hr H].
    apply Forall_cons in H as [_ H]. apply Forall_cons in H as [_ H].
    apply Forall_cons in H as [_ H]. constructor; auto.
Qed.

(** On a non-empty buffer of bytes the scan starting from [(255, 0)] finds
    the least and the greatest luma. *)
Lemma scanMinMax_spec (data : list Z) (mn mx : Z) :
  Forall is_byte data -> lumas data <> [] ->
  scanMinMax data 255 0 = (mn, mx) ->
  mn ∈ lumas data /\ mx ∈ lumas data /\
  forall v, v ∈ lumas data -> mn <= v <= mx.
Proof.
  intros Hb Hne. rewrite scanMinMax_fold. intros [= <- <-].
  apply lumas_bytes in Hb. rewrite Forall_forall in Hb.
  destruct (fold_min_le (lumas data) 255) as [_ Hmin].
  destruct (fold_max_ge (lumas data) 0) as [_ Hmax].
  assert (Hex : exists v, v ∈ lumas data).
  { destruct (lumas data) as [|v l]; [congruence|].
    exists v. apply list_elem_of_here. }
  destruct Hex as [v0 Hv0].
  repeat split; auto.
  - destruct (fold_min_elem (lumas data) 255) as [H|H]; auto.
    assert (v0 = 255).
    { specialize (Hmin v0 Hv0). specialize (Hb v0 Hv0).
      unfold is_byte in Hb. lia. }
    subst v0. now rewrite H.
  - destruct (fold_max_elem (lumas data) 0) as [H|H]; auto.
    assert (v0 = 0).
    { specialize (Hmax v0 Hv0). specialize (Hb v0 Hv0).
      unfold is_byte in Hb. lia. }
    subst v0. now rewrite H.
Qed.

Lemma stretch_length (mn range : Z) (data : list Z) :
  length (stretch mn range data) = length data.
Proof.
  induction data as [|r0|r0 g0|r0 g0 b0|r0 g0 b0 a0 rest IH] using pixels_ind;
    simpl; auto.
Qed.

Lemma stretch_lumas (mn range : Z) (data : list Z) :
  lumas (stretch mn range data)
  = map (fun y => ToUint8Clamp (normalizePixel mn range y)) (lumas data).
Proof.
  induction data as [|r0|r0 g0|r0 g0 b0|r0 g0 b0 a0 rest IH] using pixels_ind;
    cbn [stretch lumas map]; try reflexivity.
  now rewrite IH.
Qed.

Lemma stretch_alphas (mn range : Z) (data : list Z) :
  Forall is_byte data -> alphas (stretch mn range data) = alphas data.
Proof.
  induction data as [|r0|r0 g0|r0 g0 b0|r0 g0 b0 a0 rest IH] using pixels_ind;
    intros H; cbn [stretch alphas map]; try reflexivity.
  apply Forall_cons in H as [_ H]. apply Forall_cons in H as [_ H].
  apply Forall_cons in H as [_ H]. apply Forall_cons in H as [Ha H].
  rewrite IH by assumption. now rewrite ToUint8Clamp_byte.
Qed.

Lemma normalizePixel_min (mn range : Z) : normalizePixel mn range mn = 0.
Proof using rnd_dyadic.
  unfold normalizePixel, fdiv, fmul.
  rewrite Z.sub_diag. unfold Rdiv. rewrite Rmult_0_l, rnd_0, Rmult_0_l, rnd_0.
  apply (Math_round_IZR 0).
Qed.

Lemma normalizePixel_max (mn mx : Z) :
  mn < mx -> normalizePixel mn (mx - mn) mx = 255.
Proof using rnd_dyadic.
  intros H. unfold normalizePixel, fdiv, fmul.
  assert (Hne : IZR (mx - mn) <> 0%R).
  { apply not_0_IZR. lia. }
  unfold Rdiv. rewrite Rinv_r, rnd_1, Rmult_1_l by assumption.
  rewrite (rnd_IZR 255) by lia. apply (Math_round_IZR 255).
Qed.

(** C2: after [normalizeIntensity] of a buffer of bytes the least output
    luma is 0 and the greatest is 255, except when all input pixels share
    one luma, in which case every output luma is 0; the alpha of every
    pixel is the input's. *)
Theorem normalizeIntensity_range (data : list Z) :
  Forall is_byte data ->
  let out := normalizeIntensity data in
  length out = length data /\
  alphas out = alphas data /\
  ((forall v w, v ∈ lumas data -> w ∈ lumas data -> v = w) ->
   forall n, n ∈ lumas out -> n = 0) /\
  ((exists v w, v ∈ lumas data /\ w ∈ lumas data /\ v <> w) ->
   0 ∈ lumas out /\ 255 ∈ lumas out /\
   forall n, n ∈ lumas out -> 0 <= n <= 255).
Proof using rnd_dyadic.
  intros Hb out. subst out. unfold normalizeIntensity.
  destruct (scanMinMax data 255 0) as [mn mx] eqn:Hscan.
  split; [apply stretch_length|].
  split; [now apply stretch_alphas|].
  rewrite stretch_lumas.
  split.
  - intros Hconst n Hn.
    apply elem_of_map in Hn as (y & -> & Hy).
    assert (Hne : lumas data <> []) by (intros E; rewrite E in Hy; inversion Hy).
    destruct (scanMinMax_spec data mn mx Hb Hne Hscan) as (Hmn & _ & _).
    rewrite (Hconst y mn Hy Hmn), normalizePixel_min. reflexivity.
  - intros (v & w & Hv & Hw & Hvw).
    assert (Hne : lumas data <> []) by (intros E; rewrite E in Hv; inversion Hv).
    destruct (scanMinMax_spec data mn mx Hb Hne Hscan) as (Hmn & Hmx & Hall).
    assert (Hlt : mn < mx).
    { specialize (Hall v Hv) as Hv'. specialize (Hall w Hw) as Hw'. lia. }
    replace (Z.max 1 (mx - mn)) with (mx - mn) by lia.
    split; [|split].
    + apply elem_of_map. exists mn. split; [|assumption].
      now rewrite normalizePixel_min.
    + apply elem_of_map. exists mx. split; [|assumption].
      now rewrite normalizePixel_max.
    + intros n Hn. apply elem_of_map in Hn as (y & -> & _).
      apply ToUint8Clamp_is_byte.
Qed.

(** ** Histogram *)

Lemma get_lookup {A : Type} (d : A) (a : list A) (i : Z) :
  0 <= i < Z.of_nat (length a) -> a !! Z.to_nat i = Some (get d a i).
Proof.
  intros H. unfold get. destruct (i <? 0) eqn:E; [lia|].
  destruct (nth_lookup_or_length a (Z.to_nat i) d) as [Hn|Hn]; [exact Hn | lia].
Qed.

Lemma sumZ_insert (a : list Z) (i : nat) (x y : Z) :
  a !! i = Some x -> sumZ (<[i := y]> a) = sumZ a - x + y.
Proof.
  revert i. induction a as [|z a IH]; intros i H; [discriminate|].
  destruct i as [|i]; simpl in *.
  - injection H as ->. lia.
  - rewrite (IH i H). lia.
Qed.

Lemma sumZ_replicate_0 (n : nat) : sumZ (replicate n 0) = 0.
Proof. induction n; simpl; auto. Qed.

Lemma count_step (hist : list Z) (v : Z) :
  bins_ok hist -> is_byte v ->
  bins_ok (set hist v (get 0 hist v + 1)) /\
  sumZ (set hist v (get 0 hist v + 1)) = sumZ hist + 1.
Proof.
  intros [Hlen Hpos] Hv. unfold is_byte in Hv.
  assert (Hl : hist !! Z.to_nat v = Some (get 0 hist v)) by (apply get_lookup; lia).
  assert (Hg : 0 <= get 0 hist v).
  { rewrite Forall_forall in Hpos. apply Hpos.
    eapply list_elem_of_lookup_2. exact Hl. }
  unfold set. destruct (v <? 0) eqn:E; [lia|].
  split; [split|].
  - now rewrite length_insert.
  - apply Forall_insert; [assumption | lia].
  - rewrite (sumZ_insert _ _ _ _ Hl). lia.
Qed.

Lemma histCounts_spec (data hist : list Z) (count : Z) :
  Forall is_byte data -> bins_ok hist ->
  bins_ok (fst (histCounts data hist count)) /\
  sumZ (fst (histCounts data hist count))
  = sumZ hist + Z.of_nat (length (lumas data)) /\
  snd (histCounts data hist count) = count + Z.of_nat (length (lumas data)).
Proof.
  revert hist count.
  induction data as [|r0|r0 g0|r0 g0 b0|r0 g0 b0 a0 rest IH] using pixels_ind;
    intros hist count Hb Hok; cbn [histCounts lumas length fst snd].
  - repeat split; try apply Hok; lia.
  - apply Forall_cons in Hb as [Hr _].
    destruct (count_step hist r0 Hok Hr) as [Hok' Hsum].
    repeat split; try apply Hok'; lia.
  - apply Forall_cons in Hb as [Hr _].
    destruct (count_step hist r0 Hok Hr) as [Hok' Hsum].
    repeat split; try apply Hok'; lia.
  - apply Forall_cons in Hb as [Hr _].
    destruct (count_step hist r0 Hok Hr) as [Hok' Hsum].
    repeat split; try apply Hok'; lia.
  - apply Forall_cons in Hb as [Hr Hb].
    apply Forall_cons in Hb as [_ Hb]. apply Forall_cons in Hb as [_ Hb].
    apply Forall_cons in Hb as [_ Hb].
    destruct (count_step hist r0 Hok Hr) as [Hok' Hsum].
    destruct (IH (set hist r0 (get 0 hist r0 + 1)) (count + 1) Hb Hok')
      as (H1 & H2 & H3).
    repeat split; try apply H1; lia.
Qed.

Lemma lumas_length_le (data : list Z) :
  (length (lumas data) <= length data)%nat.
Proof.
  induction data as [|r0|r0 g0|r0 g0 b0|r0 g0 b0 a0 rest IH] using pixels_ind;
    simpl; lia.
Qed.

Lemma lumas_nonempty (data : list Z) : data <> [] -> lumas data <> [].
Proof.
  destruct data as [|r0 [|g0 [|b0 [|a0 rest]]]]; simpl; congruence.
Qed.

Lemma sumZ_bound (l : list Z) :
  Forall (fun c => 0 <= c) l -> Forall (fun c => 0 <= c <= sumZ l) l.
Proof.
  induction l as [|c l IH]; intros H; [constructor|].
  apply Forall_cons in H as [Hc H]. specialize (IH H).
  assert (Hs : 0 <= sumZ l).
  { clear IH. induction l as [|d l IHl]; simpl; [lia|].
    apply Forall_cons in H as [Hd H]. specialize (IHl H). lia. }
  constructor; simpl; [lia|].
  eapply Forall_impl; [exact IH|]. simpl. intros; lia.
Qed.

(** The rounded quotients of the bin counts by their total add up to 1
    within 2^-53. *)
Lemma rounded_fractions (n : Z) (l : list Z) :
  0 < n <= 2 ^ 53 -> Forall (fun c => 0 <= c <= n) l ->
  (Rabs (sumR (map (fun c => IZR c ⊘ IZR n) l) - IZR (sumZ l) / IZR n)
   <= IZR (sumZ l) / IZR n / 2 ^ 53)%R /\
  (0 <= IZR (sumZ l) / IZR n)%R.
Proof using rnd_dyadic rnd_error.
  intros Hn. assert (Hn' : (0 < IZR n)%R) by (apply IZR_lt; lia).
  assert (Hn2 : (IZR n <= 2 ^ 53)%R).
  { replace (2 ^ 53)%R with (IZR (2 ^ 53)) by (simpl; lra). apply IZR_le. lia. }
  induction l as [|c l IH]; intros H.
  - simpl. unfold Rdiv. rewrite Rmult_0_l, Rminus_0_r, Rabs_R0, Rmult_0_l. lra.
  - apply Forall_cons in H as [Hc H]. destruct (IH H) as [IH1 IH2]. clear IH.
    cbn [map sumR sumZ fold_right].
    fold (sumR (map (fun c => IZR c ⊘ IZR n) l)). fold (sumZ l).
    rewrite plus_IZR.
    set (S := sumR (map (fun c => IZR c ⊘ IZR n) l)) in *.
    set (T := (IZR (sumZ l) / IZR n)%R) in *.
    assert (Hx : (Rabs (IZR c ⊘ IZR n - IZR c / IZR n)
                  <= IZR c / IZR n / 2 ^ 53)%R /\ (0 <= IZR c / IZR n)%R).
    { unfold fdiv. destruct (Z.eq_dec c 0) as [->|Hc0].
      - unfold Rdiv. rewrite Rmult_0_l, rnd_0, Rminus_0_r, Rabs_R0, Rmult_0_l. lra.
      - assert (H1 : (1 <= IZR c)%R) by (apply IZR_le; lia).
        assert (H2 : (IZR c <= IZR n)%R) by (apply IZR_le; lia).
        assert (H3 : (/ 2 ^ 53 <= / IZR n)%R).
        { apply Rinv_le_contravar; lra. }
        assert (H4 : (0 < / IZR n)%R) by (apply Rinv_0_lt_compat; lra).
        assert (H5 : (IZR c / IZR n <= 1)%R).
        { unfold Rdiv. rewrite <- (Rinv_r (IZR n)) by lra.
          apply Rmult_le_compat_r; lra. }
        assert (H6 : (/ IZR n <= IZR c / IZR n)%R).
        { unfold Rdiv. rewrite <- (Rmult_1_l (/ IZR n)) at 1.
          apply Rmult_le_compat_r; lra. }
        split; [apply rnd_error; lra | lra]. }
    destruct Hx as [Hx1 Hx2].
    replace ((IZR c + IZR (sumZ l)) / IZR n)%R with (IZR c / IZR n + T)%R
      by (unfold T; field; lra).
    split; [|lra].
    replace (IZR c ⊘ IZR n + S - (IZR c / IZR n + T))%R
      with ((IZR c ⊘ IZR n - IZR c / IZR n) + (S - T))%R by ring.
    eapply Rle_trans; [apply Rabs_triang|]. lra.
Qed.

Lemma histogram_entry_nonneg (n c : Z) : 0 <= n -> 0 <= c -> (0 <= IZR c ⊘ IZR n)%R.
Proof using rnd_mono rnd_dyadic.
  intros Hn Hc. unfold fdiv. apply rnd_nonneg.
  destruct (Z.eq_dec n 0) as [->|Hn0].
  - unfold Rdiv. rewrite Rinv_0. lra.
  - apply Rle_mult_inv_pos; [apply IZR_le; lia | apply IZR_lt; lia].
Qed.

Lemma histogram_entry_le_1 (n c : Z) : 0 < n -> 0 <= c <= n -> (IZR c ⊘ IZR n <= 1)%R.
Proof using rnd_mono rnd_dyadic.
  intros Hn Hc. unfold fdiv. rewrite <- rnd_1. apply rnd_mono.
  assert (H1 : (0 < IZR n)%R) by (apply IZR_lt; lia).
  assert (H2 : (IZR c <= IZR n)%R) by (apply IZR_le; lia).
  unfold Rdiv. rewrite <- (Rinv_r (IZR n)) by lra.
  apply Rmult_le_compat_r; [|assumption].
  left. now apply Rinv_0_lt_compat.
Qed.

Lemma sumR_nonneg (l : list R) :
  Forall (fun p => (0 <= p)%R) l -> (0 <= sumR l)%R.
Proof.
  induction l as [|p l IH]; intros H; simpl; [lra|].
  apply Forall_cons in H as [Hp H]. specialize (IH H). fold (sumR l). lra.
Qed.

(** Adding up at most 256 fractions, each 0 or at least 2^-53, in doubles:
    every addition errs by at most 2 * 2^-53. *)
Lemma fold_fadd_error (l : list R) (s T : R) (k : nat) :
  Forall (fun p => p = 0%R \/ (/ 2 ^ 53 <= p <= 1)%R) l ->
  (k + length l <= 256)%nat ->
  s = 0%R \/ (/ 2 ^ 53 <= s)%R -> (0 <= T)%R ->
  (T + sumR l <= 1 + / 2 ^ 53)%R ->
  (Rabs (s - T) <= INR k * (2 / 2 ^ 53))%R ->
  (Rabs (fold_left (fun s p => s ⊕ p) l s - (T + sumR l))
   <= INR (k + length l) * (2 / 2 ^ 53))%R.
Proof using rnd_mono rnd_dyadic rnd_error.
  revert s T k. induction l as [|p l IH]; intros s T k Hgood Hk Hs HT Hsum Herr.
  - cbn [fold_left sumR fold_right length]. rewrite Nat.add_0_r, Rplus_0_r.
    exact Herr.
  - apply Forall_cons in Hgood as [Hp Hgood].
    cbn [sumR fold_right length] in *. fold (sumR l) in *.
    assert (Hnn : (0 <= sumR l)%R).
    { apply sumR_nonneg. eapply Forall_impl; [exact Hgood|].
      simpl. intros q [-> | Hq]; lra. }
    assert (Hkb : (INR k <= 256)%R).
    { replace 256%R with (INR 256) by (simpl; lra). apply le_INR. lia. }
    assert (HSk : INR (Datatypes.S k) = (INR k + 1)%R) by apply S_INR.
    apply Rabs_le_bounds in Herr.
    rewrite fold_left_cons.
    replace (T + (p + sumR l))%R with ((T + p) + sumR l)%R by ring.
    replace (k + Datatypes.S (length l))%nat
      with (Datatypes.S k + length l)%nat by lia.
    assert (Hstep : (fadd s p = 0%R \/ (/ 2 ^ 53 <= fadd s p)%R) /\
                    (Rabs (fadd s p - (T + p)) <= INR (Datatypes.S k) * (2 / 2 ^ 53))%R).
    { unfold fadd.
      assert (Hzero : (s = 0%R /\ p = 0%R) \/ (/ 2 ^ 53 <= s + p)%R).
      { destruct Hs as [-> | Hs]; destruct Hp as [-> | Hp]; [now left | right; lra ..]. }
      destruct Hzero as [[-> ->] | Hx].
      - rewrite Rplus_0_l, rnd_0, Rplus_0_r. split; [now left|].
        apply Rabs_le. rewrite HSk. lra.
      - assert (Hx2 : (s + p <= 2)%R).
        { assert (Hp1 : (p <= 1 + / 2 ^ 53 - T)%R) by lra. lra. }
        assert (Hr : (Rabs (rnd (s + p) - (s + p)) <= (s + p) / 2 ^ 53)%R)
          by (apply rnd_error; lra).
        apply Rabs_le_bounds in Hr. split.
        + right.
          assert (Hge : (1 / 2 ^ 53 <= rnd (s + p))%R)
            by (apply (rnd_ge_dyadic (s + p) 1 53); [lia | lia | lra]).
          lra.
        + apply Rabs_le. rewrite HSk. lra. }
    destruct Hstep as [Hs1 Herr1].
    apply IH; try assumption; try lia.
    + destruct Hp as [-> | Hp]; lra.
    + lra.
Qed.

Lemma histogram_entry_good (n c : Z) :
  0 < n <= 2 ^ 53 -> 0 <= c <= n ->
  IZR c ⊘ IZR n = 0%R \/ (/ 2 ^ 53 <= IZR c ⊘ IZR n <= 1)%R.
Proof using rnd_mono rnd_dyadic.
  intros Hn Hc. destruct (Z.eq_dec c 0) as [->|Hc0].
  - left. unfold fdiv, Rdiv. now rewrite Rmult_0_l, rnd_0.
  - right. split; [|apply histogram_entry_le_1; lia].
    unfold fdiv.
    assert (H1 : (1 <= IZR c)%R) by (apply IZR_le; lia).
    assert (H2 : (0 < IZR n)%R) by (apply IZR_lt; lia).
    assert (H3 : (IZR n <= 2 ^ 53)%R).
    { replace (2 ^ 53)%R with (IZR (2 ^ 53)) by (simpl; lra). apply IZR_le. lia. }
    assert (H4 : (/ 2 ^ 53 <= / IZR n)%R) by (apply Rinv_le_contravar; lra).
    assert (H5 : (0 < / IZR n)%R) by (apply Rinv_0_lt_compat; lra).
    assert (H6 : (/ IZR n <= IZR c / IZR n)%R).
    { unfold Rdiv. rewrite <- (Rmult_1_l (/ IZR n)) at 1.
      apply Rmult_le_compat_r; lra. }
    assert (Hge : (1 / 2 ^ 53 <= rnd (IZR c / IZR n))%R)
      by (apply (rnd_ge_dyadic (IZR c / IZR n) 1 53); [lia | lia | lra]).
    lra.
Qed.

(** C6: for every non-empty buffer the 256 entries of [computeHistogram]
    sum to 1 within 1e-9, as real numbers and also when a program adds
    them up in doubles, and none is negative. *)
Theorem computeHistogram_sum (data : list Z) :
  Forall is_byte data -> data <> [] -> Z.of_nat (length data) <= 2 ^ 53 ->
  let hist := computeHistogram data in
  length hist = 256%nat /\
  (Rabs (sumR hist - 1) <= 1e-9)%R /\
  (Rabs (fsum hist - 1) <= 1e-9)%R /\
  Forall (fun p => (0 <= p)%R) hist.
Proof using rnd_mono rnd_dyadic rnd_error.
  intros Hb Hne Hlen hist. subst hist. unfold computeHistogram.
  assert (Hok0 : bins_ok (replicate 256 0)).
  { split; [apply length_replicate | apply Forall_replicate; lia]. }
  destruct (histCounts_spec data (replicate 256 0) 0 Hb Hok0)
    as ([Hlen' Hpos] & Hsum & Hcount).
  destruct (histCounts data (replicate 256 0) 0) as [hist count].
  cbn [fst snd] in *. rewrite sumZ_replicate_0 in Hsum.
  assert (Hn : 0 < count <= 2 ^ 53).
  { generalize (lumas_length_le data) (lumas_nonempty data Hne).
    destruct (lumas data); [congruence|]. simpl length in *. lia. }
  assert (Hsc : sumZ hist = count) by lia.
  assert (Hall : Forall (fun c => 0 <= c <= count) hist).
  { rewrite <- Hsc. now apply sumZ_bound. }
  assert (Hreal : (Rabs (sumR (map (fun c => IZR c ⊘ IZR count) hist) - 1)
                   <= / 2 ^ 53)%R).
  { destruct (rounded_fractions count hist Hn Hall) as [Herr _].
    rewrite Hsc in Herr.
    assert (H1 : (IZR count / IZR count = 1)%R).
    { unfold Rdiv. apply Rinv_r. apply not_0_IZR. lia. }
    rewrite H1 in Herr. lra. }
  split; [now rewrite length_map|].
  split; [lra|].
  split.
  - unfold fsum.
    assert (Hgood : Forall (fun p => p = 0%R \/ (/ 2 ^ 53 <= p <= 1)%R)
                      (map (fun c => IZR c ⊘ IZR count) hist)).
    { apply Forall_forall. intros p Hp.
      apply elem_of_map in Hp as (c & -> & Hc).
      rewrite Forall_forall in Hall. now apply histogram_entry_good; auto. }
    apply Rabs_le_bounds in Hreal.
    generalize (fold_fadd_error (map (fun c => IZR c ⊘ IZR count) hist) 0 0 0
                  Hgood).
    rewrite length_map, Hlen', !Rplus_0_l, Rminus_diag, Rabs_R0.
    intros Hacc.
    assert (Hacc' := Hacc ltac:(simpl; lia) (or_introl eq_refl) (Rle_refl 0)
                       ltac:(lra) ltac:(simpl; lra)).
    apply Rabs_le_bounds in Hacc'.
    replace (INR (0 + 256)) with 256%R in Hacc' by (simpl; lra).
    apply Rabs_le. lra.
  - apply Forall_forall. intros p Hp.
    apply elem_of_map in Hp as (c & -> & Hc).
    rewrite Forall_forall in Hpos.
    apply histogram_entry_nonneg; [lia | auto].
Qed.

(** ** Percentiles *)

Lemma sort_insert_perm (x : R) (arr : list R) :
  Permutation (x :: arr) (sort_insert x arr).
Proof.
  induction arr as [|y arr IH]; simpl; [reflexivity|].
  destruct (Rle_dec x y); [reflexivity|].
  rewrite perm_swap. now apply perm_skip.
Qed.

Lemma sort_ascending_perm (values : list R) :
  Permutation values (sort_ascending values).
Proof.
  induction values as [|x values IH]; simpl; [reflexivity|].
  rewrite <- sort_insert_perm. now apply perm_skip.
Qed.

Lemma sort_insert_sorted (x : R) (arr : list R) :
  StronglySorted Rle arr -> StronglySorted Rle (sort_insert x arr).
Proof.
  induction arr as [|y arr IH]; intros H; simpl.
  - repeat constructor.
  - inversion H as [|? ? Hs Hall]; subst.
    destruct (Rle_dec x y) as [Hle|Hgt].
    + constructor; [assumption|]. constructor; [assumption|].
      eapply Forall_impl; [exact Hall|]. simpl. intros z Hz. lra.
    + constructor; [auto|].
      rewrite Forall_forall in Hall. apply Forall_forall. intros z Hz.
      apply list_elem_of_In in Hz.
      apply (Permutation_in _ (Permutation_sym (sort_insert_perm x arr))) in Hz.
      destruct Hz as [<-|Hz]; [lra | apply Hall; now apply list_elem_of_In].
Qed.

Lemma sort_ascending_sorted (values : list R) :
  StronglySorted Rle (sort_ascending values).
Proof.
  induction values as [|x values IH]; simpl; [constructor|].
  now apply sort_insert_sorted.
Qed.

Lemma sort_ascending_length (values : list R) :
  length (sort_ascending values) = length values.
Proof. symmetry. apply Permutation_length, sort_ascending_perm. Qed.

Lemma sorted_nth (arr : list R) (i j : nat) :
  StronglySorted Rle arr -> (i <= j < length arr)%nat ->
  (nth i arr 0 <= nth j arr 0)%R.
Proof.
  intros H. revert i j. induction H as [|x arr Hs IH Hall]; intros i j Hij.
  - simpl in Hij. lia.
  - destruct i as [|i], j as [|j]; simpl in *; try lia.
    + lra.
    + rewrite Forall_forall in Hall. apply Hall.
      apply list_elem_of_In, nth_In. lia.
    + apply IH. lia.
Qed.

Lemma sorted_get (arr : list R) (i j : Z) :
  StronglySorted Rle arr -> 0 <= i <= j -> j < Z.of_nat (length arr) ->
  (get 0 arr i <= get 0 arr j)%R.
Proof.
  intros H Hij Hj. unfold get.
  destruct (i <? 0) eqn:Ei; [lia|]. destruct (j <? 0) eqn:Ej; [lia|].
  apply sorted_nth; [assumption | lia].
Qed.

Lemma percentileIndex_range (len : Z) (p : R) :
  0 < len -> 0 <= percentileIndex len p < len.
Proof. unfold percentileIndex. lia. Qed.

Lemma percentileIndex_mono (len : Z) (p q : R) :
  0 < len -> (p <= q)%R -> percentileIndex len p <= percentileIndex len q.
Proof using rnd_mono.
  intros Hlen Hpq. unfold percentileIndex.
  assert (H : Math_round (p ⊘ 100 ⊗ IZR (len - 1))
              <= Math_round (q ⊘ 100 ⊗ IZR (len - 1))).
  { apply Math_round_mono. unfold fmul, fdiv. apply rnd_mono.
    assert (H0 : (0 <= IZR (len - 1))%R) by (apply IZR_le; lia).
    apply Rmult_le_compat_r; [assumption|].
    apply rnd_mono. lra. }
  lia.
Qed.

Lemma get_at_0 {A : Type} (d x : A) (l : list A) : get d (x :: l) 0 = x.
Proof. reflexivity. Qed.

Lemma get_at_1 {A : Type} (d x y : A) (l : list A) : get d (x :: y :: l) 1 = y.
Proof. reflexivity. Qed.

Lemma get_at_2 {A : Type} (d x y z : A) (l : list A) :
  get d (x :: y :: z :: l) 2 = z.
Proof. reflexivity. Qed.

(** The value at the rank of a lower percentile is not above the value at
    the rank of a higher one. *)
Lemma percentile_value_mono (values : list R) (p q : R) :
  values <> [] -> (p <= q)%R ->
  (get 0 (sort_ascending values)
     (percentileIndex (Z.of_nat (length (sort_ascending values))) p)
   <= get 0 (sort_ascending values)
        (percentileIndex (Z.of_nat (length (sort_ascending values))) q))%R.
Proof using rnd_mono.
  intros Hne Hpq.
  assert (Hlen : 0 < Z.of_nat (length (sort_ascending values))).
  { rewrite sort_ascending_length. destruct values; [congruence | simpl; lia]. }
  apply sorted_get.
  - apply sort_ascending_sorted.
  - split; [apply percentileIndex_range; lia | now apply percentileIndex_mono].
  - apply percentileIndex_range; lia.
Qed.

Lemma percentile_mono (values : list R) (p q : R) :
  values <> [] -> (p <= q)%R ->
  (get 0 (percentiles values [p; q]) 0 <= get 0 (percentiles values [p; q]) 1)%R.
Proof using rnd_mono.
  intros Hne Hpq. unfold percentiles. cbn [map].
  rewrite get_at_0, get_at_1. now apply percentile_value_mono.
Qed.

Lemma computeSobelEdges_length (gray : list Z) (width height : Z) :
  length (computeSobelEdges gray width height) = Z.to_nat (width * height).
Proof.
  unfold computeSobelEdges, computeSobelEdgesWith.
  apply for_loop_inv; [apply length_replicate|]. intros y mag _ Hmag.
  apply for_loop_inv; [exact Hmag|]. intros x mag' _ Hmag'.
  destruct (sobelKernelLoops clamp gray width height x y) as [[gx gy] idx].
  now rewrite length_set.
Qed.

(** C10: the percentile statistics are monotone in the requested
    percentile.  For every non-empty field [percentiles] returns, for a
    lower and a higher percentile, a lower and a higher (or equal) value,
    and so for 50, 90 and 99; the edge field that [analyzeCtVsMri] takes
    of the normalized 256 x 256 buffer has 256 * 256 entries, so its
    features have edgeP50 <= edgeP90 <= edgeP99 for every image. *)
Theorem percentiles_monotone :
  (forall values : list R, values <> [] ->
     (forall p q : R, (p <= q)%R ->
        (get 0 (percentiles values [p; q]) 0
         <= get 0 (percentiles values [p; q]) 1)%R) /\
     exists edgeP50 edgeP90 edgeP99 : R,
       percentiles values [50; 90; 99]%R = [edgeP50; edgeP90; edgeP99] /\
       (edgeP50 <= edgeP90 <= edgeP99)%R) /\
  (forall norm : list Z,
     Z.of_nat (length norm) = 4 * size * size ->
     let fs := extractFeatures norm in
     (field "edgeP50" fs <= field "edgeP90" fs <= field "edgeP99" fs)%R).
Proof using rnd_mono.
  split.
  - intros values Hne. split; [intros p q; now apply percentile_mono|].
    eexists _, _, _. split; [reflexivity|].
    split.
    + apply (percentile_mono values 50 90 Hne). lra.
    + apply (percentile_mono values 90 99 Hne). lra.
  - intros norm _ fs. subst fs.
    assert (Hne : computeSobelEdges norm size size <> []).
    { intros E. generalize (computeSobelEdges_length norm size size).
      rewrite E. discriminate. }
    unfold extractFeatures. cbv zeta.
    cbn [field String.eqb Ascii.eqb Bool.eqb].
    unfold percentiles. cbn [map]. rewrite get_at_0, get_at_1, get_at_2.
    split; apply percentile_value_mono; try assumption; lra.
Qed.

(** ** Loops over the pixel grid *)

Ltac bool_cases :=
  repeat match goal with
         | |- context [(?a <=? ?b)] => destruct (Z.leb_spec a b)
         | |- context [(?a <? ?b)] => destruct (Z.ltb_spec a b)
         end;
  cbn [andb orb].

(** The cells of two pixels of the grid do not overlap. *)
Lemma cell_index (w s x y c xi yi : Z) :
  0 < s -> 0 <= x < w -> 0 <= xi < w -> 0 <= c < s ->
  (yi * w + xi) * s <= (y * w + x) * s + c < (yi * w + xi) * s + s ->
  y = yi /\ x = xi.
Proof.
  intros Hs Hx Hxi Hc H.
  assert (Hpq : y * w + x = yi * w + xi) by nia.
  assert (Hy : y = yi) by nia.
  subst y. lia.
Qed.

(** A pair of nested loops over the rows [ylo <= y < yhi] and the columns
    [xlo <= x < xhi] whose body [write x y] fills the cell of [s] entries
    of the pixel [(x, y)] with [val x y c], [0 <= c < s], and leaves the
    rest of the array alone: afterwards every visited cell holds its
    values and every other cell is as before. *)
Lemma grid_loop_get {A : Type} (d : A) (w h s : Z)
    (write : Z -> Z -> list A -> list A) (val : Z -> Z -> Z -> A)
    (ylo yhi xlo xhi : Z) (a0 : list A) :
  0 < s -> 0 <= xlo -> xhi <= w -> 0 <= ylo -> yhi <= h ->
  (forall x y a, length (write x y a) = length a) ->
  (forall x y a k, xlo <= x < xhi -> ylo <= y < yhi ->
     length a = length a0 -> 0 <= k < w * h * s ->
     get d (write x y a) k
     = if ((y * w + x) * s <=? k) && (k <? (y * w + x) * s + s)
       then val x y (k - (y * w + x) * s) else get d a k) ->
  let a := for_loop ylo yhi (fun y a =>
             for_loop xlo xhi (fun x a => write x y a) a) a0 in
  length a = length a0 /\
  forall x y c, 0 <= x < w -> 0 <= y < h -> 0 <= c < s ->
    get d a ((y * w + x) * s + c)
    = if (ylo <=? y) && (y <? yhi) && (xlo <=? x) && (x <? xhi)
      then val x y c else get d a0 ((y * w + x) * s + c).
Proof.
  intros Hs Hxlo Hxhi Hylo Hyhi Hlen Hget a. subst a.
  destruct (Z_le_gt_dec ylo yhi) as [Hyle|Hygt].
  2:{ rewrite for_loop_nil by lia. split; [reflexivity|].
      intros x y c Hx Hy Hc. bool_cases; try lia; reflexivity. }
  apply (for_loop_ind
    (fun yi a => length a = length a0 /\
       forall x y c, 0 <= x < w -> 0 <= y < h -> 0 <= c < s ->
         get d a ((y * w + x) * s + c)
         = if (ylo <=? y) && (y <? yi) && (xlo <=? x) && (x <? xhi)
           then val x y c else get d a0 ((y * w + x) * s + c))); auto.
  - split; [reflexivity|]. intros x y c Hx Hy Hc. bool_cases; try lia; reflexivity.
  - intros yi ar Hrow [Hlar Har].
    destruct (Z_le_gt_dec xlo xhi) as [Hxle|Hxgt].
    2:{ rewrite for_loop_nil by lia. split; [assumption|].
        intros x y c Hx Hy Hc. rewrite Har by assumption.
        bool_cases; try lia; reflexivity. }
    pose (Inv := fun (xi : Z) (a : list A) => length a = length a0 /\
         forall x y c, 0 <= x < w -> 0 <= y < h -> 0 <= c < s ->
           get d a ((y * w + x) * s + c)
           = if ((ylo <=? y) && (y <? yi) && (xlo <=? x) && (x <? xhi))
                || ((y =? yi) && (xlo <=? x) && (x <? xi))
             then val x y c else get d a0 ((y * w + x) * s + c)).
    assert (Hin : Inv xhi (for_loop xlo xhi (fun x a => write x yi a) ar)).
    { apply (for_loop_ind Inv); unfold Inv; auto.
      + split; [assumption|]. intros x y c Hx Hy Hc. rewrite Har by assumption.
        destruct (Z.eqb_spec y yi); bool_cases; try lia; reflexivity.
      + intros xi a Hxi [Hlxa Hxa]. split; [now rewrite Hlen|].
        intros x y c Hx Hy Hc.
        assert (Hk : 0 <= (y * w + x) * s + c < w * h * s).
        { assert (Hp : 0 <= y * w + x <= w * h - 1) by nia. nia. }
        rewrite Hget by (assumption || lia).
        destruct (((yi * w + xi) * s <=? (y * w + x) * s + c)
                  && ((y * w + x) * s + c <? (yi * w + xi) * s + s)) eqn:E.
        * apply andb_prop in E as [E1 E2].
          apply Z.leb_le in E1. apply Z.ltb_lt in E2.
          destruct (cell_index w s x y c xi yi) as [-> ->]; try lia.
          replace ((yi * w + xi) * s + c - (yi * w + xi) * s) with c by lia.
          rewrite Z.eqb_refl. bool_cases; try lia; try reflexivity.
          all: rewrite ?orb_true_r; reflexivity.
        * rewrite Hxa by assumption.
          assert (Hne : ~ (y = yi /\ x = xi)).
          { intros [-> ->]. apply andb_false_iff in E as [E|E];
              [apply Z.leb_gt in E | apply Z.ltb_ge in E]; lia. }
          destruct (Z.eqb_spec y yi); bool_cases; try lia; try reflexivity. }
    unfold Inv in Hin. destruct Hin as [Hl Hx']. split; [assumption|].
    intros x y c Hx Hy Hc. rewrite Hx' by assumption.
    destruct (Z.eqb_spec y yi); bool_cases; try lia; try reflexivity.
Qed.

(** ** Sobel edges *)

Lemma for_loop_3 {S : Type} (body : Z -> S -> S) (s : S) :
  for_loop (-1) 2 body s = body 1 (body 0 (body (-1) s)).
Proof. reflexivity. Qed.

Ltac kernel_values :=
  repeat match goal with
         | |- context [get 0 gxKernel ?i] =>
             let v := eval vm_compute in (get 0 gxKernel i) in
             change (get 0 gxKernel i) with v
         | |- context [get 0 gyKernel ?i] =>
             let v := eval vm_compute in (get 0 gyKernel i) in
             change (get 0 gyKernel i) with v
         end.

(** The kernel loops compute the two Sobel responses. *)
Lemma sobelKernelLoops_spec (gray : list Z) (width height x y : Z) :
  sobelKernelLoops clamp gray width height x y
  = (sobelGx gray width height x y, sobelGy gray width height x y, 9).
Proof.
  unfold sobelKernelLoops. rewrite !for_loop_3. cbv beta iota zeta.
  unfold sobelGx, sobelGy, sampleClamped. kernel_values.
  change (x + -1) with (x - 1). change (y + -1) with (y - 1).
  rewrite !(Z.add_0_r x), !(Z.add_0_r y).
  rewrite !pair_equal_spec. repeat split; lia.
Qed.

Lemma get_replicate {A : Type} (d : A) (n : nat) (i : Z) :
  get d (replicate n d) i = d.
Proof.
  unfold get. destruct (i <? 0); [reflexivity|].
  rewrite nth_lookup. destruct (replicate n d !! Z.to_nat i) eqn:E; [|reflexivity].
  apply lookup_replicate in E as [-> _]. reflexivity.
Qed.

Lemma get_set {A : Type} (d : A) (a : list A) (i k : Z) (v : A) :
  0 <= i < Z.of_nat (length a) ->
  get d (set a i v) k = if (i * 1 <=? k) && (k <? i * 1 + 1) then v else get d a k.
Proof.
  intros Hi. destruct (Z.eq_dec i k) as [<-|Hne].
  - rewrite get_set_eq by assumption. bool_cases; try lia; reflexivity.
  - rewrite get_set_ne by assumption. bool_cases; try lia; reflexivity.
Qed.

(** C4: [computeSobelEdges] leaves the border rows and columns of the
    output (indices 0 and width-1, 0 and height-1) at 0, and at every
    interior pixel stores hypot(gx, gy) of the two 3 x 3 Sobel responses,
    whose neighbours are sampled at coordinates clamped to the nearest
    valid ones. *)
Theorem computeSobelEdges_magnitude (gray : list Z) (width height : Z) :
  0 <= width -> 0 <= height ->
  Z.of_nat (length gray) = width * height * 4 ->
  let magnitude := computeSobelEdges gray width height in
  Z.of_nat (length magnitude) = width * height /\
  (forall x y, 0 <= x < width -> 0 <= y < height ->
     x = 0 \/ x = width - 1 \/ y = 0 \/ y = height - 1 ->
     get 0%R magnitude (y * width + x) = 0%R) /\
  (forall x y, 1 <= x <= width - 2 -> 1 <= y <= height - 2 ->
     get 0%R magnitude (y * width + x)
     = fround (Math_hypot (IZR (sobelGx gray width height x y))
                          (IZR (sobelGy gray width height x y)))).
Proof.
  intros Hw Hh Hlen magnitude. subst magnitude.
  unfold computeSobelEdges, computeSobelEdgesWith.
  set (a0 := replicate (Z.to_nat (width * height)) 0%R).
  assert (Hl0 : Z.of_nat (length a0) = width * height).
  { unfold a0. rewrite length_replicate. nia. }
  destruct (grid_loop_get 0%R width height 1
              (fun x y a =>
                 let '(gx, gy, _) := sobelKernelLoops clamp gray width height x y in
                 set a (y * width + x) (fround (Math_hypot (IZR gx) (IZR gy))))
              (fun x y _ =>
                 fround (Math_hypot (IZR (sobelGx gray width height x y))
                                    (IZR (sobelGy gray width height x y))))
              1 (height - 1) 1 (width - 1) a0) as [Hlen' Hget]; try lia.
  - intros x y a. rewrite sobelKernelLoops_spec. apply length_set.
  - intros x y a k Hx Hy Hla Hk. rewrite sobelKernelLoops_spec.
    apply get_set. rewrite Hla. nia.
  - split; [lia|]. split.
    + intros x y Hx Hy Hborder.
      specialize (Hget x y 0 Hx Hy ltac:(lia)).
      replace ((y * width + x) * 1 + 0) with (y * width + x) in Hget by lia.
      rewrite Hget. unfold a0. rewrite get_replicate.
      bool_cases; try lia; reflexivity.
    + intros x y Hx Hy.
      specialize (Hget x y 0 ltac:(lia) ltac:(lia) ltac:(lia)).
      replace ((y * width + x) * 1 + 0) with (y * width + x) in Hget by lia.
      rewrite Hget. bool_cases; try lia; reflexivity.
Qed.

(** ** Entropy of the histogram *)

(** The entries of the histogram of a non-empty buffer are fractions. *)
Lemma computeHistogram_fractions (data : list Z) :
  Forall is_byte data -> data <> [] ->
  Forall (fun p => (0 <= p <= 1)%R) (computeHistogram data).
Proof using rnd_mono rnd_dyadic.
  intros Hb Hne. unfold computeHistogram.
  assert (Hok0 : bins_ok (replicate 256 0)).
  { split; [apply length_replicate | apply Forall_replicate; lia]. }
  destruct (histCounts_spec data (replicate 256 0) 0 Hb Hok0)
    as ([Hlen' Hpos] & Hsum & Hcount).
  destruct (histCounts data (replicate 256 0) 0) as [hist count].
  cbn [fst snd] in *. rewrite sumZ_replicate_0 in Hsum.
  assert (Hn : 0 < count).
  { generalize (lumas_nonempty data Hne).
    destruct (lumas data); [congruence|]. simpl length in *. lia. }
  assert (Hall : Forall (fun c => 0 <= c <= count) hist).
  { replace count with (sumZ hist) by lia. now apply sumZ_bound. }
  apply Forall_forall. intros p Hp.
  apply elem_of_map in Hp as (c & -> & Hc).
  rewrite Forall_forall in Hall. specialize (Hall c Hc).
  split; [apply histogram_entry_nonneg | apply histogram_entry_le_1]; lia.
Qed.

Lemma entropy_fold_nonpos (hist : list R) (s : R) :
  Forall (fun p => (0 <= p <= 1)%R) hist -> (s <= 0)%R ->
  (fold_left (fun s p => if Rlt_dec 0 p then s ⊕ p ⊗ Math_log2 p else s) hist s
   <= 0)%R.
Proof using rnd_mono rnd_dyadic log2_nonpos.
  revert s. induction hist as [|p hist IH]; intros s H Hs; simpl; [assumption|].
  apply Forall_cons in H as [Hp H]. apply IH; [assumption|].
  destruct (Rlt_dec 0 p) as [Hpos|_]; [|assumption].
  unfold fadd, fmul. rewrite <- rnd_0. apply rnd_mono.
  assert (Hl : (Math_log2 p <= 0)%R) by (apply log2_nonpos; lra).
  assert (Ht : (rnd (p * Math_log2 p) <= 0)%R).
  { rewrite <- rnd_0. apply rnd_mono. nra. }
  lra.
Qed.

Lemma ln_le_minus_1 (x : R) : (0 < x)%R -> (ln x <= x - 1)%R.
Proof.
  intros Hx. destruct (Rle_or_lt (ln x) (x - 1)) as [H|H]; [assumption|].
  apply exp_increasing in H. rewrite exp_ln in H by assumption.
  generalize (exp_ineq1_le (x - 1)). lra.
Qed.

Lemma ln_256 : ln 256 = (8 * ln 2)%R.
Proof.
  replace 256%R with (2 ^ 8)%R by lra.
  rewrite ln_pow by lra. simpl. lra.
Qed.

(** One term of Gibbs' inequality against the uniform distribution on 256
    bins. *)
Lemma entropy_term_bound (p : R) :
  (0 < p)%R -> (- (p * ln p) <= p * ln 256 + / 256 - p)%R.
Proof.
  intros Hp.
  assert (Hu : (0 < / (256 * p))%R) by (apply Rinv_0_lt_compat; lra).
  generalize (ln_le_minus_1 (/ (256 * p)) Hu).
  rewrite ln_Rinv, ln_mult by lra. intros H.
  assert (H' : (p * (- (ln 256 + ln p)) <= p * (/ (256 * p) - 1))%R).
  { apply Rmult_le_compat_l; lra. }
  replace (p * (/ (256 * p) - 1))%R with (/ 256 - p)%R in H' by (field; lra).
  lra.
Qed.

Lemma entropy_fold_exact (hist : list R) (s : R) :
  (forall x : R, rnd x = x) ->
  (forall x : R, (0 < x)%R -> Math_log2 x = (ln x / ln 2)%R) ->
  fold_left (fun s p => if Rlt_dec 0 p then s ⊕ p ⊗ Math_log2 p else s) hist s
  = (s + sumR (map plog2 hist))%R.
Proof.
  intros Hexact Hlog. revert s.
  induction hist as [|p hist IH]; intros s; simpl; [lra|].
  rewrite IH. unfold plog2. destruct (Rlt_dec 0 p) as [Hp|Hp]; [|lra].
  unfold fadd, fmul. rewrite !Hexact, Hlog by assumption. lra.
Qed.

Lemma entropy_sum_bound (hist : list R) :
  Forall (fun p => (0 <= p)%R) hist ->
  (- sumR (map plog2 hist)
   <= (sumR hist * ln 256 + INR (length hist) / 256 - sumR hist) / ln 2)%R.
Proof.
  assert (H2 : (0 < ln 2)%R) by (generalize ln_lt_2; lra).
  induction hist as [|p hist IH]; intros H.
  - simpl. unfold Rdiv. rewrite !Rmult_0_l. lra.
  - apply Forall_cons in H as [Hp H]. specialize (IH H).
    cbn [map sumR fold_right length].
    fold (sumR hist).
    fold (sumR (map plog2 hist))%R.
    rewrite S_INR.
    set (S := sumR (map plog2 hist)) in *.
    assert (Hterm : (- plog2 p <= (p * ln 256 + / 256 - p) / ln 2)%R).
    { unfold plog2. destruct (Rlt_dec 0 p) as [Hpos|Hnpos].
      - generalize (entropy_term_bound p Hpos). intros Hb.
        replace (- (p * (ln p / ln 2)))%R with (- (p * ln p) / ln 2)%R
          by (field; lra).
        apply Rmult_le_compat_r; [left; now apply Rinv_0_lt_compat | assumption].
      - assert (p = 0%R) by lra. subst p.
        rewrite Rmult_0_l, Rplus_0_l, Rminus_0_r.
        apply Rle_trans with 0%R; [lra|].
        apply Rle_mult_inv_pos; lra. }
    replace (((p + sumR hist) * ln 256 + (INR (length hist) + 1) / 256
              - (p + sumR hist)) / ln 2)%R
      with ((p * ln 256 + / 256 - p) / ln 2
            + (sumR hist * ln 256 + INR (length hist) / 256 - sumR hist) / ln 2)%R
      by (field; lra).
    lra.
Qed.

Lemma sumR_fractions_exact (n : Z) (l : list Z) :
  (forall x : R, rnd x = x) ->
  sumR (map (fun c => IZR c ⊘ IZR n) l) = (IZR (sumZ l) / IZR n)%R.
Proof.
  intros Hexact. induction l as [|c l IH].
  - simpl. unfold Rdiv. now rewrite Rmult_0_l.
  - cbn [map sumR sumZ fold_right]. fold (sumZ l).
    fold (sumR (map (fun c => IZR c ⊘ IZR n) l)).
    rewrite IH, plus_IZR. unfold fdiv. rewrite Hexact.
    unfold Rdiv. ring.
Qed.

(** *** The entropy of the histogram of 65536 pixels, in doubles *)

(** Rounding a number from -128 to 0 lowers it by 2^-46 at most. *)
Lemma rnd_lower (x : R) : (-128 <= x <= 0)%R -> (x - / 2 ^ 46 <= rnd x <= 0)%R.
Proof using rnd_mono rnd_dyadic rnd_error rnd_opp.
  intros [Hlo Hhi]. split.
  - replace x with (- - x)%R by lra. rewrite rnd_opp.
    set (y := (- x)%R). assert (Hy : (0 <= y <= 128)%R) by (unfold y; lra).
    assert (H : (rnd y <= y + / 2 ^ 46)%R).
    { destruct (Rle_lt_dec (/ 2 ^ 64) y) as [Hbig|Hsmall].
      - assert (He : (Rabs (rnd y - y) <= y / 2 ^ 53)%R)
          by (apply rnd_error; lra).
        apply Rabs_le_bounds in He. lra.
      - assert (Hr : (rnd y <= IZR 1 / 2 ^ 64)%R)
          by (apply rnd_le_dyadic; [lia | lia | lra]).
        lra. }
    lra.
  - rewrite <- rnd_0. now apply rnd_mono.
Qed.

Lemma plog2_nonpos (p : R) : (0 <= p <= 1)%R -> (plog2 p <= 0)%R.
Proof.
  intros [H0 H1]. unfold plog2. destruct (Rlt_dec 0 p) as [Hp|_]; [|lra].
  assert (H2 : (0 < ln 2)%R) by (generalize ln_lt_2; lra).
  assert (Hl : (ln p <= 0)%R).
  { destruct H1 as [H1| ->]; [|rewrite ln_1; lra].
    rewrite <- ln_1. left. now apply ln_increasing. }
  assert (Hi : (0 < / ln 2)%R) by now apply Rinv_0_lt_compat.
  assert (Hq : (ln p / ln 2 <= 0)%R) by (unfold Rdiv; nra).
  nra.
Qed.

(** The sum the code accumulates is not below the exact sum by more than
    the errors of [Math.log2] and of the two roundings of each term. *)
Lemma entropy_fold_lower (hist : list R) (s : R) :
  Forall (fun p => p = 0%R \/ (/ 2 ^ 16 <= p <= 1)%R) hist ->
  (s <= 0)%R ->
  (-40 <= s + sumR (map plog2 hist) - sumR hist / 2 ^ 30
          - INR (length hist) * (2 / 2 ^ 46))%R ->
  (s + sumR (map plog2 hist) - sumR hist / 2 ^ 30
   - INR (length hist) * (2 / 2 ^ 46)
   <= fold_left (fun s p => if Rlt_dec 0 p then s ⊕ p ⊗ Math_log2 p else s)
        hist s)%R.
Proof using rnd_mono rnd_dyadic rnd_error rnd_opp log2_nonpos log2_accurate.
  intros H. revert s.
  induction H as [|p hist Hp Hall IH]; intros s Hs Hlow.
  - cbn [map sumR fold_right length fold_left INR]. lra.
  - assert (HA : (sumR (map plog2 hist) <= 0)%R).
    { clear - Hall. induction Hall as [|q l Hq _ IHl]; [simpl; lra|].
      cbn [map sumR fold_right]. fold (sumR (map plog2 l)).
      assert (plog2 q <= 0)%R.
      { apply plog2_nonpos. destruct Hq as [->|Hq]; lra. }
      lra. }
    assert (HB : (0 <= sumR hist)%R).
    { clear - Hall. induction Hall as [|q l Hq _ IHl]; [simpl; lra|].
      cbn [sumR fold_right]. fold (sumR l).
      destruct Hq as [->|Hq]; lra. }
    assert (HN : (0 <= INR (length hist))%R) by apply pos_INR.
    assert (Hp30 : (0 < / 2 ^ 30)%R) by (apply Rinv_0_lt_compat; lra).
    assert (Hp46 : (0 < / 2 ^ 46)%R) by (apply Rinv_0_lt_compat; lra).
    cbn [map sumR fold_right length] in *.
    fold (sumR (map plog2 hist)) in *. fold (sumR hist) in *.
    rewrite S_INR in *. rewrite fold_left_cons.
    unfold Rdiv in *.
    destruct Hp as [->|Hp].
    + destruct (Rlt_dec 0 0) as [F|_]; [lra|].
      assert (E : plog2 0 = 0%R).
      { unfold plog2. destruct (Rlt_dec 0 0); lra. }
      rewrite E in *.
      eapply Rle_trans; [|apply IH; [exact Hs | nra]]. nra.
    + destruct (Rlt_dec 0 p) as [Hpos|F]; [|lra].
      assert (HL0 : (Math_log2 p <= 0)%R) by (apply log2_nonpos; lra).
      assert (HLa : (Rabs (Math_log2 p - ln p / ln 2) <= / 2 ^ 30)%R)
        by now apply log2_accurate.
      apply Rabs_le_bounds in HLa.
      assert (E : plog2 p = (p * (ln p / ln 2))%R).
      { unfold plog2. destruct (Rlt_dec 0 p); [reflexivity | lra]. }
      rewrite E in *. unfold Rdiv in *.
      set (L := Math_log2 p) in *. set (l := (ln p * / ln 2)%R) in *.
      assert (Hpl : (p * l - p * / 2 ^ 30 <= p * L <= 0)%R) by nra.
      assert (Hlow' : (-40 <= p * l)%R) by nra.
      assert (Ht : (p * L - / 2 ^ 46 <= rnd (p * L) <= 0)%R).
      { apply rnd_lower. nra. }
      assert (Hst : (s + rnd (p * L) - / 2 ^ 46
                     <= rnd (s + rnd (p * L)) <= 0)%R).
      { apply rnd_lower. nra. }
      unfold fadd, fmul.
      eapply Rle_trans; [|apply IH; [lra | nra]]. nra.
Qed.

(** For r > 0, r ln r lies above its tangent at 1 by at least
    (r - 1)^2 / (2 (r + 1)): the logarithm of a square root is below the
    square root less 1. *)
Lemma r_ln_r_bound (r : R) :
  (0 < r)%R ->
  (- (r * ln r) <= 1 - r - (r - 1) * (r - 1) / (2 * (r + 1)))%R.
Proof.
  intros Hr.
  assert (Hs : (0 < sqrt r)%R) by now apply sqrt_lt_R0.
  assert (Hs2 : (sqrt r * sqrt r = r)%R) by (apply sqrt_sqrt; lra).
  assert (Hln : ln r = (2 * ln (sqrt r))%R).
  { rewrite <- Hs2 at 1. rewrite ln_mult by assumption. lra. }
  set (t := sqrt r) in *.
  assert (Hi : (0 < / t)%R) by now apply Rinv_0_lt_compat.
  generalize (ln_le_minus_1 (/ t) Hi). rewrite ln_Rinv by assumption.
  intros Hl.
  assert (Hti : (t * / t = 1)%R) by (apply Rinv_r; lra).
  assert (H1 : (- (r * ln r) <= 2 * t - 2 * r)%R).
  { rewrite Hln, <- Hs2.
    assert (H : (t * t * (- ln t) <= t * t * (/ t - 1))%R)
      by (apply Rmult_le_compat_l; nra).
    replace (t * t * (/ t - 1))%R with (t * (t * / t) - t * t)%R in H by ring.
    rewrite Hti in H. lra. }
  assert (HD : ((r - 1) * (r - 1) / (2 * (r + 1)) <= (t - 1) * (t - 1))%R).
  { apply (Rmult_le_reg_r (2 * (r + 1))); [lra|].
    unfold Rdiv. rewrite Rmult_assoc, Rinv_l, Rmult_1_r by lra.
    rewrite <- Hs2.
    assert (E : ((t - 1) * (t - 1) * (2 * (t * t + 1))
                 - (t * t - 1) * (t * t - 1)
                 = ((t - 1) * (t - 1)) * ((t - 1) * (t - 1)))%R) by ring.
    assert (Hsq : (0 <= ((t - 1) * (t - 1)) * ((t - 1) * (t - 1)))%R)
      by apply Rle_0_sqr.
    lra. }
  rewrite <- Hs2 in H1 |- * at 1. nra.
Qed.

Lemma binGap_nonneg (c : Z) : 0 <= c -> (0 <= binGap c)%R.
Proof.
  intros Hc. unfold binGap.
  assert (H : (0 <= IZR c)%R) by (apply IZR_le; lia).
  apply Rle_mult_inv_pos; [apply Rle_0_sqr | lra].
Qed.

Lemma binGap_low (c : Z) : 0 <= c -> c <> 256 -> (/ 262656 <= binGap c)%R.
Proof.
  intros Hc Hne. unfold binGap.
  assert (H : (0 <= IZR c)%R) by (apply IZR_le; lia).
  assert (HZ : c + 256 <= 513 * ((c - 256) * (c - 256))) by nia.
  apply IZR_le in HZ.
  rewrite plus_IZR, !mult_IZR, !minus_IZR in HZ.
  apply (Rmult_le_reg_r (512 * (IZR c + 256))); [lra|].
  unfold Rdiv. rewrite Rmult_assoc, Rinv_l, Rmult_1_r by lra. lra.
Qed.

(** One bin of the histogram of 65536 pixels. *)
Lemma entropy_term_gap (c : Z) :
  0 <= c ->
  (- (plog2 (IZR c / 65536) * ln 2)
   <= IZR c / 65536 * (ln 256 - 1) + / 256 - binGap c / 256)%R.
Proof.
  intros Hc.
  assert (H2 : (0 < ln 2)%R) by (generalize ln_lt_2; lra).
  destruct (Z.eq_dec c 0) as [->|Hc0].
  - unfold plog2, binGap.
    replace (0 / 65536)%R with 0%R by lra.
    destruct (Rlt_dec 0 0) as [F|_]; lra.
  - assert (Hpos : (1 <= IZR c)%R) by (apply IZR_le; lia).
    set (r := (IZR c / 256)%R).
    assert (Hr : (0 < r)%R) by (unfold r; lra).
    assert (Ep : (IZR c / 65536 = r / 256)%R) by (unfold r; lra).
    assert (Eg : binGap c = ((r - 1) * (r - 1) / (2 * (r + 1)))%R).
    { unfold binGap, r. field. lra. }
    rewrite Ep, Eg. unfold plog2.
    destruct (Rlt_dec 0 (r / 256)) as [_|F]; [|lra].
    assert (El : ln (r / 256) = (ln r - ln 256)%R).
    { unfold Rdiv. rewrite ln_mult, ln_Rinv by lra. lra. }
    rewrite El.
    generalize (r_ln_r_bound r Hr). intros Hb.
    replace (- (r / 256 * ((ln r - ln 256) / ln 2) * ln 2))%R
      with (- (r * ln r) / 256 + r / 256 * ln 256)%R by (field; lra).
    lra.
Qed.

Lemma entropy_gap_sum (counts : list Z) :
  Forall (fun c => 0 <= c) counts ->
  (- (sumR (map (fun c => plog2 (IZR c / 65536)) counts) * ln 2)
   <= IZR (sumZ counts) / 65536 * (ln 256 - 1)
      + INR (length counts) / 256
      - sumR (map binGap counts) / 256)%R.
Proof.
  induction 1 as [|c l Hc Hl IH].
  - cbn [map sumR sumZ fold_right length INR]. lra.
  - cbn [map sumR sumZ fold_right length].
    fold (sumZ l). fold (sumR (map binGap l)).
    fold (sumR (map (fun c => plog2 (IZR c / 65536)) l)).
    rewrite S_INR, plus_IZR.
    generalize (entropy_term_gap c Hc). lra.
Qed.

Lemma binGap_sum_low (counts : list Z) :
  Forall (fun c => 0 <= c) counts ->
  Exists (fun c => c <> 256) counts ->
  (/ 262656 <= sumR (map binGap counts))%R.
Proof.
  intros Hpos Hex.
  assert (H0 : forall l, Forall (fun c => 0 <= c) l ->
                 (0 <= sumR (map binGap l))%R).
  { induction 1 as [|c l Hc Hl IH]; [simpl; lra|].
    cbn [map sumR fold_right]. fold (sumR (map binGap l)).
    generalize (binGap_nonneg c Hc). lra. }
  induction Hex as [c l Hc|c l Hex IH].
  - apply Forall_cons in Hpos as [Hc0 Hl].
    cbn [map sumR fold_right]. fold (sumR (map binGap l)).
    generalize (binGap_low c Hc0 Hc) (H0 l Hl). lra.
  - apply Forall_cons in Hpos as [Hc0 Hl].
    cbn [map sumR fold_right]. fold (sumR (map binGap l)).
    generalize (binGap_nonneg c Hc0) (IH Hl). lra.
Qed.

(** The uniform histogram: every term is -1/32 and every partial sum a
    multiple of 1/32, none of them rounded. *)
Lemma entropy_fold_uniform (n k : nat) :
  (k + n <= 256)%nat ->
  fold_left (fun s p => if Rlt_dec 0 p then s ⊕ p ⊗ Math_log2 p else s)
    (replicate n (/ 256)%R) (IZR (- Z.of_nat k) / 2 ^ 5)%R
  = (IZR (- Z.of_nat (k + n)) / 2 ^ 5)%R.
Proof using rnd_dyadic log2_256.
  revert k. induction n as [|n IH]; intros k Hk.
  - cbn [replicate fold_left]. do 3 f_equal. lia.
  - change (replicate (Datatypes.S n) (/ 256)%R)
      with ((/ 256)%R :: replicate n (/ 256)%R).
    rewrite fold_left_cons.
    destruct (Rlt_dec 0 (/ 256)) as [_|F]; [|lra].
    rewrite log2_256. unfold fadd, fmul in *.
    replace (/ 256 * - 8)%R with (IZR (- 1) / 2 ^ 5)%R by lra.
    rewrite rnd_dyadic by lia.
    replace (IZR (- Z.of_nat k) / 2 ^ 5 + IZR (- 1) / 2 ^ 5)%R
      with (IZR (- Z.of_nat (Datatypes.S k)) / 2 ^ 5)%R.
    + rewrite rnd_dyadic by lia.
      rewrite (IH (Datatypes.S k)) by lia. do 3 f_equal. lia.
    + replace (- Z.of_nat (Datatypes.S k)) with (- Z.of_nat k + - 1) by lia.
      rewrite plus_IZR. lra.
Qed.

Lemma lumas_length_whole (n : nat) (data : list Z) :
  length data = (4 * n)%nat -> length (lumas data) = n.
Proof.
  revert data. induction n as [|n IH]; intros data Hlen.
  - destruct data; [reflexivity | discriminate].
  - destruct data as [|r [|g [|b [|a rest]]]]; simpl in Hlen; try lia.
    cbn [lumas length]. rewrite IH; [reflexivity | lia].
Qed.

(** The entropy of the histogram of the 65536 pixels of the canvas is at
    most 8 as the code computes it.  A uniform histogram gives 8 with no
    rounding; any other lies below 8 by more than 1/(256 * 262656), and
    the errors of the computation are smaller. *)
Lemma histogramEntropy_le_8 (data : list Z) :
  Forall is_byte data -> Z.of_nat (length data) = 4 * size * size ->
  (histogramEntropy (computeHistogram data) <= 8)%R.
Proof using rnd_mono rnd_dyadic rnd_error rnd_opp log2_nonpos log2_accurate
  log2_256.
  intros Hb Hlen.
  assert (HN : Z.of_nat (length (lumas data)) = 65536).
  { rewrite (lumas_length_whole (Z.to_nat 65536) data);
      unfold size in Hlen; lia. }
  assert (Hok0 : bins_ok (replicate 256 0)).
  { split; [apply length_replicate | apply Forall_replicate; lia]. }
  unfold histogramEntropy, computeHistogram.
  destruct (histCounts_spec data (replicate 256 0) 0 Hb Hok0)
    as ([Hlen' Hpos] & Hsum & Hcount).
  destruct (histCounts data (replicate 256 0) 0) as [counts count].
  cbn [fst snd] in *. rewrite sumZ_replicate_0, HN in Hsum.
  rewrite HN in Hcount.
  replace count with 65536 by lia. clear Hcount count.
  assert (Hsum' : sumZ counts = 65536) by lia. clear Hsum.
  assert (Hrange : Forall (fun c => 0 <= c <= 65536) counts).
  { rewrite <- Hsum'. now apply sumZ_bound. }
  assert (Hexact : map (fun c => IZR c ⊘ IZR 65536) counts
                   = map (fun c => (IZR c / 65536)%R) counts).
  { apply map_ext_in. intros c Hc.
    rewrite Forall_forall in Hrange.
    specialize (Hrange c (proj2 (list_elem_of_In _ _) Hc)).
    unfold fdiv. replace (IZR c / 65536)%R with (IZR c / 2 ^ 16)%R by lra.
    apply rnd_dyadic; lia. }
  rewrite Hexact. clear Hexact.
  destruct (Forall_Exists_dec (fun c => c = 256) (fun c => c <> 256)
              (fun c => Z.eq_dec c 256) counts) as [Hu|Hnu].
  - assert (E : counts = replicate 256 256).
    { symmetry. apply replicate_as_Forall. split; [exact Hlen'|].
      eapply Forall_impl; [exact Hu|]. intros c ->. reflexivity. }
    rewrite E.
    assert (Em : map (fun c => (IZR c / 65536)%R) (replicate 256 256)
                 = replicate 256 (/ 256)%R).
    { generalize 256%nat. intros m. induction m as [|m IHm]; [reflexivity|].
      cbn [replicate map]. rewrite IHm. f_equal. lra. }
    rewrite Em.
    pose proof (entropy_fold_uniform 256 0 ltac:(lia)) as Hfold.
    change (- Z.of_nat (0 + 256)) with (-256) in Hfold.
    change (- Z.of_nat 0) with 0 in Hfold.
    assert (E0 : (IZR 0 / 2 ^ 5)%R = 0%R) by lra.
    rewrite E0 in Hfold. rewrite Hfold. lra.
  - assert (Hgood : Forall (fun p => p = 0%R \/ (/ 2 ^ 16 <= p <= 1)%R)
                      (map (fun c => (IZR c / 65536)%R) counts)).
    { apply Forall_forall. intros p Hp.
      apply elem_of_map in Hp as (c & -> & Hc).
      rewrite Forall_forall in Hrange. specialize (Hrange c Hc).
      destruct (Z.eq_dec c 0) as [->|Hc0]; [left; lra | right].
      assert (H1 : (1 <= IZR c)%R) by (apply IZR_le; lia).
      assert (H2 : (IZR c <= 65536)%R) by (apply IZR_le; lia).
      lra. }
    assert (Hs1 : sumR (map (fun c => (IZR c / 65536)%R) counts) = 1%R).
    { assert (G : forall l, sumR (map (fun c => (IZR c / 65536)%R) l)
                            = (IZR (sumZ l) / 65536)%R).
      { induction l as [|c l IHl]; [simpl; lra|].
        cbn [map sumR sumZ fold_right]. fold (sumZ l).
        fold (sumR (map (fun c => (IZR c / 65536)%R) l)).
        rewrite IHl, plus_IZR. lra. }
      rewrite G, Hsum'. lra. }
    assert (Hgap := entropy_gap_sum counts Hpos).
    assert (Hlow := binGap_sum_low counts Hpos Hnu).
    rewrite Hsum', Hlen' in Hgap.
    replace (INR 256) with 256%R in Hgap by (simpl; lra).
    rewrite ln_256 in Hgap.
    assert (H2 : (0 < ln 2 <= 1)%R).
    { split; [generalize ln_lt_2; lra|].
      generalize (ln_le_minus_1 2 ltac:(lra)). lra. }
    set (T := sumR (map (fun c => plog2 (IZR c / 65536)) counts)) in *.
    assert (HT : (- T <= 8 - / 262656 / 256)%R).
    { assert (H3 : (- (T * ln 2) <= (8 - / 262656 / 256) * ln 2)%R) by nra.
      apply (Rmult_le_reg_r (ln 2)); [lra|]. lra. }
    pose proof (entropy_fold_lower _ 0 Hgood (Rle_refl 0)) as Hfold.
    rewrite map_map, Hs1, length_map, Hlen' in Hfold.
    fold T in Hfold.
    replace (INR 256) with 256%R in Hfold by (simpl; lra).
    specialize (Hfold ltac:(lra)). lra.
Qed.

(** C7: the entropy of the histogram of a non-empty buffer is not
    negative; the entropy of the histogram that [analyzeCtVsMri] takes,
    of the 65536 pixels of the canvas, is at most 8 = log2(256) as the
    code computes it in doubles; and in exact arithmetic (no rounding,
    [Math.log2] the binary logarithm) the entropy is at most 8 for a
    buffer of any size. *)
Theorem histogramEntropy_bounds (data : list Z) :
  Forall is_byte data -> data <> [] ->
  let hist := computeHistogram data in
  (0 <= histogramEntropy hist)%R /\
  (Z.of_nat (length data) = 4 * size * size ->
   (histogramEntropy hist <= 8)%R) /\
  ((forall x : R, rnd x = x) ->
   (forall x : R, (0 < x)%R -> Math_log2 x = (ln x / ln 2)%R) ->
   (histogramEntropy hist <= 8)%R).
Proof using rnd_mono rnd_dyadic rnd_error rnd_opp log2_nonpos log2_accurate
  log2_256.
  intros Hb Hne hist.
  assert (Hfr : Forall (fun p => (0 <= p <= 1)%R) hist)
    by now apply computeHistogram_fractions.
  split; [|split].
  - unfold histogramEntropy.
    generalize (entropy_fold_nonpos hist 0 Hfr (Rle_refl 0)). lra.
  - intros Hlen. subst hist. now apply histogramEntropy_le_8.
  - intros Hexact Hlog. unfold histogramEntropy.
    rewrite entropy_fold_exact by assumption. rewrite Rplus_0_l.
    assert (Hpos : Forall (fun p => (0 <= p)%R) hist).
    { eapply Forall_impl; [exact Hfr|]. simpl. intros; lra. }
    eapply Rle_trans; [apply entropy_sum_bound; assumption|].
    assert (Hsum : sumR hist = 1%R /\ length hist = 256%nat).
    { subst hist. unfold computeHistogram.
      assert (Hok0 : bins_ok (replicate 256 0)).
      { split; [apply length_replicate | apply Forall_replicate; lia]. }
      destruct (histCounts_spec data (replicate 256 0) 0 Hb Hok0)
        as ([Hlen' _] & Hs & Hcount).
      destruct (histCounts data (replicate 256 0) 0) as [h count].
      cbn [fst snd] in *. rewrite sumZ_replicate_0 in Hs.
      rewrite sumR_fractions_exact by assumption.
      rewrite length_map. split; [|assumption].
      assert (Hn : 0 < count).
      { generalize (lumas_nonempty data Hne).
        destruct (lumas data); [congruence|]. simpl length in *. lia. }
      replace (sumZ h) with count by lia.
      unfold Rdiv. apply Rinv_r. apply not_0_IZR. lia. }
    destruct Hsum as [-> ->].
    assert (H2 : (0 < ln 2)%R) by (generalize ln_lt_2; lra).
    replace (INR 256) with 256%R by (simpl; lra).
    rewrite ln_256.
    replace ((1 * (8 * ln 2) + 256 / 256 - 1) / ln 2)%R with 8%R by (field; lra).
    lra.
Qed.

(** ** The pipeline on a uniform image *)

Lemma toGrayscale_uniform (n : nat) (r g b a : Z) :
  toGrayscale (uniformImage n r g b a)
  = uniformImage n (ToUint8Clamp (luma r g b)) (ToUint8Clamp (luma r g b))
      (ToUint8Clamp (luma r g b)) (ToUint8Clamp a).
Proof.
  induction n as [|n IH]; [reflexivity|].
  cbn [uniformImage toGrayscale]. now rewrite IH.
Qed.

Lemma lumas_uniform (n : nat) (r g b a : Z) :
  lumas (uniformImage n r g b a) = replicate n r.
Proof.
  induction n as [|n IH]; [reflexivity|].
  cbn [uniformImage lumas replicate]. now rewrite IH.
Qed.

Lemma stretch_uniform (n : nat) (r g b a range : Z) :
  stretch r range (uniformImage n r g b a)
  = uniformImage n 0 0 0 (ToUint8Clamp a).
Proof using rnd_dyadic.
  induction n as [|n IH]; [reflexivity|].
  cbn [uniformImage stretch]. rewrite IH, normalizePixel_min. reflexivity.
Qed.

Lemma fold_min_replicate (n : nat) (r m : Z) :
  fold_left Z.min (replicate (Datatypes.S n) r) m = Z.min m r.
Proof.
  revert m. induction n as [|n IH]; intros m; [reflexivity|].
  change (replicate (Datatypes.S (Datatypes.S n)) r)
    with (r :: replicate (Datatypes.S n) r).
  cbn [fold_left]. rewrite IH. lia.
Qed.

Lemma fold_max_replicate (n : nat) (r m : Z) :
  fold_left Z.max (replicate (Datatypes.S n) r) m = Z.max m r.
Proof.
  revert m. induction n as [|n IH]; intros m; [reflexivity|].
  change (replicate (Datatypes.S (Datatypes.S n)) r)
    with (r :: replicate (Datatypes.S n) r).
  cbn [fold_left]. rewrite IH. lia.
Qed.

(** [normalizeIntensity] maps a uniform image to luma 0. *)
Lemma normalizeIntensity_uniform (n : nat) (r g b a : Z) :
  is_byte r ->
  normalizeIntensity (uniformImage n r g b a)
  = uniformImage n 0 0 0 (ToUint8Clamp a).
Proof using rnd_dyadic.
  intros Hr. unfold normalizeIntensity. rewrite scanMinMax_fold, lumas_uniform.
  destruct n as [|n]; [reflexivity|].
  rewrite fold_min_replicate, fold_max_replicate.
  unfold is_byte in Hr.
  replace (Z.min 255 r) with r by lia. replace (Z.max 0 r) with r by lia.
  apply stretch_uniform.
Qed.

(** The luma byte of every pixel of a uniform image, and 0 past its end. *)
Lemma get_uniform (n : nat) (r g b a k : Z) :
  0 <= k ->
  get 0 (uniformImage n r g b a) (k * 4)
  = if k <? Z.of_nat n then r else 0.
Proof.
  intros Hk. unfold get. destruct (k * 4 <? 0) eqn:E; [lia|]. clear E.
  replace (Z.to_nat (k * 4)) with (4 * Z.to_nat k)%nat by lia.
  replace k with (Z.of_nat (Z.to_nat k)) at 2 by lia.
  generalize (Z.to_nat k). clear k Hk. intros k. revert k.
  induction n as [|n IH]; intros k.
  - cbn [uniformImage]. destruct (4 * k)%nat; bool_cases; try lia; reflexivity.
  - destruct k as [|k].
    + cbn [uniformImage]. simpl nth. bool_cases; try lia; reflexivity.
    + replace (4 * Datatypes.S k)%nat
        with (Datatypes.S (Datatypes.S (Datatypes.S (Datatypes.S (4 * k))))) by lia.
      cbn [uniformImage nth]. rewrite IH. bool_cases; try lia; reflexivity.
Qed.

Lemma histCounts_uniform (n : nat) (g b a c count : Z) :
  histCounts (uniformImage n 0 g b a) (c :: replicate 255 0) count
  = ((c + Z.of_nat n) :: replicate 255 0, count + Z.of_nat n).
Proof.
  revert c count. induction n as [|n IH]; intros c count.
  - cbn [uniformImage histCounts]. f_equal; [f_equal|]; lia.
  - cbn [uniformImage histCounts].
    change (set (c :: replicate 255 0) 0 (get 0 (c :: replicate 255 0) 0 + 1))
      with ((c + 1) :: replicate 255 0).
    rewrite IH. f_equal; [f_equal|]; lia.
Qed.

(** The histogram of a uniformly black image is a single spike at bin 0. *)
Lemma computeHistogram_uniform (n : nat) (g b a : Z) :
  (0 < n)%nat -> Z.of_nat n <= 2 ^ 53 ->
  computeHistogram (uniformImage n 0 g b a) = 1%R :: replicate 255 0%R.
Proof using rnd_dyadic.
  intros Hn Hn'. unfold computeHistogram.
  change (replicate 256 0) with (0 :: replicate 255 0).
  rewrite histCounts_uniform. cbn [map]. f_equal.
  - unfold fdiv, Rdiv. rewrite Z.add_0_l, Rinv_r, rnd_1; [reflexivity|].
    apply not_0_IZR. lia.
  - generalize 255%nat. intros m. induction m as [|m IH]; [reflexivity|].
    cbn [replicate map]. rewrite IH. f_equal.
    unfold fdiv, Rdiv. now rewrite Rmult_0_l, rnd_0.
Qed.

Lemma get_uniform_black (n : nat) (g b a k : Z) :
  get 0 (uniformImage n 0 g b a) (k * 4) = 0.
Proof.
  destruct (Z_lt_ge_dec k 0) as [Hk|Hk].
  - unfold get. destruct (k * 4 <? 0) eqn:E; [reflexivity | lia].
  - rewrite get_uniform by lia. now destruct (k <? Z.of_nat n).
Qed.

Lemma fmul_0_l (x : R) : 0 ⊗ x = 0%R.
Proof using rnd_dyadic. unfold fmul. now rewrite Rmult_0_l, rnd_0. Qed.

Lemma fmul_0_r (x : R) : x ⊗ 0 = 0%R.
Proof using rnd_dyadic. unfold fmul. now rewrite Rmult_0_r, rnd_0. Qed.

Lemma fadd_0_0 : 0 ⊕ 0 = 0%R.
Proof using rnd_dyadic. unfold fadd. now rewrite Rplus_0_l, rnd_0. Qed.

Lemma fsub_0_0 : 0 ⊖ 0 = 0%R.
Proof using rnd_dyadic. unfold fsub. now rewrite Rminus_0_r, rnd_0. Qed.

Lemma fdiv_0_l (x : R) : 0 ⊘ x = 0%R.
Proof using rnd_dyadic. unfold fdiv, Rdiv. now rewrite Rmult_0_l, rnd_0. Qed.

Lemma histogramMean_fold_zeros (m : nat) (i : Z) :
  fold_left (fun '(s, i) p => (s ⊕ p ⊗ IZR i, i + 1)) (replicate m 0%R) (0%R, i)
  = (0%R, i + Z.of_nat m).
Proof using rnd_dyadic.
  revert i. induction m as [|m IH]; intros i.
  - cbn [replicate fold_left]. f_equal. lia.
  - change (replicate (Datatypes.S m) 0%R) with (0%R :: replicate m 0%R).
    rewrite fold_left_cons, fmul_0_l, fadd_0_0, IH. f_equal. lia.
Qed.

Lemma histogramMean_spike : histogramMean (1%R :: replicate 255 0%R) = 0%R.
Proof using rnd_dyadic.
  unfold histogramMean.
  rewrite fold_left_cons, fmul_0_r, fadd_0_0, histogramMean_fold_zeros.
  reflexivity.
Qed.

Lemma histogramVar_fold_zeros (m : nat) (i : Z) (mu : R) :
  fold_left (fun '(s, i) p => (s ⊕ p ⊗ (IZR i ⊖ mu) ⊗ (IZR i ⊖ mu), i + 1))
    (replicate m 0%R) (0%R, i)
  = (0%R, i + Z.of_nat m).
Proof using rnd_dyadic.
  revert i. induction m as [|m IH]; intros i.
  - cbn [replicate fold_left]. f_equal. lia.
  - change (replicate (Datatypes.S m) 0%R) with (0%R :: replicate m 0%R).
    rewrite fold_left_cons, !fmul_0_l, fadd_0_0, IH. f_equal. lia.
Qed.

Lemma histogramVar_spike :
  histogramVar (1%R :: replicate 255 0%R) 0 = 0%R.
Proof using rnd_dyadic.
  unfold histogramVar.
  rewrite fold_left_cons, fsub_0_0, !fmul_0_r, fadd_0_0, histogramVar_fold_zeros.
  reflexivity.
Qed.

Lemma entropy_fold_zeros (m : nat) (s : R) :
  fold_left (fun s p => if Rlt_dec 0 p then s ⊕ p ⊗ Math_log2 p else s)
    (replicate m 0%R) s = s.
Proof.
  induction m as [|m IH]; [reflexivity|].
  change (replicate (Datatypes.S m) 0%R) with (0%R :: replicate m 0%R).
  rewrite fold_left_cons. destruct (Rlt_dec 0 0) as [H|_]; [lra | apply IH].
Qed.

Lemma histogramEntropy_spike :
  histogramEntropy (1%R :: replicate 255 0%R) = 0%R.
Proof using rnd_dyadic log2_1.
  unfold histogramEntropy. rewrite fold_left_cons, entropy_fold_zeros.
  destruct (Rlt_dec 0 1) as [_|H]; [|lra].
  rewrite log2_1, fmul_0_r, fadd_0_0. lra.
Qed.

Lemma sobelKernelLoops_black (n : nat) (g b a width height x y : Z) :
  sobelKernelLoops clamp (uniformImage n 0 g b a) width height x y = (0, 0, 9).
Proof.
  rewrite sobelKernelLoops_spec. unfold sobelGx, sobelGy, sampleClamped.
  cbv zeta. rewrite !get_uniform_black. reflexivity.
Qed.

Lemma set_replicate_same {A : Type} (n : nat) (v : A) (i : Z) :
  set (replicate n v) i v = replicate n v.
Proof.
  unfold set. destruct (i <? 0); [reflexivity|].
  destruct (le_lt_dec n (Z.to_nat i)) as [Hge|Hlt].
  - apply list_insert_ge. now rewrite length_replicate.
  - apply list_insert_id, lookup_replicate. auto.
Qed.

(** The edge field of a uniformly black image is zero everywhere. *)
Lemma computeSobelEdges_black (n : nat) (g b a width height : Z) :
  computeSobelEdges (uniformImage n 0 g b a) width height
  = replicate (Z.to_nat (width * height)) 0%R.
Proof using hypot_0 fround_0.
  unfold computeSobelEdges, computeSobelEdgesWith.
  apply for_loop_inv; [reflexivity|]. intros y mag _ ->.
  apply for_loop_inv; [reflexivity|]. intros x mag _ ->.
  rewrite sobelKernelLoops_black, hypot_0, fround_0.
  apply set_replicate_same.
Qed.

Lemma fold_fadd_zeros (m : nat) :
  fold_left (fun s v => s ⊕ v) (replicate m 0%R) 0%R = 0%R.
Proof using rnd_dyadic.
  induction m as [|m IH]; [reflexivity|].
  change (replicate (Datatypes.S m) 0%R) with (0%R :: replicate m 0%R).
  now rewrite fold_left_cons, fadd_0_0.
Qed.

Lemma mean_zeros (m : nat) : mean (replicate m 0%R) = 0%R.
Proof using rnd_dyadic.
  unfold mean. now rewrite fold_fadd_zeros, fdiv_0_l.
Qed.

Lemma std_zeros (m : nat) : std (replicate m 0%R) (Some 0%R) = 0%R.
Proof using rnd_dyadic.
  unfold std. cbv zeta.
  assert (H : fold_left (fun s2 v => s2 ⊕ (v ⊖ 0) ⊗ (v ⊖ 0))
                (replicate m 0%R) 0%R = 0%R).
  { induction m as [|k IH]; [reflexivity|].
    change (replicate (Datatypes.S k) 0%R) with (0%R :: replicate k 0%R).
    now rewrite fold_left_cons, fsub_0_0, fmul_0_l, fadd_0_0. }
  rewrite H, fdiv_0_l. unfold Math_sqrt. now rewrite sqrt_0, rnd_0.
Qed.

Lemma sort_ascending_zeros (m : nat) :
  sort_ascending (replicate m 0%R) = replicate m 0%R.
Proof.
  induction m as [|m IH]; [reflexivity|].
  cbn [replicate sort_ascending fold_right].
  fold (sort_ascending (replicate m 0%R)). rewrite IH.
  destruct m as [|m]; [reflexivity|].
  cbn [replicate sort_insert]. destruct (Rle_dec 0 0) as [_|H]; [reflexivity | lra].
Qed.

Lemma percentiles_zeros (m : nat) (ps : list R) :
  percentiles (replicate m 0%R) ps = map (fun _ => 0%R) ps.
Proof.
  unfold percentiles. rewrite sort_ascending_zeros.
  apply map_ext. intros p. apply get_replicate.
Qed.

Lemma computeTextureEnergy_black (n : nat) (g b a width height : Z) :
  computeTextureEnergy (uniformImage n 0 g b a) width height = 0%R.
Proof using rnd_dyadic.
  unfold computeTextureEnergy. cbv zeta.
  match goal with
  | |- IZR (for_loop 0 (height - 1) ?f 0) ⊘ _ = _ =>
      assert (H : for_loop 0 (height - 1) f 0 = 0)
  end.
  { apply for_loop_inv; [reflexivity|]. intros y e _ ->.
    apply for_loop_inv; [reflexivity|]. intros x e _ ->.
    replace ((y * width + x) * 4 + 4) with ((y * width + x + 1) * 4) by lia.
    replace ((y * width + x) * 4 + width * 4)
      with ((y * width + x + width) * 4) by lia.
    rewrite !get_uniform_black. reflexivity. }
  rewrite H. apply fdiv_0_l.
Qed.

(** The nine features of a uniformly black 256 x 256 image are all 0. *)
Lemma extractFeatures_black (n : nat) (g b a : Z) :
  (0 < n)%nat -> Z.of_nat n <= 2 ^ 53 ->
  extractFeatures (uniformImage n 0 g b a) = zeroFeatures.
Proof using rnd_dyadic log2_1 hypot_0 fround_0.
  intros Hn Hn'. unfold extractFeatures.
  rewrite computeHistogram_uniform by assumption.
  rewrite histogramMean_spike, histogramVar_spike, histogramEntropy_spike.
  rewrite computeSobelEdges_black, mean_zeros, std_zeros, percentiles_zeros.
  rewrite computeTextureEnergy_black. reflexivity.
Qed.

Lemma classifierScore_zero_features : classifierScore zeroFeatures = (- 1)%R.
Proof using rnd_dyadic.
  unfold classifierScore, bias, zeroFeatures. cbn [map fst fold_left field String.eqb Ascii.eqb
    Bool.eqb].
  rewrite !fmul_0_l. unfold fadd. rewrite !Rplus_0_r.
  rewrite !(rnd_IZR (-1)) by lia. reflexivity.
Qed.

(** ** Euler's number *)

Lemma exp_double (x : R) : exp (2 * x) = (exp x * exp x)%R.
Proof. replace (2 * x)%R with (x + x)%R by lra. apply exp_plus. Qed.

Lemma square_bounds (l u a l' u' : R) :
  (0 <= l)%R -> (l <= a <= u)%R -> (l' <= l * l)%R -> (u * u <= u')%R ->
  (l' <= a * a <= u')%R.
Proof. intros Hl Ha Hl' Hu'. nra. Qed.

(** [exp 1] between (1 + 1/4096)^4096 and (1 - 1/4096)^-4096, by twelve
    squarings rounded outwards. *)
Lemma exp_1_bounds : (2.7179 <= exp 1 <= 2.7187)%R.
Proof.
  assert (H0 : (1.000244140625 <= exp (/ 4096) <= 1.000244200245)%R).
  { split.
    - generalize (exp_ineq1_le (/ 4096)). lra.
    - generalize (exp_ineq1_le (- / 4096)) (exp_pos (- / 4096)).
      rewrite exp_Ropp. intros H1 H2.
      assert (H3 : (0 < exp (/ 4096))%R) by apply exp_pos.
      assert (H4 : (exp (/ 4096) * / exp (/ 4096) = 1)%R)
        by (apply Rinv_r; lra).
      nra. }
  assert (H1 : (1.000488340854 <= exp (/ 2048) <= 1.000488460124)%R).
  { replace (/ 2048)%R with (2 * / 4096)%R by lra. rewrite exp_double.
    apply (square_bounds 1.000244140625 1.000244200245); lra. }
  assert (H2 : (1.000976920184 <= exp (/ 1024) <= 1.000977158842)%R).
  { replace (/ 1024)%R with (2 * / 2048)%R by lra. rewrite exp_double.
    apply (square_bounds 1.000488340854 1.000488460124); lra. }
  assert (H3 : (1.001954794741 <= exp (/ 512) <= 1.001955272524)%R).
  { replace (/ 512)%R with (2 * / 1024)%R by lra. rewrite exp_double.
    apply (square_bounds 1.000976920184 1.000977158842); lra. }
  assert (H4 : (1.003913410704 <= exp (/ 256) <= 1.003914368139)%R).
  { replace (/ 256)%R with (2 * / 512)%R by lra. rewrite exp_double.
    apply (square_bounds 1.001954794741 1.001955272524); lra. }
  assert (H5 : (1.007842136191 <= exp (/ 128) <= 1.007844058556)%R).
  { replace (/ 128)%R with (2 * / 256)%R by lra. rewrite exp_double.
    apply (square_bounds 1.003913410704 1.003914368139); lra. }
  assert (H6 : (1.015745771482 <= exp (/ 64) <= 1.015749646367)%R).
  { replace (/ 64)%R with (2 * / 128)%R by lra. rewrite exp_double.
    apply (square_bounds 1.007842136191 1.007844058556); lra. }
  assert (H7 : (1.031739472283 <= exp (/ 32) <= 1.031747344095)%R).
  { replace (/ 32)%R with (2 * / 64)%R by lra. rewrite exp_double.
    apply (square_bounds 1.015745771482 1.015749646367); lra. }
  assert (H8 : (1.064486338666 <= exp (/ 16) <= 1.064502582048)%R).
  { replace (/ 16)%R with (2 * / 32)%R by lra. rewrite exp_double.
    apply (square_bounds 1.031739472283 1.031747344095); lra. }
  assert (H9 : (1.133131165206 <= exp (/ 8) <= 1.133165747187)%R).
  { replace (/ 8)%R with (2 * / 16)%R by lra. rewrite exp_double.
    apply (square_bounds 1.064486338666 1.064502582048); lra. }
  assert (H10 : (1.283986237561 <= exp (/ 4) <= 1.284064610598)%R).
  { replace (/ 4)%R with (2 * / 8)%R by lra. rewrite exp_double.
    apply (square_bounds 1.133131165206 1.133165747187); lra. }
  assert (H11 : (1.648620658246 <= exp (/ 2) <= 1.648821924191)%R).
  { replace (/ 2)%R with (2 * / 4)%R by lra. rewrite exp_double.
    apply (square_bounds 1.283986237561 1.284064610598); lra. }
  assert (H12 : (2.717950074795 <= exp 1 <= 2.718613737693)%R).
  { replace 1%R with (2 * / 2)%R by lra. rewrite exp_double.
    apply (square_bounds 1.648620658246 1.648821924191); lra. }
  lra.
Qed.

Lemma inv_bounds (l u d : R) :
  (0 < l)%R -> (l <= d <= u)%R -> (/ u <= / d <= / l)%R.
Proof.
  intros Hl Hd. split; apply Rinv_le_contravar; lra.
Qed.

(** [logistic(-1)], the probability of MRI at the bias alone. *)
Lemma logistic_minus_1 : (0.26891 <= logistic (- 1) <= 0.26897)%R.
Proof using rnd_error exp_1_accurate.
  unfold logistic, fdiv, fadd. replace (- -1)%R with 1%R by lra.
  generalize exp_1_bounds exp_1_accurate. intros He Hacc.
  apply Rabs_le_bounds in Hacc.
  assert (Heps : (/ 2 ^ 40 <= 0.000000000001)%R) by lra.
  set (E := Math_exp 1) in *.
  assert (Hs : (3.717899 <= 1 + E <= 3.718701)%R) by lra.
  assert (Hd : (3.717898 <= rnd (1 + E) <= 3.718702)%R).
  { assert (Hr : (Rabs (rnd (1 + E) - (1 + E)) <= (1 + E) / 2 ^ 53)%R)
      by (apply rnd_error; lra).
    apply Rabs_le_bounds in Hr. lra. }
  set (d := rnd (1 + E)) in *.
  assert (Hq : (/ 3.718702 <= 1 / d <= / 3.717898)%R).
  { unfold Rdiv. rewrite Rmult_1_l. apply inv_bounds; lra. }
  assert (Hr : (Rabs (rnd (1 / d) - 1 / d) <= 1 / d / 2 ^ 53)%R)
    by (apply rnd_error; lra).
  apply Rabs_le_bounds in Hr. lra.
Qed.

(** [analyzeCtVsMri] on a uniform image: the normalized buffer is black,
    its histogram a spike at bin 0, every feature 0 and the score the
    bias. *)
Lemma analyzeCtVsMri_uniform (n : nat) (r g b a : Z) :
  (0 < n)%nat -> Z.of_nat n <= 2 ^ 53 ->
  let image := uniformImage n r g b a in
  let norm := normalizeIntensity (toGrayscale image) in
  lumas norm = replicate n 0 /\
  computeHistogram norm = 1%R :: replicate 255 0%R /\
  features (analyzeCtVsMri image) = zeroFeatures /\
  classifierScore (features (analyzeCtVsMri image)) = (- 1)%R.
Proof using rnd_dyadic log2_1 hypot_0 fround_0.
  intros Hn Hn' image norm. subst image norm.
  unfold analyzeCtVsMri, classify. cbn [features].
  rewrite toGrayscale_uniform, normalizeIntensity_uniform
    by apply ToUint8Clamp_is_byte.
  rewrite lumas_uniform, computeHistogram_uniform, extractFeatures_black
    by assumption.
  rewrite classifierScore_zero_features. auto.
Qed.

Lemma luma_128 : luma 128 128 128 = 128.
Proof using rnd_mono rnd_dyadic.
  destruct (luma_sum_bounds 128 128 128) as [Hlo Hhi]; try (unfold is_byte; lia).
  unfold luma.
  assert (H : 128 <= Math_round (lit 0.2126 ⊗ 128 ⊕ lit 0.7152 ⊗ 128
                                  ⊕ lit 0.0722 ⊗ 128) <= 128).
  { apply Math_round_between.
    - change (217 * 128 + 732 * 128 + 73 * 128) with 130816 in Hlo. lra.
    - change (218 * 128 + 733 * 128 + 74 * 128) with 131200 in Hhi. lra. }
  lia.
Qed.

(** C1, as the code has it: for the 256 x 256 uniform gray image of luma
    128 the grayscale step keeps luma 128, [normalizeIntensity] maps the
    constant image to luma 0, the histogram is a single spike at bin 0,
    all nine features are 0 (so histEntropy, the five edge statistics and
    textureE are 0), the score is the bias -1, probMRI = logistic(-1) is
    0.2689 and the confidence 0.7311 within 0.0001, and the label is CT. *)
Theorem analyzeCtVsMri_gray :
  let norm := normalizeIntensity (toGrayscale grayImage) in
  let hist := computeHistogram norm in
  let result := analyzeCtVsMri grayImage in
  let score := classifierScore (features result) in
  let probMRI := logistic score in
  toGrayscale grayImage = grayImage /\
  lumas norm = replicate (256 * 256) 0 /\
  hist = 1%R :: replicate 255 0%R /\
  features result = zeroFeatures /\
  score = (- 1)%R /\
  (Rabs (probMRI - 0.2689) < 0.0001)%R /\
  modality result = CT /\
  (Rabs (confidence result - 0.7311) < 0.0001)%R.
Proof using rnd_mono rnd_dyadic rnd_error exp_1_accurate log2_1 hypot_0 fround_0.
  intros norm hist result score probMRI.
  assert (Hn : (0 < 256 * 256)%nat) by lia.
  assert (Hn' : Z.of_nat (256 * 256) <= 2 ^ 53) by lia.
  destruct (analyzeCtVsMri_uniform (256 * 256) 128 128 128 255 Hn Hn')
    as (Hl & Hh & Hf & Hs).
  fold grayImage in Hl, Hh, Hf, Hs.
  assert (Hp : (0.26891 <= probMRI <= 0.26897)%R).
  { subst probMRI score result. rewrite Hs. apply logistic_minus_1. }
  assert (Hres : modality result = CT /\ confidence result = 1 ⊖ probMRI).
  { subst probMRI score result. unfold analyzeCtVsMri, classify in *.
    cbn [features modality confidence] in *.
    destruct (Rlt_dec 0.5 _) as [Hgt|_]; [lra | auto]. }
  destruct Hres as [Hm Hc].
  split.
  { unfold grayImage. rewrite toGrayscale_uniform, luma_128. reflexivity. }
  repeat split; try assumption.
  - apply Rabs_def1; lra.
  - rewrite Hc. unfold fsub.
    assert (Hr : (Rabs (rnd (1 - probMRI) - (1 - probMRI))
                  <= (1 - probMRI) / 2 ^ 53)%R) by (apply rnd_error; lra).
    apply Rabs_le_bounds in Hr. apply Rabs_def1; lra.
Qed.

(** ** The heatmap of a flat image *)

Lemma for_loop_5 {S : Type} (body : Z -> S -> S) (s : S) :
  for_loop (- radius) (radius + 1) body s
  = body 2 (body 1 (body 0 (body (-1) (body (-2) s)))).
Proof. reflexivity. Qed.







(** The colour of the normalized value 0. *)
Lemma colormap_0 : colormap 0 = (0, 0, 255).
Proof using rnd_mono rnd_dyadic pow_0.
  unfold colormap.
  assert (H35 : (0 < lit 0.35)%R).
  { unfold lit. generalize (rnd_ge_dyadic 0.35 1 2 ltac:(lia) ltac:(lia)).
    simpl. lra. }
  assert (H12 : (0 < lit 1.2)%R).
  { unfold lit. generalize (rnd_ge_dyadic 1.2 1 0 ltac:(lia) ltac:(lia)).
    simpl. lra. }
  rewrite !pow_0 by assumption.
  rewrite !fmul_0_r, fmul_0_l.
  assert (H1 : 1 ⊖ 0 = 1%R) by (unfold fsub; now rewrite Rminus_0_r, rnd_1).
  rewrite H1.
  assert (H2 : 255 ⊗ 1 = 255%R).
  { unfold fmul. rewrite Rmult_1_r. apply (rnd_IZR 255). lia. }
  rewrite H2, (Math_round_IZR 0), (Math_round_IZR 255). reflexivity.
Qed.

Lemma get_set4 (a : list Z) (j k v0 v1 v2 v3 : Z) :
  0 <= j -> j + 4 <= Z.of_nat (length a) ->
  get 0 (set (set (set (set a j v0) (j + 1) v1) (j + 2) v2) (j + 3) v3) k
  = if (j <=? k) && (k <? j + 4) then get 0 [v0; v1; v2; v3] (k - j)
    else get 0 a k.
Proof.
  intros Hj Hlen.
  destruct (Z.eq_dec k (j + 3)) as [->|H3].
  { rewrite get_set_eq by (rewrite !length_set; lia).
    replace (j + 3 - j) with 3 by lia. bool_cases; try lia; reflexivity. }
  rewrite get_set_ne by lia.
  destruct (Z.eq_dec k (j + 2)) as [->|H2].
  { rewrite get_set_eq by (rewrite !length_set; lia).
    replace (j + 2 - j) with 2 by lia. bool_cases; try lia; reflexivity. }
  rewrite get_set_ne by lia.
  destruct (Z.eq_dec k (j + 1)) as [->|H1].
  { rewrite get_set_eq by (rewrite !length_set; lia).
    replace (j + 1 - j) with 1 by lia. bool_cases; try lia; reflexivity. }
  rewrite get_set_ne by lia.
  destruct (Z.eq_dec k j) as [->|H0].
  { rewrite get_set_eq by lia.
    replace (j - j) with 0 by lia. bool_cases; try lia; reflexivity. }
  rewrite get_set_ne by lia. bool_cases; try lia; reflexivity.
Qed.


(** ** Normalization of the variance field *)

Lemma windowSums_count (gray : list Z) (width height x y : Z) :
  snd (windowSums gray width height x y) = 25.
Proof.
  unfold windowSums. rewrite !for_loop_5. reflexivity.
Qed.

(** The variance field, pixel by pixel. *)
Lemma localVariance_get (gray : list Z) (width height : Z) :
  0 <= width -> 0 <= height ->
  Z.of_nat (length (localVariance gray width height)) = width * height /\
  forall x y, 0 <= x < width -> 0 <= y < height ->
    get 0%R (localVariance gray width height) (y * width + x)
    = let '(sum, sum2, count) := windowSums gray width height x y in
      fround (IZR sum2 ⊘ IZR count
              ⊖ (IZR sum ⊘ IZR count) ⊗ (IZR sum ⊘ IZR count)).
Proof.
  intros Hw Hh. unfold localVariance.
  set (a0 := replicate (Z.to_nat (width * height)) 0%R).
  assert (Hl0 : Z.of_nat (length a0) = width * height).
  { unfold a0. rewrite length_replicate. nia. }
  destruct (grid_loop_get 0%R width height 1
              (fun x y variance =>
                 let '(sum, sum2, count) := windowSums gray width height x y in
                 set variance (y * width + x)
                   (fround (IZR sum2 ⊘ IZR count
                            ⊖ (IZR sum ⊘ IZR count) ⊗ (IZR sum ⊘ IZR count))))
              (fun x y _ =>
                 let '(sum, sum2, count) := windowSums gray width height x y in
                 fround (IZR sum2 ⊘ IZR count
                         ⊖ (IZR sum ⊘ IZR count) ⊗ (IZR sum ⊘ IZR count)))
              0 height 0 width a0) as [Hlen' Hget]; try lia.
  - intros x y a. destruct (windowSums gray width height x y) as [[sum sum2] count].
    apply length_set.
  - intros x y a k Hx Hy Hla Hk.
    destruct (windowSums gray width height x y) as [[sum sum2] count].
    apply get_set. rewrite Hla. nia.
  - split; [lia|]. intros x y Hx Hy.
    specialize (Hget x y 0 Hx Hy ltac:(lia)).
    replace ((y * width + x) * 1 + 0) with (y * width + x) in Hget by lia.
    rewrite Hget. bool_cases; try lia; reflexivity.
Qed.

Lemma elem_of_get {A : Type} (d : A) (l : list A) (v : A) :
  v ∈ l -> exists k, 0 <= k < Z.of_nat (length l) /\ get d l k = v.
Proof.
  intros H. apply list_elem_of_lookup in H as [i Hi].
  exists (Z.of_nat i). split.
  - apply lookup_lt_Some in Hi. lia.
  - unfold get. destruct (Z.ltb_spec (Z.of_nat i) 0) as [E|E]; [lia|].
    rewrite Nat2Z.id. now apply nth_lookup_Some.
Qed.

Lemma get_elem_of {A : Type} (d : A) (l : list A) (k : Z) :
  0 <= k < Z.of_nat (length l) -> get d l k ∈ l.
Proof.
  intros H. unfold get. destruct (Z.ltb_spec k 0); [lia|].
  apply list_elem_of_In, nth_In. lia.
Qed.

(** In exact arithmetic every local variance is a multiple of 1/625. *)
Lemma localVariance_exact (gray : list Z) (width height : Z) (v : R) :
  (forall x : R, rnd x = x) -> (forall x : R, fround x = x) ->
  1 <= width -> 1 <= height ->
  v ∈ localVariance gray width height ->
  exists K : Z, v = (IZR K / 625)%R.
Proof.
  intros Hexact Hfexact Hw Hh Hv.
  destruct (localVariance_get gray width height ltac:(lia) ltac:(lia))
    as [Hlen Hget].
  apply (elem_of_get 0%R) in Hv as (k & Hk & <-).
  assert (Hk' : k = (k / width) * width + k mod width).
  { rewrite (Z.div_mod k width) at 1 by lia. lia. }
  assert (Hx : 0 <= k mod width < width) by (apply Z.mod_pos_bound; lia).
  assert (Hy : 0 <= k / width < height).
  { split; [apply Z.div_pos; lia|]. apply Z.div_lt_upper_bound; nia. }
  rewrite Hk', Hget by assumption.
  generalize (windowSums_count gray width height (k mod width) (k / width)).
  destruct (windowSums gray width height (k mod width) (k / width))
    as [[sum sum2] count].
  cbn [snd]. intros ->.
  exists (25 * sum2 - sum * sum).
  unfold fsub, fmul, fdiv. rewrite !Hexact, Hfexact.
  rewrite minus_IZR, !mult_IZR. field.
Qed.

(** The scan finds the least and the greatest entry of a non-empty
    field. *)
Lemma scanRange_fold (l : list R) (a b : R) :
  exists mn mx : R,
    fold_left (fun '(mn, mx) v =>
        (match mn with
         | Some m => if Rlt_dec v m then Some v else Some m
         | None => Some v
         end,
         match mx with
         | Some m => if Rlt_dec m v then Some v else Some m
         | None => Some v
         end)) l (Some a, Some b) = (Some mn, Some mx) /\
    (mn = a \/ mn ∈ l) /\ (mx = b \/ mx ∈ l) /\
    (mn <= a)%R /\ (b <= mx)%R /\
    forall v, v ∈ l -> (mn <= v <= mx)%R.
Proof.
  revert a b. induction l as [|x l IH]; intros a b.
  - exists a, b. cbn [fold_left]. repeat split; auto; try lra;
      match goal with H : _ ∈ [] |- _ => inversion H end.
  - rewrite fold_left_cons.
    destruct (Rlt_dec x a) as [Hxa|Hxa]; destruct (Rlt_dec b x) as [Hbx|Hbx].
    + destruct (IH x x) as (mn & mx & -> & H1 & H2 & H3 & H4 & H5).
      exists mn, mx. split; [reflexivity|].
      repeat split; try lra.
      * right. destruct H1 as [->|H1];
          [apply list_elem_of_here | now apply list_elem_of_further].
      * right. destruct H2 as [->|H2];
          [apply list_elem_of_here | now apply list_elem_of_further].
      * apply elem_of_cons in H as [->|H]; [lra | apply H5, H].
      * apply elem_of_cons in H as [->|H]; [lra | apply H5, H].
    + destruct (IH x b) as (mn & mx & -> & H1 & H2 & H3 & H4 & H5).
      exists mn, mx. split; [reflexivity|].
      repeat split; try lra.
      * right. destruct H1 as [->|H1];
          [apply list_elem_of_here | now apply list_elem_of_further].
      * destruct H2 as [->|H2]; [now left | right; now apply list_elem_of_further].
      * apply elem_of_cons in H as [->|H]; [lra | apply H5, H].
      * apply elem_of_cons in H as [->|H]; [lra | apply H5, H].
    + destruct (IH a x) as (mn & mx & -> & H1 & H2 & H3 & H4 & H5).
      exists mn, mx. split; [reflexivity|].
      repeat split; try lra.
      * destruct H1 as [->|H1]; [now left | right; now apply list_elem_of_further].
      * right. destruct H2 as [->|H2];
          [apply list_elem_of_here | now apply list_elem_of_further].
      * apply elem_of_cons in H as [->|H]; [lra | apply H5, H].
      * apply elem_of_cons in H as [->|H]; [lra | apply H5, H].
    + destruct (IH a b) as (mn & mx & -> & H1 & H2 & H3 & H4 & H5).
      exists mn, mx. split; [reflexivity|].
      repeat split; try lra.
      * destruct H1 as [->|H1]; [now left | right; now apply list_elem_of_further].
      * destruct H2 as [->|H2]; [now left | right; now apply list_elem_of_further].
      * apply elem_of_cons in H as [->|H]; [lra | apply H5, H].
      * apply elem_of_cons in H as [->|H]; [lra | apply H5, H].
Qed.

Lemma scanRange_spec (variance : list R) :
  variance <> [] ->
  exists mn mx : R,
    scanRange variance = (Some mn, Some mx) /\
    mn ∈ variance /\ mx ∈ variance /\
    forall v, v ∈ variance -> (mn <= v <= mx)%R.
Proof.
  destruct variance as [|x l]; [congruence|]. intros _.
  unfold scanRange. rewrite fold_left_cons.
  destruct (scanRange_fold l x x) as (mn & mx & -> & H1 & H2 & H3 & H4 & H5).
  exists mn, mx. split; [reflexivity|].
  repeat split.
  - destruct H1 as [->|H1];
      [apply list_elem_of_here | now apply list_elem_of_further].
  - destruct H2 as [->|H2];
      [apply list_elem_of_here | now apply list_elem_of_further].
  - apply elem_of_cons in H as [->|H]; [lra | apply H5, H].
  - apply elem_of_cons in H as [->|H]; [lra | apply H5, H].
Qed.

(** In exact arithmetic a field of multiples of 1/625 that is not constant
    is stretched onto the whole of [0, 1]. *)
Lemma heatNormalize_exact (variance : list R) :
  (forall x : R, rnd x = x) -> (forall x : R, fround x = x) ->
  (forall v, v ∈ variance -> exists K : Z, v = (IZR K / 625)%R) ->
  (exists v1 v2, v1 ∈ variance /\ v2 ∈ variance /\ v1 <> v2) ->
  0%R ∈ heatNormalize variance /\ 1%R ∈ heatNormalize variance /\
  forall v, v ∈ heatNormalize variance -> (0 <= v <= 1)%R.
Proof.
  intros Hexact Hfexact Hmult (v1 & v2 & Hv1 & Hv2 & Hne).
  assert (Hnil : variance <> []) by (intros E; rewrite E in Hv1; inversion Hv1).
  destruct (scanRange_spec variance Hnil) as (mn & mx & Hscan & Hmn & Hmx & Hall).
  unfold heatNormalize. rewrite Hscan.
  assert (Hlt : (mn < mx)%R).
  { generalize (Hall v1 Hv1) (Hall v2 Hv2). intros H1 H2.
    destruct (Rlt_or_le mn mx) as [H|H]; [assumption|].
    exfalso. apply Hne. lra. }
  assert (Hgap : (/ 625 <= mx - mn)%R).
  { destruct (Hmult mn Hmn) as [K1 HK1]. destruct (Hmult mx Hmx) as [K2 HK2].
    assert (HK : K1 < K2).
    { apply lt_IZR. rewrite HK1, HK2 in Hlt. lra. }
    assert (HK' : (IZR K1 + 1 <= IZR K2)%R).
    { rewrite <- (plus_IZR K1 1). apply IZR_le. lia. }
    rewrite HK1, HK2. lra. }
  assert (Hrange : Rmax (lit 1e-6) (mx ⊖ mn) = (mx - mn)%R).
  { unfold lit, fsub. rewrite !Hexact. apply Rmax_right. lra. }
  rewrite Hrange.
  assert (Hnorm : forall v, fround ((v ⊖ mn) ⊘ (mx - mn)) = ((v - mn) / (mx - mn))%R).
  { intros v. unfold fsub, fdiv. now rewrite Hfexact, !Hexact. }
  split; [|split].
  - apply elem_of_map. exists mn. split; [|assumption].
    rewrite Hnorm. unfold Rdiv. rewrite Rminus_diag. lra.
  - apply elem_of_map. exists mx. split; [|assumption].
    rewrite Hnorm. unfold Rdiv. rewrite Rinv_r; lra.
  - intros v Hv. apply elem_of_map in Hv as (u & -> & Hu).
    rewrite Hnorm. specialize (Hall u Hu).
    assert (Hpos : (0 < / (mx - mn))%R) by (apply Rinv_0_lt_compat; lra).
    split.
    + apply Rle_mult_inv_pos; lra.
    + unfold Rdiv. rewrite <- (Rinv_r (mx - mn)) by lra.
      apply Rmult_le_compat_r; lra.
Qed.

(** *** The variance field and its normalization, in floating point *)




Lemma get_byte (a : list Z) (i : Z) : Forall is_byte a -> is_byte (get 0 a i).
Proof.
  intros H. unfold get. destruct (i <? 0); [unfold is_byte; lia|].
  destruct (le_lt_dec (length a) (Z.to_nat i)) as [Hge|Hlt].
  - rewrite nth_overflow by assumption. unfold is_byte. lia.
  - rewrite Forall_forall in H. apply H, list_elem_of_In, nth_In, Hlt.
Qed.










(** ** Further properties of the grayscale conversion *)

(** The luma of three bytes lies between any two bounds of the three. *)
Lemma luma_between_bounds (r g b m M : Z) :
  is_byte r -> is_byte g -> is_byte b ->
  m <= r <= M -> m <= g <= M -> m <= b <= M ->
  m <= luma r g b <= M.
Proof using rnd_mono rnd_dyadic.
  intros Hr Hg Hb H1 H2 H3.
  destruct (luma_sum_bounds r g b Hr Hg Hb) as [Hlo Hhi].
  unfold is_byte in *. unfold luma. apply Math_round_between.
  - assert (H : (IZR (1022 * m) <= IZR (217 * r + 732 * g + 73 * b))%R)
      by (apply IZR_le; lia).
    assert (Hm : (IZR m <= 255)%R) by (apply IZR_le; lia).
    rewrite mult_IZR in H. lra.
  - assert (H : (IZR (218 * r + 733 * g + 74 * b) <= IZR (1025 * M))%R)
      by (apply IZR_le; lia).
    assert (HM : (0 <= IZR M)%R) by (apply IZR_le; lia).
    assert (HM' : (IZR M <= 255)%R \/ (255 < IZR M)%R) by lra.
    rewrite mult_IZR in H.
    destruct HM' as [HM'|HM']; [lra|].
    assert (H' : (IZR (218 * r + 733 * g + 74 * b) <= 261375)%R)
      by (apply IZR_le; lia).
    lra.
Qed.

Lemma luma_gray (y : Z) : is_byte y -> luma y y y = y.
Proof using rnd_mono rnd_dyadic.
  intros Hy. pose proof (luma_between_bounds y y y y y Hy Hy Hy). lia.
Qed.

(** X1: in the output of [toGrayscale] on a buffer of bytes, the value of
    a pixel lies between the least and the greatest of the red, green and
    blue of the input pixel; a pixel that is gray already keeps its
    value. *)
Theorem toGrayscale_between (data : list Z) :
  Forall is_byte data ->
  forall (i : nat) (r g b : Z),
    data !! (4 * i)%nat = Some r -> data !! (4 * i + 1)%nat = Some g ->
    data !! (4 * i + 2)%nat = Some b ->
    exists y : Z,
      toGrayscale data !! (4 * i)%nat = Some y /\
      Z.min r (Z.min g b) <= y <= Z.max r (Z.max g b) /\
      (r = g -> g = b -> y = r).
Proof using rnd_mono rnd_dyadic.
  assert (Hpx : forall r g b, is_byte r -> is_byte g -> is_byte b ->
    Z.min r (Z.min g b) <= ToUint8Clamp (luma r g b) <= Z.max r (Z.max g b) /\
    (r = g -> g = b -> ToUint8Clamp (luma r g b) = r)).
  { intros r g b Hr Hg Hb.
    rewrite ToUint8Clamp_byte by now apply luma_is_byte.
    split.
    - apply luma_between_bounds; auto; lia.
    - intros <- <-. now apply luma_gray. }
  induction data as [|r0|r0 g0|r0 g0 b0|r0 g0 b0 a0 rest IH] using pixels_ind;
    intros Hbytes i r g b.
  - destruct i; discriminate.
  - intros _ H.
    replace (4 * i + 1)%nat with (Datatypes.S (4 * i)) in H by lia. discriminate.
  - intros _ _ H.
    replace (4 * i + 2)%nat with (Datatypes.S (Datatypes.S (4 * i))) in H by lia.
    discriminate.
  - apply Forall_cons in Hbytes as [Hr Hbytes].
    apply Forall_cons in Hbytes as [Hg Hbytes].
    apply Forall_cons in Hbytes as [Hb _].
    destruct i as [|i].
    + simpl. intros [= <-] [= <-] [= <-].
      eexists. split; [reflexivity|]. now apply Hpx.
    + intros H.
      replace (4 * Datatypes.S i)%nat
        with (Datatypes.S (Datatypes.S (Datatypes.S (Datatypes.S (4 * i))))) in H
        by lia.
      discriminate.
  - apply Forall_cons in Hbytes as [Hr Hbytes].
    apply Forall_cons in Hbytes as [Hg Hbytes].
    apply Forall_cons in Hbytes as [Hb Hbytes].
    apply Forall_cons in Hbytes as [Ha Hbytes].
    destruct i as [|i].
    + simpl. intros [= <-] [= <-] [= <-].
      eexists. split; [reflexivity|]. now apply Hpx.
    + replace (4 * Datatypes.S i)%nat
        with (Datatypes.S (Datatypes.S (Datatypes.S (Datatypes.S (4 * i))))) by lia.
      cbn [toGrayscale]. simpl lookup. now apply IH.
Qed.

Lemma ToUint8Clamp_idem (v : Z) : ToUint8Clamp (ToUint8Clamp v) = ToUint8Clamp v.
Proof. unfold ToUint8Clamp. lia. Qed.

(** X2: [toGrayscale] is idempotent on buffers of bytes: converting a
    converted buffer again changes nothing. *)
Theorem toGrayscale_idempotent (data : list Z) :
  Forall is_byte data ->
  toGrayscale (toGrayscale data) = toGrayscale data.
Proof using rnd_mono rnd_dyadic.
  assert (Hpx : forall r g b, is_byte r -> is_byte g -> is_byte b ->
    ToUint8Clamp (luma (ToUint8Clamp (luma r g b)) (ToUint8Clamp (luma r g b))
                       (ToUint8Clamp (luma r g b)))
    = ToUint8Clamp (luma r g b)).
  { intros r g b Hr Hg Hb.
    rewrite luma_gray by apply ToUint8Clamp_is_byte. apply ToUint8Clamp_idem. }
  induction data as [|r0|r0 g0|r0 g0 b0|r0 g0 b0 a0 rest IH] using pixels_ind;
    intros Hbytes; try reflexivity.
  - apply Forall_cons in Hbytes as [Hr Hbytes].
    apply Forall_cons in Hbytes as [Hg Hbytes].
    apply Forall_cons in Hbytes as [Hb _].
    cbn [toGrayscale]. cbv zeta. now rewrite Hpx.
  - apply Forall_cons in Hbytes as [Hr Hbytes].
    apply Forall_cons in Hbytes as [Hg Hbytes].
    apply Forall_cons in Hbytes as [Hb Hbytes].
    apply Forall_cons in Hbytes as [Ha Hbytes].
    cbn [toGrayscale]. cbv zeta.
    rewrite Hpx, ToUint8Clamp_idem, IH by assumption. reflexivity.
Qed.


(** ** Further properties of the intensity normalization *)

Lemma normalizePixel_mono (mn range y1 y2 : Z) :
  0 < range -> y1 <= y2 ->
  normalizePixel mn range y1 <= normalizePixel mn range y2.
Proof using rnd_mono.
  intros Hr Hy. unfold normalizePixel, fdiv, fmul.
  apply Math_round_mono, rnd_mono.
  apply Rmult_le_compat_r; [lra|]. apply rnd_mono.
  apply Rmult_le_compat_r.
  - apply Rlt_le, Rinv_0_lt_compat, IZR_lt. exact Hr.
  - apply IZR_le. lia.
Qed.

Lemma stretch_gray (mn range : Z) (data : list Z) :
  grayPixels (stretch mn range data).
Proof.
  induction data as [|r0|r0 g0|r0 g0 b0|r0 g0 b0 a0 rest IH] using pixels_ind;
    cbn [stretch map grayPixels]; auto.
Qed.

Lemma stretch_bytes (mn range : Z) (data : list Z) :
  Forall is_byte (stretch mn range data).
Proof.
  induction data as [|r0|r0 g0|r0 g0 b0|r0 g0 b0 a0 rest IH] using pixels_ind;
    cbn [stretch map]; repeat constructor;
    try apply ToUint8Clamp_is_byte; try exact IH.
Qed.

(** X3: [normalizeIntensity] keeps the order of the pixel values: the
    pixels of the output are gray, and a pixel that is no brighter than
    another in the input is no brighter than it in the output. *)
Theorem normalizeIntensity_monotone (data : list Z) :
  let out := normalizeIntensity data in
  grayPixels out /\
  length (lumas out) = length (lumas data) /\
  forall (i j : nat) (yi yj : Z),
    lumas data !! i = Some yi -> lumas data !! j = Some yj -> yi <= yj ->
    exists ni nj : Z,
      lumas out !! i = Some ni /\ lumas out !! j = Some nj /\ ni <= nj.
Proof using rnd_mono.
  intros out. subst out. unfold normalizeIntensity.
  destruct (scanMinMax data 255 0) as [mn mx].
  split; [apply stretch_gray|].
  rewrite stretch_lumas. split; [apply length_map|].
  intros i j yi yj Hi Hj Hle.
  exists (ToUint8Clamp (normalizePixel mn (Z.max 1 (mx - mn)) yi)),
         (ToUint8Clamp (normalizePixel mn (Z.max 1 (mx - mn)) yj)).
  change (map ?f ?l) with (f <$> l).
  rewrite !list_lookup_fmap, Hi, Hj. simpl.
  split; [reflexivity|]. split; [reflexivity|].
  assert (H := normalizePixel_mono mn (Z.max 1 (mx - mn)) yi yj).
  unfold ToUint8Clamp. lia.
Qed.

(** A byte is a fixed point of the stretch from [0, 255] to [0, 255]. *)
Lemma normalizePixel_full (n : Z) : is_byte n -> normalizePixel 0 255 n = n.
Proof using rnd_dyadic rnd_error.
  intros Hn. unfold is_byte in Hn.
  destruct (Z.eq_dec n 0) as [->|Hn0]; [apply normalizePixel_min|].
  unfold normalizePixel, fdiv, fmul. rewrite Z.sub_0_r.
  assert (HN : (1 <= IZR n <= 255)%R) by (split; apply IZR_le; lia).
  set (x := (IZR n / 255)%R).
  assert (Hx : (x * 255 = IZR n)%R) by (unfold x; field).
  assert (Hp : (0 < / 2 ^ 53)%R) by (apply Rinv_0_lt_compat; lra).
  assert (Hp' : (/ 2 ^ 53 <= / 2 ^ 10)%R).
  { apply Rinv_le_contravar; [lra|].
    replace 53%nat with (10 + 43)%nat by reflexivity. rewrite pow_add.
    assert (1 <= 2 ^ 43)%R by (apply pow_R1_Rle; lra). nra. }
  assert (H64 : (/ 2 ^ 64 <= / 2 ^ 10)%R).
  { apply Rinv_le_contravar; [lra|].
    replace 64%nat with (10 + 54)%nat by reflexivity. rewrite pow_add.
    assert (1 <= 2 ^ 54)%R by (apply pow_R1_Rle; lra). nra. }
  assert (H64' : (2 ^ 10 <= 2 ^ 64)%R).
  { replace 64%nat with (10 + 54)%nat by reflexivity. rewrite pow_add.
    assert (1 <= 2 ^ 54)%R by (apply pow_R1_Rle; lra). nra. }
  assert (Hq : (Rabs (rnd x - x) <= x / 2 ^ 53)%R).
  { apply rnd_error. lra. }
  apply Rabs_le_bounds in Hq.
  set (q := rnd x) in *.
  assert (Hxe : (0 <= x * / 2 ^ 53 <= x * / 2 ^ 10)%R) by nra.
  unfold Rdiv in Hq.
  assert (Hz : (Rabs (rnd (q * 255) - q * 255) <= q * 255 / 2 ^ 53)%R).
  { apply rnd_error. lra. }
  apply Rabs_le_bounds in Hz.
  set (z := rnd (q * 255)) in *.
  unfold Rdiv in Hz.
  assert (Hqe : (0 <= q * 255 * / 2 ^ 53 <= q * 255 * / 2 ^ 10)%R) by nra.
  apply Z.le_antisymm.
  - apply (Math_round_between z n n); lra.
  - apply (Math_round_between z n n); lra.
Qed.

(** Stretching a stretched buffer with a map that fixes its values gives
    the buffer back. *)
Lemma stretch_stretch (mn range mn2 range2 : Z) (data : list Z) :
  (forall y, y ∈ lumas data ->
     normalizePixel mn2 range2 (ToUint8Clamp (normalizePixel mn range y))
     = ToUint8Clamp (normalizePixel mn range y)) ->
  stretch mn2 range2 (stretch mn range data) = stretch mn range data.
Proof.
  induction data as [|r0|r0 g0|r0 g0 b0|r0 g0 b0 a0 rest IH] using pixels_ind;
    intros H; cbn [stretch map]; try reflexivity;
    cbn [lumas] in H; rewrite (H r0) by apply list_elem_of_here;
    rewrite !ToUint8Clamp_idem; try reflexivity.
  rewrite IH; [reflexivity|].
  intros y Hy. apply H. now apply list_elem_of_further.
Qed.

(** X4: [normalizeIntensity] is idempotent on buffers of bytes: a
    normalized buffer is its own normalization. *)
Theorem normalizeIntensity_idempotent (data : list Z) :
  Forall is_byte data ->
  normalizeIntensity (normalizeIntensity data) = normalizeIntensity data.
Proof using rnd_dyadic rnd_error.
  intros Hb.
  destruct (decide (data = [])) as [->|Hne]; [reflexivity|].
  apply lumas_nonempty in Hne.
  unfold normalizeIntensity at 2 3.
  destruct (scanMinMax data 255 0) as [mn mx] eqn:Hscan.
  destruct (scanMinMax_spec data mn mx Hb Hne Hscan) as (Hmn & Hmx & Hall).
  set (range := Z.max 1 (mx - mn)).
  unfold normalizeIntensity.
  destruct (scanMinMax (stretch mn range data) 255 0) as [mn2 mx2] eqn:Hscan2.
  assert (Hne2 : lumas (stretch mn range data) <> []).
  { rewrite stretch_lumas. destruct (lumas data); [congruence | discriminate]. }
  destruct (scanMinMax_spec _ mn2 mx2 (stretch_bytes mn range data) Hne2 Hscan2)
    as (Hmn2 & Hmx2 & Hall2).
  rewrite stretch_lumas in Hmn2, Hmx2, Hall2.
  apply stretch_stretch. intros y Hy.
  destruct (Z.eq_dec mn mx) as [Heq|Hneq].
  - assert (Hzero : forall v, v ∈ lumas data ->
              ToUint8Clamp (normalizePixel mn range v) = 0).
    { intros v Hv. specialize (Hall v Hv).
      replace v with mn by lia. now rewrite normalizePixel_min. }
    apply elem_of_map in Hmn2 as (v & -> & Hv).
    rewrite (Hzero v Hv), (Hzero y Hy). apply normalizePixel_min.
  - assert (Hlt : mn < mx) by (specialize (Hall mn Hmn); lia).
    assert (H0 : mn2 = 0).
    { assert (H : mn2 <= 0).
      { apply Hall2, elem_of_map. exists mn.
        split; [now rewrite normalizePixel_min | assumption]. }
      apply elem_of_map in Hmn2 as (v & E & _).
      pose proof (ToUint8Clamp_is_byte (normalizePixel mn range v)) as Hv.
      unfold is_byte in Hv. lia. }
    assert (H255 : mx2 = 255).
    { assert (H : 255 <= mx2).
      { apply Hall2, elem_of_map. exists mx. split; [|assumption].
        unfold range. replace (Z.max 1 (mx - mn)) with (mx - mn) by lia.
        now rewrite normalizePixel_max. }
      apply elem_of_map in Hmx2 as (v & E & _).
      pose proof (ToUint8Clamp_is_byte (normalizePixel mn range v)) as Hv.
      unfold is_byte in Hv. lia. }
    subst mn2 mx2. change (Z.max 1 (255 - 0)) with 255.
    apply normalizePixel_full, ToUint8Clamp_is_byte.
Qed.


(** ** The bins of the histogram *)

Lemma get_map {A B : Type} (d : A) (d' : B) (f : A -> B) (l : list A) (i : Z) :
  0 <= i < Z.of_nat (length l) -> get d' (map f l) i = f (get d l i).
Proof.
  intros H. unfold get. destruct (i <? 0) eqn:E; [lia|].
  rewrite (nth_indep _ d' (f d)) by (rewrite length_map; lia).
  apply map_nth.
Qed.

Lemma count_get_step (hist : list Z) (y v : Z) :
  bins_ok hist -> is_byte y -> is_byte v ->
  get 0 (set hist y (get 0 hist y + 1)) v
  = get 0 hist v + (if y =? v then 1 else 0).
Proof.
  intros [Hlen _] Hy Hv. unfold is_byte in *.
  destruct (Z.eqb_spec y v) as [->|Hne].
  - apply get_set_eq. lia.
  - rewrite get_set_ne by assumption. lia.
Qed.

Lemma histCounts_get (data hist : list Z) (count v : Z) :
  Forall is_byte data -> bins_ok hist -> is_byte v ->
  get 0 (fst (histCounts data hist count)) v
  = get 0 hist v + countZ v (lumas data).
Proof.
  revert hist count.
  induction data as [|r0|r0 g0|r0 g0 b0|r0 g0 b0 a0 rest IH] using pixels_ind;
    intros hist count Hb Hok Hv; cbn [histCounts lumas countZ fst];
    try lia;
    apply Forall_cons in Hb as [Hr Hb];
    try (rewrite count_get_step by assumption; lia).
  apply Forall_cons in Hb as [_ Hb]. apply Forall_cons in Hb as [_ Hb].
  apply Forall_cons in Hb as [_ Hb].
  rewrite IH; [|assumption|now apply count_step|assumption].
  rewrite count_get_step by assumption. lia.
Qed.

Lemma countZ_range (v : Z) (l : list Z) : 0 <= countZ v l <= Z.of_nat (length l).
Proof.
  induction l as [|y l IH]; cbn [countZ length]; [lia|].
  destruct (y =? v); lia.
Qed.

(** X5: bin [v] of [computeHistogram] is the number of pixels whose value
    is [v] divided by the number of pixels, for every byte [v] and every
    non-empty buffer of bytes. *)
Theorem computeHistogram_bins (data : list Z) (v : Z) :
  Forall is_byte data -> data <> [] -> is_byte v ->
  get 0%R (computeHistogram data) v
  = IZR (countZ v (lumas data)) ⊘ IZR (Z.of_nat (length (lumas data))) /\
  0 <= countZ v (lumas data) <= Z.of_nat (length (lumas data)).
Proof.
  intros Hb Hne Hv. split; [|apply countZ_range].
  assert (Hok : bins_ok (replicate 256 0)).
  { split; [apply length_replicate|]. apply Forall_forall.
    intros c Hc. apply elem_of_replicate in Hc as [-> _]. lia. }
  unfold computeHistogram.
  pose proof (histCounts_spec data (replicate 256 0) 0 Hb Hok) as ([Hlen _] & _ & Hc).
  pose proof (histCounts_get data (replicate 256 0) 0 v Hb Hok Hv) as Hg.
  destruct (histCounts data (replicate 256 0) 0) as [hist count].
  cbn [fst snd] in *. subst count.
  rewrite (get_map 0) by (unfold is_byte in Hv; lia).
  rewrite Hg, get_replicate. f_equal; f_equal; lia.
Qed.


(** ** Further properties of the Sobel edges and the texture energy *)

(** X6: on a buffer of bytes that holds the width x height grid, at every
    pixel that the loops of [computeSobelEdges] visit, the kernel loops
    end with both responses between -1020 and 1020, after exactly nine
    samples. *)
Theorem sobelKernelLoops_bounds (gray : list Z) (width height x y : Z) :
  Forall is_byte gray ->
  Z.of_nat (length gray) = width * height * 4 ->
  1 <= x <= width - 2 -> 1 <= y <= height - 2 ->
  exists gx gy : Z,
    sobelKernelLoops clamp gray width height x y = (gx, gy, 9) /\
    -1020 <= gx <= 1020 /\ -1020 <= gy <= 1020.
Proof.
  intros Hb _ _ _. rewrite sobelKernelLoops_spec.
  exists (sobelGx gray width height x y), (sobelGy gray width height x y).
  split; [reflexivity|].
  assert (Hs : forall u v, is_byte (sampleClamped gray width height u v)).
  { intros u v. unfold sampleClamped. now apply get_byte. }
  unfold sobelGx, sobelGy. cbv zeta.
  pose proof (Hs (x - 1) (y - 1)). pose proof (Hs x (y - 1)).
  pose proof (Hs (x + 1) (y - 1)). pose proof (Hs (x - 1) y).
  pose proof (Hs (x + 1) y). pose proof (Hs (x - 1) (y + 1)).
  pose proof (Hs x (y + 1)). pose proof (Hs (x + 1) (y + 1)).
  unfold is_byte in *. lia.
Qed.

Lemma sample_uniform (n : nat) (r g b a width height x y : Z) :
  Z.of_nat n = width * height -> 0 <= x < width -> 0 <= y < height ->
  get 0 (uniformImage n r g b a) ((y * width + x) * 4) = r.
Proof.
  intros Hn Hx Hy.
  assert (H : 0 <= y * width + x <= width * height - 1).
  { split; [nia|].
    assert (y * width <= (height - 1) * width) by nia. nia. }
  rewrite get_uniform by lia.
  destruct (Z.ltb_spec (y * width + x) (Z.of_nat n)); [reflexivity | lia].
Qed.

(** X7: an image of at least one pixel whose pixels all have one value
    has no edges and no texture: [computeSobelEdges] is 0 at every pixel
    and [computeTextureEnergy] is 0, whatever the value. *)
Theorem flat_image_no_edges (n : nat) (r g b a width height : Z) :
  1 <= width -> 1 <= height ->
  Z.of_nat n = width * height ->
  computeSobelEdges (uniformImage n r g b a) width height
  = replicate (Z.to_nat (width * height)) 0%R /\
  computeTextureEnergy (uniformImage n r g b a) width height = 0%R.
Proof using rnd_dyadic hypot_0 fround_0.
  intros _ _ Hn. split.
  - unfold computeSobelEdges, computeSobelEdgesWith.
    apply for_loop_inv; [reflexivity|]. intros y mag Hy ->.
    apply for_loop_inv; [reflexivity|]. intros x mag Hx ->.
    rewrite sobelKernelLoops_spec.
    unfold sobelGx, sobelGy, sampleClamped. cbv zeta.
    rewrite !clamp_inside by lia.
    rewrite !(sample_uniform n r g b a width height) by (assumption || lia).
    replace (- r + r - 2 * r + 2 * r - r + r) with 0 by lia.
    replace (- r - 2 * r - r + r + 2 * r + r) with 0 by lia.
    rewrite hypot_0, fround_0. apply set_replicate_same.
  - unfold computeTextureEnergy. cbv zeta.
    match goal with
    | |- IZR (for_loop 0 (height - 1) ?f 0) ⊘ _ = _ =>
        assert (H : for_loop 0 (height - 1) f 0 = 0)
    end.
    { apply for_loop_inv; [reflexivity|]. intros y e Hy ->.
      apply for_loop_inv; [reflexivity|]. intros x e Hx ->.
      replace ((y * width + x) * 4 + 4) with ((y * width + (x + 1)) * 4) by lia.
      replace ((y * width + x) * 4 + width * 4)
        with (((y + 1) * width + x) * 4) by lia.
      rewrite !(sample_uniform n r g b a width height) by (assumption || lia).
      lia. }
    rewrite H. apply fdiv_0_l.
Qed.

(** X8: the texture energy of a buffer of bytes that holds the
    width x height grid lies between 0 and 510, for every grid of at
    least one pixel. *)
Theorem computeTextureEnergy_bounds (gray : list Z) (width height : Z) :
  Forall is_byte gray -> 0 < width -> 0 < height ->
  Z.of_nat (length gray) = width * height * 4 ->
  width * height <= 2 ^ 40 ->
  (0 <= computeTextureEnergy gray width height <= 510)%R.
Proof using rnd_mono rnd_dyadic.
  intros Hb Hw Hh _ Hsz. unfold computeTextureEnergy. cbv zeta.
  match goal with
  | |- context [for_loop 0 (height - 1) ?f 0] =>
      set (energy := for_loop 0 (height - 1) f 0);
      assert (He : 0 <= energy <= 510 * ((height - 1) * (width - 1)))
  end.
  { subst energy.
    pose (Inv := fun (yi e : Z) => 0 <= e <= 510 * (yi * (width - 1))).
    apply (for_loop_ind Inv); [lia | unfold Inv; lia|].
    intros yi e Hyi He. unfold Inv in *.
    pose (Inv2 := fun (xi e : Z) =>
      0 <= e <= 510 * (yi * (width - 1)) + 510 * xi).
    assert (Hin : Inv2 (width - 1)
      (for_loop 0 (width - 1) (fun x energy =>
         energy + (Z.abs (get 0 gray ((yi * width + x) * 4)
                          - get 0 gray ((yi * width + x) * 4 + 4))
                   + Z.abs (get 0 gray ((yi * width + x) * 4)
                            - get 0 gray ((yi * width + x) * 4 + width * 4))))
         e)).
    { apply (for_loop_ind Inv2); [lia | unfold Inv2; lia|].
      intros xi e' Hxi He'. unfold Inv2 in *.
      pose proof (get_byte gray ((yi * width + xi) * 4) Hb) as H1.
      pose proof (get_byte gray ((yi * width + xi) * 4 + 4) Hb) as H2.
      pose proof (get_byte gray ((yi * width + xi) * 4 + width * 4) Hb) as H3.
      unfold is_byte in *. lia. }
    unfold Inv2 in Hin. lia. }
  assert (He' : 0 <= energy <= 510 * (width * height)) by nia.
  assert (Hn : (0 < IZR (width * height))%R) by (apply IZR_lt; nia).
  assert (H0 : (0 <= IZR energy)%R) by (apply IZR_le; lia).
  assert (H1 : (IZR energy <= 510 * IZR (width * height))%R).
  { rewrite <- (mult_IZR 510). apply IZR_le. lia. }
  unfold fdiv. split.
  - apply rnd_nonneg. apply Rmult_le_pos; [assumption|].
    apply Rlt_le, Rinv_0_lt_compat, Hn.
  - replace 510%R with (IZR 510 / 2 ^ 0)%R by (simpl; lra).
    apply rnd_le_dyadic; [lia | lia |]. simpl. unfold Rdiv.
    rewrite Rinv_1, Rmult_1_r.
    apply (Rmult_le_reg_r (IZR (width * height))); [assumption|].
    rewrite Rmult_assoc, Rinv_l by lra. lra.
Qed.


(** ** Percentiles at and beyond the ends *)

Lemma percentileIndex_low (len : Z) (p : R) :
  0 < len -> (p <= 0)%R -> percentileIndex len p = 0.
Proof using rnd_mono rnd_dyadic.
  intros Hlen Hp. unfold percentileIndex, fdiv, fmul.
  assert (H1 : (rnd (p / 100) <= 0)%R).
  { rewrite <- rnd_0. apply rnd_mono. lra. }
  assert (H2 : (0 <= IZR (len - 1))%R) by (apply IZR_le; lia).
  assert (H3 : (rnd (rnd (p / 100) * IZR (len - 1)) <= 0)%R).
  { rewrite <- rnd_0. apply rnd_mono. nra. }
  apply Math_round_mono in H3. rewrite (Math_round_IZR 0) in H3. lia.
Qed.

Lemma percentileIndex_high (len : Z) (p : R) :
  0 < len <= 2 ^ 53 -> (100 <= p)%R -> percentileIndex len p = len - 1.
Proof using rnd_mono rnd_dyadic.
  intros Hlen Hp. unfold percentileIndex, fdiv, fmul.
  assert (H1 : (1 <= rnd (p / 100))%R).
  { rewrite <- rnd_1. apply rnd_mono. lra. }
  assert (H2 : (0 <= IZR (len - 1))%R) by (apply IZR_le; lia).
  assert (H3 : (IZR (len - 1) <= rnd (rnd (p / 100) * IZR (len - 1)))%R).
  { rewrite <- (rnd_IZR (len - 1)) at 1 by lia. apply rnd_mono. nra. }
  apply Math_round_mono in H3. rewrite Math_round_IZR in H3. lia.
Qed.

Lemma percentile_elem (values : list R) (p : R) :
  values <> [] ->
  get 0%R (sort_ascending values)
    (percentileIndex (Z.of_nat (length (sort_ascending values))) p) ∈ values.
Proof.
  intros Hne.
  assert (Hlen : 0 < Z.of_nat (length (sort_ascending values))).
  { rewrite sort_ascending_length. destruct values; [congruence | simpl; lia]. }
  pose proof (percentileIndex_range _ p Hlen) as Hi.
  apply list_elem_of_In.
  apply (Permutation_in _ (Permutation_sym (sort_ascending_perm values))).
  unfold get.
  destruct (Z.ltb_spec
    (percentileIndex (Z.of_nat (length (sort_ascending values))) p) 0);
    [lia|].
  apply nth_In. lia.
Qed.

(** X9: [percentiles] returns one value per requested percentile, each of
    them one of the input values (nothing is interpolated); a percentile
    of 0 or less gives the least input value and a percentile of 100 or
    more the greatest. *)
Theorem percentiles_ends (values ps : list R) :
  values <> [] -> Z.of_nat (length values) <= 2 ^ 53 ->
  length (percentiles values ps) = length ps /\
  (forall r, r ∈ percentiles values ps -> r ∈ values) /\
  (forall p, (p <= 0)%R ->
     exists r, percentiles values [p] = [r] /\ r ∈ values /\
       forall v, v ∈ values -> (r <= v)%R) /\
  (forall p, (100 <= p)%R ->
     exists r, percentiles values [p] = [r] /\ r ∈ values /\
       forall v, v ∈ values -> (v <= r)%R).
Proof using rnd_mono rnd_dyadic.
  intros Hne Hsz.
  assert (Hlen : 0 < Z.of_nat (length (sort_ascending values)) <= 2 ^ 53).
  { rewrite sort_ascending_length. destruct values; [congruence | simpl in *; lia]. }
  assert (Hin : forall v, v ∈ values ->
    exists k, 0 <= k < Z.of_nat (length (sort_ascending values)) /\
              get 0%R (sort_ascending values) k = v).
  { intros v Hv. apply elem_of_get.
    apply list_elem_of_In.
    apply (Permutation_in _ (sort_ascending_perm values)).
    now apply list_elem_of_In. }
  split; [unfold percentiles; apply length_map|].
  split.
  { intros r Hr. unfold percentiles in Hr.
    apply elem_of_map in Hr as (p & -> & _). now apply percentile_elem. }
  split.
  - intros p Hp. eexists. split; [reflexivity|].
    split; [now apply percentile_elem|].
    intros v Hv. destruct (Hin v Hv) as (k & Hk & <-).
    rewrite percentileIndex_low by (lia || assumption).
    apply sorted_get; [apply sort_ascending_sorted | lia | lia].
  - intros p Hp. eexists. split; [reflexivity|].
    split; [now apply percentile_elem|].
    intros v Hv. destruct (Hin v Hv) as (k & Hk & <-).
    rewrite percentileIndex_high by (lia || assumption).
    apply sorted_get; [apply sort_ascending_sorted | lia | lia].
Qed.


(** ** The features are never negative *)

Lemma toGrayscale_bytes (data : list Z) : Forall is_byte (toGrayscale data).
Proof.
  induction data as [|r0|r0 g0|r0 g0 b0|r0 g0 b0 a0 rest IH] using pixels_ind;
    cbn [toGrayscale]; cbv zeta; repeat constructor;
    try apply ToUint8Clamp_is_byte; try exact IH; unfold is_byte; lia.
Qed.

Lemma toGrayscale_length (data : list Z) :
  length (toGrayscale data) = length data.
Proof.
  induction data as [|r0|r0 g0|r0 g0 b0|r0 g0 b0 a0 rest IH] using pixels_ind;
    cbn [toGrayscale length]; cbv zeta; cbn [length]; auto.
Qed.

Lemma normalizeIntensity_bytes (data : list Z) :
  Forall is_byte (normalizeIntensity data).
Proof.
  unfold normalizeIntensity. destruct (scanMinMax data 255 0) as [mn mx].
  apply stretch_bytes.
Qed.

Lemma normalizeIntensity_length (data : list Z) :
  length (normalizeIntensity data) = length data.
Proof.
  unfold normalizeIntensity. destruct (scanMinMax data 255 0) as [mn mx].
  apply stretch_length.
Qed.

Lemma histogramMean_nonneg (hist : list R) :
  Forall (fun p => (0 <= p)%R) hist -> (0 <= histogramMean hist)%R.
Proof using rnd_mono rnd_dyadic.
  intros H. unfold histogramMean.
  assert (G : forall (s : R) (i : Z), (0 <= s)%R -> 0 <= i ->
    (0 <= fst (fold_left (fun '(s, i) p => (s ⊕ p ⊗ IZR i, (i + 1)%Z)) hist
                 (s, i)))%R).
  { induction H as [|p l Hp Hl IH]; intros s i Hs Hi; [exact Hs|].
    rewrite fold_left_cons. apply IH; [|lia].
    assert (Hi' : (0 <= IZR i)%R) by (apply IZR_le; lia).
    assert (Ht : (0 <= p ⊗ IZR i)%R) by (apply rnd_nonneg; nra).
    apply rnd_nonneg. lra. }
  apply G; [lra | lia].
Qed.

Lemma fmul_square_nonneg (p d : R) : (0 <= p)%R -> (0 <= p ⊗ d ⊗ d)%R.
Proof using rnd_mono rnd_dyadic.
  intros Hp. unfold fmul.
  destruct (Rle_lt_dec 0 d) as [Hd|Hd].
  - assert (H : (0 <= rnd (p * d))%R) by (apply rnd_nonneg; nra).
    apply rnd_nonneg. nra.
  - assert (H : (rnd (p * d) <= 0)%R).
    { rewrite <- rnd_0. apply rnd_mono. nra. }
    apply rnd_nonneg. nra.
Qed.

Lemma histogramVar_nonneg (hist : list R) (mu : R) :
  Forall (fun p => (0 <= p)%R) hist -> (0 <= histogramVar hist mu)%R.
Proof using rnd_mono rnd_dyadic.
  intros H. unfold histogramVar.
  assert (G : forall (s : R) (i : Z), (0 <= s)%R ->
    (0 <= fst (fold_left (fun '(s, i) p =>
                  (s ⊕ p ⊗ (IZR i ⊖ mu) ⊗ (IZR i ⊖ mu), (i + 1)%Z)) hist
                (s, i)))%R).
  { induction H as [|p l Hp Hl IH]; intros s i Hs; [exact Hs|].
    rewrite fold_left_cons. apply IH.
    pose proof (fmul_square_nonneg p (IZR i ⊖ mu) Hp).
    apply rnd_nonneg. lra. }
  apply G. lra.
Qed.

Lemma Forall_set {A : Type} (P : A -> Prop) (a : list A) (i : Z) (v : A) :
  Forall P a -> P v -> Forall P (set a i v).
Proof.
  intros Ha Hv. unfold set. destruct (i <? 0); [exact Ha|].
  now apply Forall_insert.
Qed.

Lemma computeSobelEdges_nonneg (gray : list Z) (width height : Z) :
  Forall (fun m => (0 <= m)%R) (computeSobelEdges gray width height).
Proof using fround_0 fround_mono hypot_nonneg.
  unfold computeSobelEdges, computeSobelEdgesWith.
  apply for_loop_inv; [apply Forall_replicate; lra|]. intros y mag _ Hmag.
  apply for_loop_inv; [exact Hmag|]. intros x mag' _ Hmag'.
  destruct (sobelKernelLoops clamp gray width height x y) as [[gx gy] idx].
  apply Forall_set; [exact Hmag'|].
  rewrite <- fround_0. apply fround_mono, hypot_nonneg.
Qed.

Lemma fdiv_nonneg (x : R) (n : Z) : (0 <= x)%R -> 0 <= n -> (0 <= x ⊘ IZR n)%R.
Proof using rnd_mono rnd_dyadic.
  intros Hx Hn. unfold fdiv. apply rnd_nonneg.
  destruct (Z.eq_dec n 0) as [->|Hn0].
  - unfold Rdiv. rewrite Rinv_0. lra.
  - apply Rle_mult_inv_pos; [exact Hx | apply IZR_lt; lia].
Qed.

Lemma computeTextureEnergy_nonneg (gray : list Z) (width height : Z) :
  0 <= width * height -> (0 <= computeTextureEnergy gray width height)%R.
Proof using rnd_mono rnd_dyadic.
  intros Hsz. unfold computeTextureEnergy. cbv zeta.
  apply fdiv_nonneg; [|exact Hsz]. apply IZR_le.
  apply for_loop_inv; [lia|]. intros y e _ He.
  apply for_loop_inv; [exact He|]. intros x e' _ He'. lia.
Qed.

Lemma mean_nonneg (values : list R) :
  Forall (fun v => (0 <= v)%R) values -> (0 <= mean values)%R.
Proof using rnd_mono rnd_dyadic.
  intros H. unfold mean. cbv zeta. apply fdiv_nonneg; [|lia].
  assert (G : forall s : R, (0 <= s)%R ->
    (0 <= fold_left (fun s v => s ⊕ v) values s)%R).
  { induction H as [|v l Hv Hl IH]; intros s Hs; [exact Hs|].
    rewrite fold_left_cons. apply IH. apply rnd_nonneg. lra. }
  apply G. lra.
Qed.

Lemma std_nonneg (values : list R) (mu : option R) : (0 <= std values mu)%R.
Proof using rnd_mono rnd_dyadic.
  unfold std, Math_sqrt. cbv zeta. apply rnd_nonneg, sqrt_pos.
Qed.

Lemma get_nonneg (l : list R) (i : Z) :
  Forall (fun v => (0 <= v)%R) l -> (0 <= get 0 l i)%R.
Proof.
  intros H. unfold get. destruct (i <? 0); [lra|].
  destruct (le_lt_dec (length l) (Z.to_nat i)) as [Hge|Hlt].
  - rewrite nth_overflow by assumption. lra.
  - rewrite Forall_forall in H. apply H, list_elem_of_In, nth_In, Hlt.
Qed.

Lemma percentiles_nonneg (values ps : list R) :
  Forall (fun v => (0 <= v)%R) values ->
  Forall (fun v => (0 <= v)%R) (percentiles values ps).
Proof.
  intros H. unfold percentiles. apply Forall_forall. intros r Hr.
  apply elem_of_map in Hr as (p & -> & _).
  apply get_nonneg.
  apply Forall_forall. intros v Hv. rewrite Forall_forall in H. apply H.
  apply list_elem_of_In.
  apply (Permutation_in _ (Permutation_sym (sort_ascending_perm values))).
  now apply list_elem_of_In.
Qed.

(** The features of a non-empty normalized buffer, one by one. *)
Lemma extractFeatures_nonneg (norm : list Z) :
  Forall is_byte norm -> norm <> [] ->
  exists f1 f2 f3 f4 f5 f6 f7 f8 f9 : R,
    extractFeatures norm
    = [("histMean", f1); ("histVar", f2); ("histEntropy", f3);
       ("edgeMean", f4); ("edgeStd", f5); ("edgeP50", f6); ("edgeP90", f7);
       ("edgeP99", f8); ("textureE", f9)]%string /\
    (0 <= f1)%R /\ (0 <= f2)%R /\ (0 <= f3)%R /\ (0 <= f4)%R /\ (0 <= f5)%R /\
    (0 <= f6)%R /\ (0 <= f7)%R /\ (0 <= f8)%R /\ (0 <= f9)%R.
Proof using rnd_mono rnd_dyadic log2_nonpos fround_0 fround_mono hypot_nonneg.
  intros Hb Hne.
  pose proof (computeHistogram_fractions norm Hb Hne) as Hfr.
  assert (Hpos : Forall (fun p => (0 <= p)%R) (computeHistogram norm)).
  { eapply Forall_impl; [exact Hfr|]. intros p Hp. simpl in Hp. lra. }
  pose proof (computeSobelEdges_nonneg norm size size) as He.
  pose proof (percentiles_nonneg _ [50; 90; 99]%R He) as Hps.
  unfold extractFeatures. cbv zeta.
  do 9 eexists. split; [reflexivity|].
  repeat split.
  - now apply histogramMean_nonneg.
  - now apply histogramVar_nonneg.
  - unfold histogramEntropy.
    generalize (entropy_fold_nonpos (computeHistogram norm) 0 Hfr (Rle_refl 0)).
    lra.
  - now apply mean_nonneg.
  - apply std_nonneg.
  - now apply get_nonneg.
  - now apply get_nonneg.
  - now apply get_nonneg.
  - apply computeTextureEnergy_nonneg. unfold size. lia.
Qed.

Lemma pipeline_norm (imageData : list Z) :
  Z.of_nat (length imageData) = 4 * size * size ->
  Forall is_byte (normalizeIntensity (toGrayscale imageData)) /\
  normalizeIntensity (toGrayscale imageData) <> [].
Proof.
  intros Hlen. split; [apply normalizeIntensity_bytes|].
  intros E. apply (f_equal (@length Z)) in E.
  rewrite normalizeIntensity_length, toGrayscale_length in E.
  unfold size in Hlen. simpl in E. lia.
Qed.

(** X10: for the pixels of a 256 x 256 canvas the record of features has
    the nine keys in the order of the source and no feature is
    negative. *)
Theorem analyzeCtVsMri_features_nonneg (imageData : list Z) :
  Z.of_nat (length imageData) = 4 * size * size ->
  let fs := features (analyzeCtVsMri imageData) in
  map fst fs
  = ["histMean"; "histVar"; "histEntropy"; "edgeMean"; "edgeStd"; "edgeP50";
     "edgeP90"; "edgeP99"; "textureE"]%string /\
  Forall (fun kv => (0 <= snd kv)%R) fs.
Proof using rnd_mono rnd_dyadic log2_nonpos fround_0 fround_mono hypot_nonneg.
  intros Hlen fs. subst fs.
  destruct (pipeline_norm imageData Hlen) as [Hb Hne].
  destruct (extractFeatures_nonneg _ Hb Hne)
    as (f1 & f2 & f3 & f4 & f5 & f6 & f7 & f8 & f9 & E & H).
  unfold analyzeCtVsMri, classify. cbv zeta. cbn [features].
  rewrite E. split; [reflexivity|].
  repeat (apply Forall_cons; split; [simpl; tauto|]). apply Forall_nil_2.
Qed.


(** ** What the classifier needs to answer MRI *)

Lemma logistic_le_half (x : R) : (x <= 0)%R -> (logistic x <= 0.5)%R.
Proof using rnd_mono rnd_dyadic exp_ge_1.
  intros Hx. unfold logistic, fdiv, fadd.
  assert (H1 : (2 <= rnd (1 + Math_exp (- x)))%R).
  { rewrite <- (rnd_IZR 2) at 1 by lia. apply rnd_mono.
    generalize (exp_ge_1 (- x)). lra. }
  set (d := rnd (1 + Math_exp (- x))) in *.
  rewrite <- rnd_half. apply rnd_mono.
  assert (H2 : (/ d <= / 2)%R) by (apply Rinv_le_contravar; lra).
  lra.
Qed.

Lemma negative_weight_term (f c : R) :
  (0 <= f)%R -> (0 <= c)%R -> (f ⊗ - lit c <= 0)%R.
Proof using rnd_mono rnd_dyadic.
  intros Hf Hc. unfold fmul, lit.
  assert (H : (0 <= rnd c)%R) by now apply rnd_nonneg.
  rewrite <- rnd_0. apply rnd_mono. nra.
Qed.

Lemma fadd_nonpos_term (z t : R) : (t <= 0)%R -> (rnd z ⊕ t <= rnd z)%R.
Proof using rnd_mono rnd_idem.
  intros Ht. unfold fadd. rewrite <- (rnd_idem z) at 2. apply rnd_mono. lra.
Qed.

(** The score is at most what the bias and the entropy term alone give:
    every other weight is negative and no feature is. *)
Lemma classifierScore_le (f1 f2 f3 f4 f5 f6 f7 f8 f9 : R) :
  (0 <= f1)%R -> (0 <= f2)%R -> (0 <= f4)%R -> (0 <= f5)%R -> (0 <= f6)%R ->
  (0 <= f7)%R -> (0 <= f8)%R -> (0 <= f9)%R ->
  (classifierScore
     [("histMean", f1); ("histVar", f2); ("histEntropy", f3);
      ("edgeMean", f4); ("edgeStd", f5); ("edgeP50", f6); ("edgeP90", f7);
      ("edgeP99", f8); ("textureE", f9)]%string
   <= bias ⊕ f3 ⊗ lit 0.8)%R.
Proof using rnd_mono rnd_dyadic rnd_idem.
  intros H1 H2 H4 H5 H6 H7 H8 H9.
  unfold classifierScore, weights.
  cbn [map fst fold_left field String.eqb Ascii.eqb Bool.eqb].
  assert (Hb : rnd bias = bias) by (unfold bias; apply (rnd_IZR (-1)); lia).
  pose proof (negative_weight_term f1 0.01 H1 ltac:(lra)) as T1.
  pose proof (negative_weight_term f2 0.002 H2 ltac:(lra)) as T2.
  pose proof (negative_weight_term f4 0.015 H4 ltac:(lra)) as T4.
  pose proof (negative_weight_term f5 0.02 H5 ltac:(lra)) as T5.
  pose proof (negative_weight_term f6 0.001 H6 ltac:(lra)) as T6.
  pose proof (negative_weight_term f7 0.0008 H7 ltac:(lra)) as T7.
  pose proof (negative_weight_term f8 0.0005 H8 ltac:(lra)) as T8.
  pose proof (negative_weight_term f9 0.004 H9 ltac:(lra)) as T9.
  set (t1 := f1 ⊗ - lit 0.01) in *. set (t2 := f2 ⊗ - lit 0.002) in *.
  set (t3 := f3 ⊗ lit 0.8). set (t4 := f4 ⊗ - lit 0.015) in *.
  set (t5 := f5 ⊗ - lit 0.02) in *. set (t6 := f6 ⊗ - lit 0.001) in *.
  set (t7 := f7 ⊗ - lit 0.0008) in *. set (t8 := f8 ⊗ - lit 0.0005) in *.
  set (t9 := f9 ⊗ - lit 0.004) in *.
  assert (S1 : (bias ⊕ t1 <= bias)%R).
  { rewrite <- Hb. now apply fadd_nonpos_term. }
  assert (S2 : (bias ⊕ t1 ⊕ t2 <= bias)%R).
  { eapply Rle_trans; [|exact S1]. now apply fadd_nonpos_term. }
  assert (S3 : (bias ⊕ t1 ⊕ t2 ⊕ t3 <= bias ⊕ t3)%R).
  { unfold fadd at 1 4. apply rnd_mono. lra. }
  eapply Rle_trans; [|exact S3].
  eapply Rle_trans; [now apply fadd_nonpos_term|].
  eapply Rle_trans; [now apply fadd_nonpos_term|].
  eapply Rle_trans; [now apply fadd_nonpos_term|].
  eapply Rle_trans; [now apply fadd_nonpos_term|].
  eapply Rle_trans; [now apply fadd_nonpos_term|].
  now apply fadd_nonpos_term.
Qed.

Lemma entropy_term_needed (f3 : R) :
  (0 <= f3)%R -> (0 < bias ⊕ f3 ⊗ lit 0.8)%R -> (1.24 < f3)%R.
Proof using rnd_mono rnd_dyadic.
  intros H3 Hs. destruct (Rlt_le_dec 1.24 f3) as [H|H]; [exact H | exfalso].
  assert (Hw : (0 <= lit 0.8 <= IZR 820 / 2 ^ 10)%R).
  { unfold lit. split; [apply rnd_nonneg; lra|].
    apply rnd_le_dyadic; [lia | lia | lra]. }
  assert (Ht : (f3 ⊗ lit 0.8 <= 1)%R).
  { unfold fmul. rewrite <- rnd_1. apply rnd_mono. nra. }
  assert (Hs' : (bias ⊕ f3 ⊗ lit 0.8 <= 0)%R).
  { unfold fadd, bias. rewrite <- rnd_0. apply rnd_mono. lra. }
  lra.
Qed.

(** X11: the answer is MRI only if the score is positive, and the score
    of the pixels of a 256 x 256 canvas is positive only if the entropy of
    the histogram is above 1.24 bits: the entropy is the one feature with
    a positive weight.  In exact arithmetic a positive score is also
    enough for MRI. *)
Theorem analyzeCtVsMri_MRI_needs_entropy (imageData : list Z) :
  Z.of_nat (length imageData) = 4 * size * size ->
  let result := analyzeCtVsMri imageData in
  let score := classifierScore (features result) in
  (modality result = MRI -> (0 < score)%R) /\
  ((0 < score)%R -> (1.24 < field "histEntropy" (features result))%R) /\
  ((forall x : R, rnd x = x) -> (forall x : R, Math_exp x = exp x) ->
   (0 < score)%R -> modality result = MRI).
Proof using rnd_mono rnd_dyadic rnd_idem exp_ge_1 log2_nonpos fround_0
  fround_mono hypot_nonneg.
  intros Hlen result score. subst score result.
  destruct (pipeline_norm imageData Hlen) as [Hb Hne].
  destruct (extractFeatures_nonneg _ Hb Hne)
    as (f1 & f2 & f3 & f4 & f5 & f6 & f7 & f8 & f9 & E & H).
  unfold analyzeCtVsMri, classify. cbv zeta. cbn [features modality].
  rewrite E. clear E.
  set (fs := [("histMean", f1); ("histVar", f2); ("histEntropy", f3);
              ("edgeMean", f4); ("edgeStd", f5); ("edgeP50", f6);
              ("edgeP90", f7); ("edgeP99", f8); ("textureE", f9)]%string).
  assert (Hle : (classifierScore fs <= bias ⊕ f3 ⊗ lit 0.8)%R).
  { apply classifierScore_le; tauto. }
  split; [|split].
  - destruct (Rlt_dec 0.5 (logistic (classifierScore fs))) as [Hp|Hp];
      [intros _ | discriminate].
    destruct (Rlt_le_dec 0 (classifierScore fs)) as [Hs|Hs]; [exact Hs|].
    apply logistic_le_half in Hs. lra.
  - intros Hs.
    change (field "histEntropy" fs) with f3.
    apply entropy_term_needed; [tauto | lra].
  - intros Hexact Hexp Hs.
    destruct (Rlt_dec 0.5 (logistic (classifierScore fs))) as [Hp|Hp];
      [reflexivity | exfalso; apply Hp].
    unfold logistic, fdiv, fadd. rewrite !Hexact, Hexp.
    assert (H1 : (0 < exp (- classifierScore fs))%R) by apply exp_pos.
    assert (H2 : (exp (- classifierScore fs) < 1)%R).
    { rewrite <- exp_0. apply exp_increasing. lra. }
    assert (H3 : (/ 2 < / (1 + exp (- classifierScore fs)))%R).
    { apply Rinv_lt_contravar; [|lra]. nra. }
    lra.
Qed.


(** ** The analysis never looks at the alpha channel *)

Lemma get_lumas (data : list Z) (k : Z) :
  get 0 data (k * 4) = get 0 (lumas data) k.
Proof.
  unfold get.
  destruct (Z.ltb_spec k 0) as [Hk|Hk];
    destruct (Z.ltb_spec (k * 4) 0) as [Hk'|Hk']; try lia.
  replace (Z.to_nat (k * 4)) with (4 * Z.to_nat k)%nat by lia.
  generalize (Z.to_nat k). clear k Hk Hk'. intros k. revert k.
  induction data as [|r0|r0 g0|r0 g0 b0|r0 g0 b0 a0 rest IH] using pixels_ind;
    intros k; cbn [lumas].
  - destruct (4 * k)%nat, k; reflexivity.
  - destruct k as [|k]; [reflexivity|].
    replace (4 * Datatypes.S k)%nat
      with (Datatypes.S (Datatypes.S (Datatypes.S (Datatypes.S (4 * k))))) by lia.
    cbn [nth]. destruct k; reflexivity.
  - destruct k as [|k]; [reflexivity|].
    replace (4 * Datatypes.S k)%nat
      with (Datatypes.S (Datatypes.S (Datatypes.S (Datatypes.S (4 * k))))) by lia.
    cbn [nth]. destruct k; reflexivity.
  - destruct k as [|k]; [reflexivity|].
    replace (4 * Datatypes.S k)%nat
      with (Datatypes.S (Datatypes.S (Datatypes.S (Datatypes.S (4 * k))))) by lia.
    cbn [nth]. destruct k; reflexivity.
  - destruct k as [|k]; [reflexivity|].
    replace (4 * Datatypes.S k)%nat
      with (Datatypes.S (Datatypes.S (Datatypes.S (Datatypes.S (4 * k))))) by lia.
    cbn [nth]. apply IH.
Qed.

Lemma histCounts_lumas (data hist : list Z) (count : Z) :
  histCounts data hist count
  = fold_left (fun '(hist, count) v => (set hist v (get 0 hist v + 1), count + 1))
      (lumas data) (hist, count).
Proof.
  revert hist count.
  induction data as [|r0|r0 g0|r0 g0 b0|r0 g0 b0 a0 rest IH] using pixels_ind;
    intros hist count; cbn [histCounts lumas fold_left]; try reflexivity.
  apply IH.
Qed.

(** What the feature extractors read of a buffer is its luma channel. *)
Lemma extractFeatures_lumas (d1 d2 : list Z) :
  lumas d1 = lumas d2 -> extractFeatures d1 = extractFeatures d2.
Proof.
  intros H.
  assert (Hget : forall k, get 0 d1 (k * 4) = get 0 d2 (k * 4)).
  { intros k. now rewrite !get_lumas, H. }
  assert (Hhist : computeHistogram d1 = computeHistogram d2).
  { unfold computeHistogram. now rewrite !histCounts_lumas, H. }
  assert (Hedges : forall w h, computeSobelEdges d1 w h = computeSobelEdges d2 w h).
  { intros w h. unfold computeSobelEdges, computeSobelEdgesWith.
    apply for_loop_ext. intros y mag _.
    apply for_loop_ext. intros x mag' _.
    rewrite !sobelKernelLoops_spec.
    unfold sobelGx, sobelGy, sampleClamped. cbv zeta.
    now rewrite !Hget. }
  assert (Htex : forall w h,
    computeTextureEnergy d1 w h = computeTextureEnergy d2 w h).
  { intros w h. unfold computeTextureEnergy. cbv zeta. f_equal. f_equal.
    apply for_loop_ext. intros y e _.
    apply for_loop_ext. intros x e' _.
    replace ((y * w + x) * 4 + 4) with ((y * w + x + 1) * 4) by lia.
    replace ((y * w + x) * 4 + w * 4) with ((y * w + x + w) * 4) by lia.
    now rewrite !Hget. }
  unfold extractFeatures. now rewrite Hhist, Hedges, Htex.
Qed.

Lemma normalizeIntensity_lumas (d1 d2 : list Z) :
  lumas d1 = lumas d2 ->
  lumas (normalizeIntensity d1) = lumas (normalizeIntensity d2).
Proof.
  intros H. unfold normalizeIntensity.
  rewrite !scanMinMax_fold, !stretch_lumas, H. reflexivity.
Qed.

Lemma toGrayscale_sameColour (d1 d2 : list Z) :
  sameColour d1 d2 -> lumas (toGrayscale d1) = lumas (toGrayscale d2).
Proof.
  revert d2.
  induction d1 as [|r0|r0 g0|r0 g0 b0|r0 g0 b0 a0 rest IH] using pixels_ind;
    intros d2 H.
  - destruct d2; [reflexivity | contradiction].
  - destruct d2; contradiction.
  - destruct d2; contradiction.
  - destruct d2; contradiction.
  - destruct d2 as [|r2 [|g2 [|b2 [|a2 rest2]]]]; try contradiction.
    destruct H as (-> & -> & -> & H).
    cbn [toGrayscale lumas]. cbv zeta. cbn [lumas]. f_equal. now apply IH.
Qed.

(** X12: the analysis does not depend on the alpha channel: two canvases
    with the same red, green and blue at every pixel get the same
    modality, confidence and features. *)
Theorem analyzeCtVsMri_ignores_alpha (d1 d2 : list Z) :
  Z.of_nat (length d1) = 4 * size * size -> sameColour d1 d2 ->
  analyzeCtVsMri d1 = analyzeCtVsMri d2.
Proof.
  intros _ H. unfold analyzeCtVsMri. cbv zeta. f_equal.
  apply extractFeatures_lumas, normalizeIntensity_lumas.
  now apply toGrayscale_sameColour.
Qed.


(** ** Further properties of the heatmap *)

(** X13: whatever the variance field and however the operations round,
    the normalized field has one entry per pixel, every entry lies
    between 0 and 1, and a constant field is normalized to 0
    everywhere. *)
Theorem heatNormalize_unit_interval (variance : list R) :
  length (heatNormalize variance) = length variance /\
  Forall (fun v => (0 <= v <= 1)%R) (heatNormalize variance) /\
  ((forall v w, v ∈ variance -> w ∈ variance -> v = w) ->
   Forall (fun v => v = 0%R) (heatNormalize variance)).
Proof using rnd_mono rnd_dyadic fround_0 fround_1 fround_mono.
  destruct (decide (variance = [])) as [->|Hne].
  { repeat split; [constructor | intros _; constructor]. }
  destruct (scanRange_spec variance Hne) as (mn & mx & Hscan & Hmn & Hmx & Hall).
  unfold heatNormalize. rewrite Hscan. cbv zeta.
  set (range := Rmax (lit 1e-6) (mx ⊖ mn)).
  split; [apply length_map|]. split.
  - apply Forall_forall. intros n Hn.
    apply elem_of_map in Hn as (v & -> & Hv).
    specialize (Hall v Hv).
    assert (Ha : (0 <= v ⊖ mn)%R).
    { unfold fsub. apply rnd_nonneg. lra. }
    assert (Hr : (v ⊖ mn <= range)%R).
    { unfold range. eapply Rle_trans; [|apply Rmax_r].
      unfold fsub. apply rnd_mono. lra. }
    assert (Hq : (0 <= (v ⊖ mn) / range <= 1)%R).
    { destruct (Req_dec range 0) as [E|E].
      - rewrite E. unfold Rdiv. rewrite Rinv_0. lra.
      - assert (Hpos : (0 < range)%R) by lra.
        assert (Hinv : (0 < / range)%R) by now apply Rinv_0_lt_compat.
        split; [unfold Rdiv; nra|].
        apply (Rmult_le_reg_r range); [exact Hpos|].
        unfold Rdiv. rewrite Rmult_assoc, Rinv_l by exact E. lra. }
    assert (Hq' : (0 <= (v ⊖ mn) ⊘ range <= 1)%R).
    { unfold fdiv. split; [apply rnd_nonneg; lra|].
      rewrite <- rnd_1. apply rnd_mono. lra. }
    split.
    + rewrite <- fround_0. apply fround_mono. lra.
    + rewrite <- fround_1. apply fround_mono. lra.
  - intros Hconst. apply Forall_forall. intros n Hn.
    apply elem_of_map in Hn as (v & -> & Hv).
    rewrite (Hconst v mn Hv Hmn).
    unfold fsub. rewrite Rminus_diag, rnd_0, fdiv_0_l. apply fround_0.
Qed.

Lemma colormap_bytes (v : R) :
  let '(r, g, b) := colormap v in is_byte r /\ is_byte g /\ is_byte b.
Proof. unfold colormap, is_byte. cbv zeta. lia. Qed.

(** The heatmap, pixel by pixel. *)
Lemma drawGradCAMLikeHeatmap_get (data : list Z) (width height : Z) :
  0 <= width -> 0 <= height ->
  let norm := heatNormalize (localVariance (copyLuma data) width height) in
  let out := drawGradCAMLikeHeatmap data width height in
  Z.of_nat (length out) = width * height * 4 /\
  forall x y c, 0 <= x < width -> 0 <= y < height -> 0 <= c < 4 ->
    get 0 out ((y * width + x) * 4 + c)
    = let '(r, g, b) := colormap (get 0%R norm (y * width + x)) in
      get 0 [r; g; b; 180] c.
Proof.
  intros Hw Hh norm out. subst out. unfold drawGradCAMLikeHeatmap. cbv zeta.
  fold norm.
  set (a0 := replicate (Z.to_nat (width * height * 4)) 0).
  assert (Hl0 : Z.of_nat (length a0) = width * height * 4).
  { unfold a0. rewrite length_replicate. nia. }
  destruct (grid_loop_get 0 width height 4
              (fun x y out =>
                 let '(r, g, b) := colormap (get 0%R norm (y * width + x)) in
                 set (set (set (set out ((y * width + x) * 4) (ToUint8Clamp r))
                            ((y * width + x) * 4 + 1) (ToUint8Clamp g))
                       ((y * width + x) * 4 + 2) (ToUint8Clamp b))
                   ((y * width + x) * 4 + 3) (ToUint8Clamp 180))
              (fun x y c =>
                 let '(r, g, b) := colormap (get 0%R norm (y * width + x)) in
                 get 0 [r; g; b; 180] c)
              0 height 0 width a0) as [Hlen' Hget]; try lia.
  - intros x y out.
    destruct (colormap (get 0%R norm (y * width + x))) as [[r g] b].
    now rewrite !length_set.
  - intros x y out k Hx Hy Hlo Hk.
    pose proof (colormap_bytes (get 0%R norm (y * width + x))) as Hbytes.
    destruct (colormap (get 0%R norm (y * width + x))) as [[r g] b].
    destruct Hbytes as (Hr & Hg & Hb).
    rewrite !ToUint8Clamp_byte by (assumption || (unfold is_byte; lia)).
    apply get_set4; [nia | rewrite Hlo; nia].
  - split; [now rewrite Hlen'|].
    intros x y c Hx Hy Hc. rewrite Hget by assumption.
    bool_cases; try lia; reflexivity.
Qed.

(** X14: the heatmap has four bytes for each pixel of the grid; the first
    three are the colour that [colormap] gives the normalized variance at
    the pixel, and the alpha of every pixel is 180. *)
Theorem drawGradCAMLikeHeatmap_pixels (data : list Z) (width height : Z) :
  0 <= width -> 0 <= height ->
  Z.of_nat (length data) = width * height * 4 ->
  let norm := heatNormalize (localVariance (copyLuma data) width height) in
  let out := drawGradCAMLikeHeatmap data width height in
  Z.of_nat (length out) = width * height * 4 /\
  forall x y, 0 <= x < width -> 0 <= y < height ->
    let j := (y * width + x) * 4 in
    (get 0 out j, get 0 out (j + 1), get 0 out (j + 2))
    = colormap (get 0%R norm (y * width + x)) /\
    get 0 out (j + 3) = 180 /\
    is_byte (get 0 out j) /\ is_byte (get 0 out (j + 1)) /\
    is_byte (get 0 out (j + 2)).
Proof.
  intros Hw Hh _ norm out.
  destruct (drawGradCAMLikeHeatmap_get data width height Hw Hh) as [Hlen Hget].
  fold norm out in Hlen, Hget. split; [exact Hlen|].
  intros x y Hx Hy j. subst j.
  generalize (Hget x y 0 Hx Hy ltac:(lia)) (Hget x y 1 Hx Hy ltac:(lia))
             (Hget x y 2 Hx Hy ltac:(lia)) (Hget x y 3 Hx Hy ltac:(lia)).
  rewrite Z.add_0_r.
  pose proof (colormap_bytes (get 0%R norm (y * width + x))) as Hbytes.
  destruct (colormap (get 0%R norm (y * width + x))) as [[r g] b].
  intros -> -> -> ->. cbn [get Z.ltb Z.compare Z.to_nat nth Pos.to_nat
    Pos.iter_op Init.Nat.add]. tauto.
Qed.

Lemma colormap_1 : colormap 1 = (255, 0, 0).
Proof using rnd_dyadic pow_1.
  unfold colormap. rewrite !pow_1.
  assert (H1 : 1 ⊖ 1 = 0%R) by (unfold fsub; now rewrite Rminus_diag, rnd_0).
  rewrite H1, !fmul_0_r.
  assert (H2 : 255 ⊗ 1 = 255%R).
  { unfold fmul. rewrite Rmult_1_r. apply (rnd_IZR 255). lia. }
  rewrite H2, (Math_round_IZR 255), (Math_round_IZR 0). reflexivity.
Qed.

Lemma grid_cell (w h k : Z) :
  0 < w -> 0 <= k < w * h ->
  exists x y, 0 <= x < w /\ 0 <= y < h /\ k = y * w + x.
Proof.
  intros Hw Hk.
  exists (k mod w), (k / w).
  pose proof (Z.mod_pos_bound k w Hw). pose proof (Z.div_mod k w ltac:(lia)).
  pose proof (Z.div_pos k w ltac:(lia) Hw).
  assert (k / w < h) by (apply Z.div_lt_upper_bound; nia).
  repeat split; lia.
Qed.

(** X15: in exact arithmetic the heatmap of an image whose local variance
    is not the same everywhere uses both ends of the colour scale: some
    pixel is pure blue (0, 0, 255), where the variance is least, and some
    pixel is pure red (255, 0, 0), where it is greatest. *)
Theorem drawGradCAMLikeHeatmap_full_scale (data : list Z) (width height : Z) :
  1 <= width -> 1 <= height ->
  Z.of_nat (length data) = width * height * 4 ->
  (forall x : R, rnd x = x) -> (forall x : R, fround x = x) ->
  let variance := localVariance (copyLuma data) width height in
  let out := drawGradCAMLikeHeatmap data width height in
  (exists v1 v2, v1 ∈ variance /\ v2 ∈ variance /\ v1 <> v2) ->
  (exists x y, 0 <= x < width /\ 0 <= y < height /\
     get 0 out ((y * width + x) * 4) = 0 /\
     get 0 out ((y * width + x) * 4 + 1) = 0 /\
     get 0 out ((y * width + x) * 4 + 2) = 255) /\
  (exists x y, 0 <= x < width /\ 0 <= y < height /\
     get 0 out ((y * width + x) * 4) = 255 /\
     get 0 out ((y * width + x) * 4 + 1) = 0 /\
     get 0 out ((y * width + x) * 4 + 2) = 0).
Proof using rnd_mono rnd_dyadic pow_0 pow_1.
  intros Hw Hh _ Hexact Hfexact variance out Hne.
  destruct (drawGradCAMLikeHeatmap_get data width height) as [_ Hget]; try lia.
  fold variance out in Hget.
  destruct (localVariance_get (copyLuma data) width height) as [Hlv _]; try lia.
  fold variance in Hlv.
  destruct (heatNormalize_exact variance Hexact Hfexact) as (H0 & H1 & _);
    [|exact Hne|].
  { intros v Hv. now apply (localVariance_exact (copyLuma data) width height). }
  assert (Hln : Z.of_nat (length (heatNormalize variance)) = width * height).
  { rewrite <- Hlv. f_equal.
    destruct (decide (variance = [])) as [E|E].
    - rewrite E. reflexivity.
    - destruct (scanRange_spec variance E) as (mn & mx & Hscan & _).
      unfold heatNormalize. rewrite Hscan. apply length_map. }
  split.
  - apply (elem_of_get 0%R) in H0 as (k & Hk & Hk0).
    destruct (grid_cell width height k) as (x & y & Hx & Hy & ->); [lia | lia|].
    exists x, y. split; [exact Hx|]. split; [exact Hy|].
    generalize (Hget x y 0 Hx Hy ltac:(lia)) (Hget x y 1 Hx Hy ltac:(lia))
               (Hget x y 2 Hx Hy ltac:(lia)).
    rewrite Z.add_0_r, Hk0, colormap_0. intros -> -> ->.
    repeat split; reflexivity.
  - apply (elem_of_get 0%R) in H1 as (k & Hk & Hk1).
    destruct (grid_cell width height k) as (x & y & Hx & Hy & ->); [lia | lia|].
    exists x, y. split; [exact Hx|]. split; [exact Hy|].
    generalize (Hget x y 0 Hx Hy ltac:(lia)) (Hget x y 1 Hx Hy ltac:(lia))
               (Hget x y 2 Hx Hy ltac:(lia)).
    rewrite Z.add_0_r, Hk1, colormap_1. intros -> -> ->.
    repeat split; reflexivity.
Qed.

(** ** The page component *)

Lemma canAnalyze_idle (s : PageState) :
  canAnalyze s = true -> isProcessing s = false.
Proof.
  unfold canAnalyze. destruct (imageUrl s) as [url|]; [|discriminate].
  destruct (isProcessing s); [|reflexivity].
  rewrite andb_false_r. discriminate.
Qed.

Lemma pageStep_invariant (ev : PageEvent) (r r' : Running) :
  page_invariant r -> pageStep ev r = Some r' -> page_invariant r'.
Proof.
  unfold page_invariant. intros [Hinv Herr] Hstep.
  destruct ev as [file|refs|res|err| |err]; cbn [pageStep] in Hstep.
  - injection Hstep as <-. cbn [page awaitingAnalysis awaitingHeatmap].
    destruct file; [|now split].
    cbn [onFileChange setError setResult setImageUrl isProcessing error].
    now split.
  - destruct (canAnalyze (page r)) eqn:Hcan; [|discriminate].
    apply canAnalyze_idle in Hcan. rewrite Hcan in Hinv.
    destruct refs; injection Hstep as <-.
    + cbn [page awaitingAnalysis awaitingHeatmap onAnalyze_start setError
           setIsProcessing isProcessing error]. split; [lia | reflexivity].
    + rewrite Hcan. split; [exact Hinv | discriminate].
  - destruct (awaitingAnalysis r) as [|n] eqn:E; [discriminate|].
    injection Hstep as <-.
    cbn [page awaitingAnalysis awaitingHeatmap setResult isProcessing error].
    split; [destruct (isProcessing (page r)); lia | exact Herr].
  - destruct (awaitingAnalysis r) as [|n] eqn:E; [discriminate|].
    injection Hstep as <-.
    cbn [page awaitingAnalysis awaitingHeatmap onAnalyze_catch setError
         setIsProcessing isProcessing error].
    split; [destruct (isProcessing (page r)); lia | discriminate].
  - destruct (awaitingHeatmap r) as [|n] eqn:E; [discriminate|].
    injection Hstep as <-.
    cbn [page awaitingAnalysis awaitingHeatmap setIsProcessing isProcessing
         error].
    split; [destruct (isProcessing (page r)); lia | discriminate].
  - destruct (awaitingHeatmap r) as [|n] eqn:E; [discriminate|].
    injection Hstep as <-.
    cbn [page awaitingAnalysis awaitingHeatmap onAnalyze_catch setError
         setIsProcessing isProcessing error].
    split; [destruct (isProcessing (page r)); lia | discriminate].
Qed.

Lemma pageRun_invariant (evs : list PageEvent) (r r' : Running) :
  page_invariant r -> pageRun evs r = Some r' -> page_invariant r'.
Proof.
  revert r. induction evs as [|ev evs IH]; intros r Hinv Hrun.
  - injection Hrun as <-. exact Hinv.
  - cbn [pageRun] in Hrun.
    destruct (pageStep ev r) as [r0|] eqn:Hstep; [|discriminate].
    apply (IH r0); [|exact Hrun]. now apply (pageStep_invariant ev r).
Qed.

(** X16: from the mounted page on, whatever events arrive in whatever
    order, at most one call of [onAnalyze] is running, [isProcessing] is
    true exactly while one is, the button is enabled only when none is,
    and no error message is shown while one is running. *)
Theorem page_one_analysis_at_a_time (evs : list PageEvent) (r : Running) :
  pageRun evs mounted = Some r ->
  (awaitingAnalysis r + awaitingHeatmap r <= 1)%nat /\
  (isProcessing (page r) = true <->
   (awaitingAnalysis r + awaitingHeatmap r = 1)%nat) /\
  (canAnalyze (page r) = true ->
   (awaitingAnalysis r + awaitingHeatmap r = 0)%nat) /\
  (isProcessing (page r) = true -> error (page r) = None).
Proof.
  intros Hrun.
  assert (H0 : page_invariant mounted) by (split; [reflexivity | discriminate]).
  destruct (pageRun_invariant evs mounted r H0 Hrun) as [G Herr].
  split; [|split; [|split]].
  - destruct (isProcessing (page r)); lia.
  - destruct (isProcessing (page r)); split; intros H;
      try reflexivity; try discriminate; lia.
  - intros Hcan. apply canAnalyze_idle in Hcan. rewrite Hcan in G. exact G.
  - exact Herr.
Qed.

(** A run of [onAnalyze] is the events of one call arriving with nothing
    in between. *)
Lemma onAnalyze_as_events (s : PageState) (res : AnalysisResult) (err : Thrown) :
  canAnalyze s = true ->
  pageRun [AnalyzeClicked true; AnalysisReturned res; HeatmapReturned]
    (mkRunning s 0 0)
  = Some (mkRunning (onAnalyze true (inr res) None s) 0 0) /\
  pageRun [AnalyzeClicked true; AnalysisReturned res; HeatmapThrew err]
    (mkRunning s 0 0)
  = Some (mkRunning (onAnalyze true (inr res) (Some err) s) 0 0) /\
  pageRun [AnalyzeClicked true; AnalysisThrew err] (mkRunning s 0 0)
  = Some (mkRunning (onAnalyze true (inl err) None s) 0 0).
Proof.
  intros Hcan. cbn [pageRun pageStep page]. rewrite Hcan.
  repeat split.
Qed.

(** X17: however the two awaited calls end, a run of [onAnalyze] leaves
    [isProcessing] false and the chosen image as it was; it leaves no
    error message exactly when both calls returned; and when the canvas
    has no 2D context it leaves the message "Canvas 2D not supported" and
    the result of the state it started in. *)
Theorem onAnalyze_outcomes (s : PageState)
    (analysis : Thrown + AnalysisResult) (heatmap : option Thrown) :
  let s' := onAnalyze true analysis heatmap s in
  isProcessing s' = false /\ imageUrl s' = imageUrl s /\
  (error s' = None <-> (exists res, analysis = inr res) /\ heatmap = None) /\
  (forall res, analysis = inr res -> result s' = Some res) /\
  (analysis = analyzeCtVsMri_async None ->
   error s' = Some "Canvas 2D not supported"%string /\ result s' = result s).
Proof.
  intros s'. subst s'.
  split; [destruct analysis as [e|res]; [|destruct heatmap]; reflexivity|].
  split; [destruct analysis as [e|res]; [|destruct heatmap]; reflexivity|].
  split; [|split].
  - destruct analysis as [e|res]; [|destruct heatmap as [e|]];
      cbn; split; try discriminate.
    + intros [[res H] _]. discriminate.
    + intros [_ H]. discriminate.
    + intros _. split; [now exists res | reflexivity].
    + reflexivity.
  - intros res ->. destruct heatmap; reflexivity.
  - intros ->. split; reflexivity.
Qed.


(** ** The logistic function and the red channel *)

(** X18: [logistic] is monotone, whatever the operations round to, and it
    is 1/2 at 0: a higher score never gives a lower probability of MRI. *)
Theorem logistic_monotone :
  (forall x y : R, (x <= y)%R -> (logistic x <= logistic y)%R) /\
  logistic 0 = 0.5%R.
Proof using rnd_mono rnd_dyadic exp_nonneg exp_monotone exp_at_0.
  split.
  - intros x y Hxy. unfold logistic, fdiv, fadd.
    assert (He : (Math_exp (- y) <= Math_exp (- x))%R) by (apply exp_monotone; lra).
    assert (Hd : (rnd (1 + Math_exp (- y)) <= rnd (1 + Math_exp (- x)))%R).
    { apply rnd_mono. lra. }
    assert (H1 : (1 <= rnd (1 + Math_exp (- y)))%R).
    { rewrite <- rnd_1 at 1. apply rnd_mono.
      generalize (exp_nonneg (- y)). lra. }
    apply rnd_mono.
    assert (Hi : (/ rnd (1 + Math_exp (- x)) <= / rnd (1 + Math_exp (- y)))%R).
    { apply Rinv_le_contravar; lra. }
    lra.
  - unfold logistic, fdiv, fadd. rewrite Ropp_0, exp_at_0.
    replace (1 + 1)%R with (IZR 2) by lra. rewrite (rnd_IZR 2) by lia.
    replace (1 / IZR 2)%R with 0.5%R by lra. apply rnd_half.
Qed.

Lemma copyLuma_lumas (d1 d2 : list Z) :
  lumas d1 = lumas d2 -> lumas (copyLuma d1) = lumas (copyLuma d2).
Proof.
  assert (H : forall d, lumas (copyLuma d) = map ToUint8Clamp (lumas d)).
  { induction d as [|r0|r0 g0|r0 g0 b0|r0 g0 b0 a0 rest IH] using pixels_ind;
      cbn [copyLuma lumas map]; try reflexivity.
    now rewrite IH. }
  intros E. now rewrite !H, E.
Qed.

(** X19: the heatmap reads nothing but the red channel of the source
    canvas: two canvases with the same red at every pixel give the same
    heatmap. *)
Theorem drawGradCAMLikeHeatmap_red_channel (d1 d2 : list Z) (width height : Z) :
  Z.of_nat (length d1) = width * height * 4 ->
  lumas d1 = lumas d2 ->
  drawGradCAMLikeHeatmap d1 width height = drawGradCAMLikeHeatmap d2 width height.
Proof.
  intros _ H. apply copyLuma_lumas in H.
  assert (Hget : forall k, get 0 (copyLuma d1) (k * 4) = get 0 (copyLuma d2) (k * 4)).
  { intros k. now rewrite !get_lumas, H. }
  assert (Hvar : localVariance (copyLuma d1) width height
                 = localVariance (copyLuma d2) width height).
  { unfold localVariance.
    apply for_loop_ext. intros y var _.
    apply for_loop_ext. intros x var' _.
    replace (windowSums (copyLuma d1) width height x y)
      with (windowSums (copyLuma d2) width height x y); [reflexivity|].
    unfold windowSums.
    apply for_loop_ext. intros dy acc _.
    apply for_loop_ext. intros dx [[sum sum2] count] _.
    now rewrite Hget. }
  unfold drawGradCAMLikeHeatmap. now rewrite Hvar.
Qed.


(** ** The mean of the histogram is the mean pixel value *)

Lemma wsum_insert (hist : list Z) (i : Z) (k : nat) (old x : Z) :
  hist !! k = Some old ->
  wsum (<[k := x]> hist) i = wsum hist i + (x - old) * (i + Z.of_nat k).
Proof.
  revert i k. induction hist as [|c rest IH]; intros i k Hk; [discriminate|].
  destruct k as [|k].
  - injection Hk as ->.
    change (<[0%nat := x]> (old :: rest)) with (x :: rest). cbn [wsum]. lia.
  - simpl in Hk.
    change (<[Datatypes.S k := x]> (c :: rest)) with (c :: <[k := x]> rest).
    cbn [wsum]. rewrite (IH (i + 1) k Hk). lia.
Qed.

Lemma wsum_replicate_0 (n : nat) (i : Z) : wsum (replicate n 0) i = 0.
Proof.
  revert i. induction n as [|n IH]; intros i; [reflexivity|].
  cbn [replicate wsum]. rewrite IH. lia.
Qed.

Lemma wsum_step (hist : list Z) (v : Z) :
  bins_ok hist -> is_byte v ->
  wsum (set hist v (get 0 hist v + 1)) 0 = wsum hist 0 + v.
Proof.
  intros [Hlen _] Hv. unfold is_byte in Hv. unfold set.
  destruct (Z.ltb_spec v 0) as [E|E]; [lia|].
  rewrite (wsum_insert hist 0 (Z.to_nat v) (get 0 hist v)).
  - lia.
  - apply get_lookup. lia.
Qed.

Lemma histCounts_wsum (data hist : list Z) (count : Z) :
  Forall is_byte data -> bins_ok hist ->
  wsum (fst (histCounts data hist count)) 0 = wsum hist 0 + sumZ (lumas data).
Proof.
  revert hist count.
  induction data as [|r0|r0 g0|r0 g0 b0|r0 g0 b0 a0 rest IH] using pixels_ind;
    intros hist count Hb Hok; cbn [histCounts lumas sumZ fold_right fst];
    try lia;
    apply Forall_cons in Hb as [Hr Hb];
    try (rewrite wsum_step by assumption; lia).
  apply Forall_cons in Hb as [_ Hb]. apply Forall_cons in Hb as [_ Hb].
  apply Forall_cons in Hb as [_ Hb].
  rewrite IH; [|assumption|now apply count_step].
  rewrite wsum_step by assumption. fold (sumZ (lumas rest)). lia.
Qed.

Lemma histogramMean_fold_exact (n : Z) (hist : list Z) (s : R) (i : Z) :
  (forall x : R, rnd x = x) ->
  fst (fold_left (fun '(s, i) p => (s ⊕ p ⊗ IZR i, i + 1))
         (map (fun c => IZR c ⊘ IZR n) hist) (s, i))
  = (s + IZR (wsum hist i) / IZR n)%R.
Proof.
  intros Hexact. revert s i.
  induction hist as [|c rest IH]; intros s i.
  - cbn [map fold_left fst wsum]. lra.
  - cbn [map wsum]. rewrite fold_left_cons, IH.
    unfold fadd, fmul, fdiv. rewrite !Hexact, plus_IZR, mult_IZR.
    unfold Rdiv. lra.
Qed.

(** X20: in exact arithmetic the feature [histMean], the mean of the
    histogram, is the mean of the pixel values of the buffer the
    histogram is of. *)
Theorem histogramMean_is_pixel_mean (data : list Z) :
  Forall is_byte data -> data <> [] ->
  (forall x : R, rnd x = x) ->
  histogramMean (computeHistogram data)
  = (IZR (sumZ (lumas data)) / IZR (Z.of_nat (length (lumas data))))%R.
Proof.
  intros Hb Hne Hexact.
  assert (Hok : bins_ok (replicate 256 0)).
  { split; [apply length_replicate | apply Forall_replicate; lia]. }
  unfold histogramMean, computeHistogram.
  pose proof (histCounts_spec data (replicate 256 0) 0 Hb Hok) as (_ & _ & Hc).
  pose proof (histCounts_wsum data (replicate 256 0) 0 Hb Hok) as Hw.
  destruct (histCounts data (replicate 256 0) 0) as [hist count].
  cbn [fst snd] in *. subst count.
  rewrite histogramMean_fold_exact by assumption.
  rewrite Hw, wsum_replicate_0, Z.add_0_l, Z.add_0_l. lra.
Qed.


(** ** Images of two gray levels *)

Lemma entropy_term_half (p : R) :
  (0 < p)%R -> (- (p * ln p) <= p * ln 2 + / 2 - p)%R.
Proof.
  intros Hp.
  assert (Hu : (0 < / (2 * p))%R) by (apply Rinv_0_lt_compat; lra).
  generalize (ln_le_minus_1 (/ (2 * p)) Hu).
  rewrite ln_Rinv, ln_mult by lra. intros H.
  assert (H' : (p * (- (ln 2 + ln p)) <= p * (/ (2 * p) - 1))%R).
  { apply Rmult_le_compat_l; lra. }
  replace (p * (/ (2 * p) - 1))%R with (/ 2 - p)%R in H' by (field; lra).
  lra.
Qed.

Lemma hits_above (a : Z) (n : nat) (i : Z) : a < i -> hits a n i = 0%R.
Proof.
  revert i. induction n as [|n IH]; intros i Hi; [reflexivity|].
  cbn [hits]. rewrite IH by lia.
  destruct (Z.eqb_spec i a); [lia | lra].
Qed.

Lemma hits_bounds (a : Z) (n : nat) (i : Z) : (0 <= hits a n i <= 1)%R.
Proof.
  revert i. induction n as [|n IH]; intros i; cbn [hits]; [lra|].
  destruct (Z.eqb_spec i a) as [->|Hne].
  - rewrite hits_above by lia. lra.
  - specialize (IH (i + 1)). lra.
Qed.

(** Gibbs' inequality against the distribution that gives 1/2 to each of
    the bins [a] and [b]. *)
Lemma two_level_sum (counts : list Z) (N a b i : Z) :
  0 < N -> Forall (fun c => 0 <= c) counts ->
  (forall k : nat, 0 < nth k counts 0 ->
     i + Z.of_nat k = a \/ i + Z.of_nat k = b) ->
  (- sumR (map (fun c => plog2 (IZR c / IZR N)) counts) * ln 2
   <= IZR (sumZ counts) / IZR N * (ln 2 - 1)
      + hits a (length counts) i / 2 + hits b (length counts) i / 2)%R.
Proof.
  intros HN Hpos. revert i.
  assert (H2 : (0 < ln 2)%R) by (generalize ln_lt_2; lra).
  assert (HN' : (0 < IZR N)%R) by now apply IZR_lt.
  induction Hpos as [|c l Hc Hl IH]; intros i Hlev.
  - cbn [map sumR sumZ fold_right length hits]. unfold Rdiv. lra.
  - assert (IH' := IH (i + 1)). clear IH.
    assert (Hrest : forall k : nat, 0 < nth k l 0 ->
              i + 1 + Z.of_nat k = a \/ i + 1 + Z.of_nat k = b).
    { intros k Hk. specialize (Hlev (Datatypes.S k) Hk). lia. }
    specialize (IH' Hrest).
    cbn [map sumR sumZ fold_right length hits]. fold (sumZ l).
    fold (sumR (map (fun c => plog2 (IZR c / IZR N)) l)).
    rewrite plus_IZR.
    pose proof (hits_bounds a (length l) (i + 1)) as Ha.
    pose proof (hits_bounds b (length l) (i + 1)) as Hb.
    assert (Hterm : (- plog2 (IZR c / IZR N) * ln 2
                     <= IZR c / IZR N * (ln 2 - 1)
                        + (if i =? a then 1 else 0) / 2
                        + (if i =? b then 1 else 0) / 2)%R).
    { destruct (Z.eq_dec c 0) as [->|Hc0].
      - unfold plog2, Rdiv. rewrite Rmult_0_l.
        destruct (Rlt_dec 0 0) as [F|_]; [lra|].
        destruct (i =? a), (i =? b); lra.
      - assert (Hp : (0 < IZR c / IZR N)%R).
        { apply Rdiv_lt_0_compat; [apply IZR_lt; lia | exact HN']. }
        unfold plog2. destruct (Rlt_dec 0 (IZR c / IZR N)) as [_|F]; [|lra].
        pose proof (entropy_term_half _ Hp) as Hg.
        replace (- (IZR c / IZR N * (ln (IZR c / IZR N) / ln 2)) * ln 2)%R
          with (- (IZR c / IZR N * ln (IZR c / IZR N)))%R by (field; lra).
        assert (Hw : ((if i =? a then 1 else 0) / 2
                      + (if i =? b then 1 else 0) / 2 >= / 2)%R).
        { specialize (Hlev 0%nat ltac:(simpl; lia)). rewrite Z.add_0_r in Hlev.
          destruct (Z.eqb_spec i a), (Z.eqb_spec i b); try lra; lia. }
        lra. }
    unfold Rdiv in *. lra.
Qed.

Lemma countZ_pos (v : Z) (l : list Z) : 0 < countZ v l -> v ∈ l.
Proof.
  induction l as [|y l IH]; cbn [countZ]; [lia|].
  destruct (Z.eqb_spec y v) as [->|Hne]; intros H.
  - apply list_elem_of_here.
  - apply list_elem_of_further, IH. lia.
Qed.

(** In exact arithmetic the histogram of a buffer with at most two pixel
    values has an entropy of at most one bit. *)
Lemma two_level_entropy (data : list Z) (a b : Z) :
  Forall is_byte data -> data <> [] ->
  (forall y, y ∈ lumas data -> y = a \/ y = b) ->
  (forall x : R, rnd x = x) ->
  (forall x : R, (0 < x)%R -> Math_log2 x = (ln x / ln 2)%R) ->
  (histogramEntropy (computeHistogram data) <= 1)%R.
Proof.
  intros Hb Hne Hlev Hexact Hlog.
  assert (Hok : bins_ok (replicate 256 0)).
  { split; [apply length_replicate | apply Forall_replicate; lia]. }
  assert (H2 : (0 < ln 2)%R) by (generalize ln_lt_2; lra).
  unfold histogramEntropy, computeHistogram.
  pose proof (histCounts_spec data (replicate 256 0) 0 Hb Hok)
    as ([Hlen Hpos] & Hsum & Hc).
  assert (Hget := fun v => histCounts_get data (replicate 256 0) 0 v Hb Hok).
  destruct (histCounts data (replicate 256 0) 0) as [counts count].
  cbn [fst snd] in *. rewrite sumZ_replicate_0 in Hsum.
  rewrite Z.add_0_l in Hc, Hsum. subst count.
  set (N := Z.of_nat (length (lumas data))) in *.
  assert (HN : 0 < N).
  { unfold N. generalize (lumas_nonempty data Hne).
    destruct (lumas data); [congruence | simpl; lia]. }
  rewrite entropy_fold_exact by assumption.
  rewrite map_map, Rplus_0_l.
  rewrite (map_ext (fun c => plog2 (IZR c ⊘ IZR N))
             (fun c => plog2 (IZR c / IZR N)))
    by (intros c; unfold fdiv; now rewrite Hexact).
  assert (Hlev' : forall k : nat, 0 < nth k counts 0 ->
            0 + Z.of_nat k = a \/ 0 + Z.of_nat k = b).
  { intros k Hk. rewrite Z.add_0_l.
    destruct (le_lt_dec (length counts) k) as [Hge|Hlt].
    { rewrite nth_overflow in Hk by assumption. lia. }
    assert (Hv : is_byte (Z.of_nat k)) by (unfold is_byte; lia).
    specialize (Hget (Z.of_nat k) Hv). rewrite get_replicate in Hget.
    unfold get in Hget.
    destruct (Z.ltb_spec (Z.of_nat k) 0) as [E|_]; [lia|].
    rewrite Nat2Z.id in Hget.
    apply Hlev, countZ_pos. lia. }
  pose proof (two_level_sum counts N a b 0 HN Hpos Hlev') as Hs.
  pose proof (hits_bounds a (length counts) 0) as Ha.
  pose proof (hits_bounds b (length counts) 0) as Hb'.
  rewrite Hsum in Hs.
  replace (IZR N / IZR N)%R with 1%R in Hs
    by (field; apply not_0_IZR; lia).
  set (S := sumR (map (fun c => plog2 (IZR c / IZR N)) counts)) in *.
  assert (Hfin : (- S * ln 2 <= 1 * ln 2)%R) by lra.
  apply Rmult_le_reg_r in Hfin; [lra | exact H2].
Qed.

Lemma extractFeatures_entropy (norm : list Z) :
  field "histEntropy" (extractFeatures norm)
  = histogramEntropy (computeHistogram norm).
Proof.
  unfold extractFeatures. cbv zeta.
  cbn [field String.eqb Ascii.eqb Bool.eqb]. reflexivity.
Qed.

(** The answer MRI needs a histogram of the normalized buffer with an
    entropy above 1.24 bits. *)
Lemma MRI_entropy (imageData : list Z) :
  Z.of_nat (length imageData) = 4 * size * size ->
  modality (analyzeCtVsMri imageData) = MRI ->
  (1.24 < histogramEntropy
            (computeHistogram (normalizeIntensity (toGrayscale imageData))))%R.
Proof using rnd_mono rnd_dyadic rnd_idem exp_ge_1 log2_nonpos fround_0
  fround_mono hypot_nonneg.
  intros Hlen HM.
  destruct (pipeline_norm imageData Hlen) as [Hb Hne].
  destruct (extractFeatures_nonneg _ Hb Hne)
    as (f1 & f2 & f3 & f4 & f5 & f6 & f7 & f8 & f9 & E & H).
  assert (Hf3 : histogramEntropy
                  (computeHistogram (normalizeIntensity (toGrayscale imageData)))
                = f3).
  { pose proof (extractFeatures_entropy
                  (normalizeIntensity (toGrayscale imageData))) as Hf.
    rewrite E in Hf. cbn [field String.eqb Ascii.eqb Bool.eqb] in Hf.
    now symmetry. }
  rewrite Hf3. clear Hf3. revert HM.
  unfold analyzeCtVsMri, classify. cbv zeta. cbn [modality].
  rewrite E. clear E.
  set (fs := [("histMean", f1); ("histVar", f2); ("histEntropy", f3);
              ("edgeMean", f4); ("edgeStd", f5); ("edgeP50", f6);
              ("edgeP90", f7); ("edgeP99", f8); ("textureE", f9)]%string).
  assert (Hle : (classifierScore fs <= bias ⊕ f3 ⊗ lit 0.8)%R).
  { apply classifierScore_le; tauto. }
  destruct (Rlt_dec 0.5 (logistic (classifierScore fs))) as [Hp|Hp];
    [intros _ | discriminate].
  apply entropy_term_needed; [tauto|].
  destruct (Rlt_le_dec 0 (classifierScore fs)) as [Hs|Hs]; [lra|].
  apply logistic_le_half in Hs. lra.
Qed.

(** X21: in exact arithmetic an image with at most two gray levels is
    always labelled CT: its histogram has at most one bit of entropy,
    too little for the one positive weight to lift the score above 0. *)
Theorem analyzeCtVsMri_two_levels (imageData : list Z) (a b : Z) :
  Z.of_nat (length imageData) = 4 * size * size ->
  (forall y, y ∈ lumas (toGrayscale imageData) -> y = a \/ y = b) ->
  (forall x : R, rnd x = x) ->
  (forall x : R, (0 < x)%R -> Math_log2 x = (ln x / ln 2)%R) ->
  modality (analyzeCtVsMri imageData) = CT.
Proof using rnd_mono rnd_dyadic rnd_idem exp_ge_1 log2_nonpos fround_0
  fround_mono hypot_nonneg.
  intros Hlen Hlev Hexact Hlog.
  destruct (modality (analyzeCtVsMri imageData)) eqn:HM; [reflexivity|].
  exfalso. apply (MRI_entropy imageData Hlen) in HM.
  destruct (pipeline_norm imageData Hlen) as [Hb Hne].
  assert (Hlev' : forall y,
            y ∈ lumas (normalizeIntensity (toGrayscale imageData)) ->
            y = ToUint8Clamp (normalizePixel
                  (fst (scanMinMax (toGrayscale imageData) 255 0))
                  (Z.max 1 (snd (scanMinMax (toGrayscale imageData) 255 0)
                            - fst (scanMinMax (toGrayscale imageData) 255 0)))
                  a) \/
            y = ToUint8Clamp (normalizePixel
                  (fst (scanMinMax (toGrayscale imageData) 255 0))
                  (Z.max 1 (snd (scanMinMax (toGrayscale imageData) 255 0)
                            - fst (scanMinMax (toGrayscale imageData) 255 0)))
                  b)).
  { intros y. unfold normalizeIntensity.
    destruct (scanMinMax (toGrayscale imageData) 255 0) as [mn mx].
    cbn [fst snd]. rewrite stretch_lumas. intros Hy.
    apply elem_of_map in Hy as (y0 & -> & Hy0).
    destruct (Hlev y0 Hy0) as [->| ->]; [now left | now right]. }
  pose proof (two_level_entropy _ _ _ Hb Hne Hlev' Hexact Hlog). lra.
Qed.


(** ** The standard deviation at the edges *)

(** X22: [std] is never negative; it is 0 for an empty array, whatever
    mean is passed, and 0 for an array whose values all equal the mean
    passed, a single value included: [Math.max(1, n - 1)] keeps the
    division away from 0. *)
Theorem std_edges :
  (forall (values : list R) (mu : option R), (0 <= std values mu)%R) /\
  (forall mu : option R, std [] mu = 0%R) /\
  (forall (values : list R) (m : R),
     Forall (fun v => v = m) values -> std values (Some m) = 0%R).
Proof using rnd_mono rnd_dyadic.
  assert (Hsqrt : Math_sqrt (0 ⊘ 1) = 0%R).
  { rewrite fdiv_0_l. unfold Math_sqrt. now rewrite sqrt_0, rnd_0. }
  split; [exact std_nonneg|]. split.
  - intros mu. unfold std. cbv zeta. cbn [fold_left length].
    change (Z.max 1 (Z.of_nat 0 - 1)) with 1. exact Hsqrt.
  - intros values m Hall. unfold std. cbv zeta.
    assert (H : fold_left (fun s2 v => s2 ⊕ (v ⊖ m) ⊗ (v ⊖ m)) values 0%R = 0%R).
    { induction Hall as [|v l -> _ IH]; [reflexivity|].
      rewrite fold_left_cons.
      assert (E : m ⊖ m = 0%R) by (unfold fsub; now rewrite Rminus_diag, rnd_0).
      rewrite E, fmul_0_l, fadd_0_0. exact IH. }
    rewrite H, fdiv_0_l. unfold Math_sqrt. now rewrite sqrt_0, rnd_0.
Qed.


End Analyze.

(** ** Exact real arithmetic satisfies the properties assumed of the
    rounding *)

Lemma exact_mono (x y : R) : (x <= y)%R -> (exact x <= exact y)%R.
Proof. intros H. exact H. Qed.

Lemma exact_dyadic (n : Z) (k : nat) :
  Z.abs n <= 2 ^ 53 -> (k <= 64)%nat ->
  exact (IZR n / 2 ^ k) = (IZR n / 2 ^ k)%R.
Proof. reflexivity. Qed.

Lemma exact_error (x : R) :
  (/ 2 ^ 64 <= x <= 2 ^ 64)%R -> (Rabs (exact x - x) <= x / 2 ^ 53)%R.
Proof.
  intros H. unfold exact. rewrite Rminus_diag, Rabs_R0. lra.
Qed.

Lemma exact_id (x : R) : exact x = x.
Proof. reflexivity. Qed.

Lemma exact_0 : exact 0 = 0%R.
Proof. reflexivity. Qed.

Lemma exp_exact_nonneg (x : R) : (0 <= exp x)%R.
Proof. left. apply exp_pos. Qed.

Lemma exp_exact_accurate : (Rabs (exp 1 - exp 1) <= / 2 ^ 40)%R.
Proof. rewrite Rminus_diag, Rabs_R0. lra. Qed.

Lemma log2_exact_nonpos (x : R) : (0 < x <= 1)%R -> (log2_exact x <= 0)%R.
Proof.
  intros [H0 H1]. unfold log2_exact.
  assert (H2 : (0 < ln 2)%R) by (generalize ln_lt_2; lra).
  assert (Hl : (ln x <= 0)%R).
  { destruct H1 as [H1| ->]; [|rewrite ln_1; lra].
    rewrite <- ln_1. left. now apply ln_increasing. }
  assert (Hi : (0 < / ln 2)%R) by now apply Rinv_0_lt_compat.
  unfold Rdiv. nra.
Qed.

Lemma log2_exact_1 : log2_exact 1 = 0%R.
Proof. unfold log2_exact. rewrite ln_1. unfold Rdiv. apply Rmult_0_l. Qed.

Lemma log2_exact_ln (x : R) : (0 < x)%R -> log2_exact x = (ln x / ln 2)%R.
Proof. reflexivity. Qed.

Lemma hypot_exact_0 : hypot_exact 0 0 = 0%R.
Proof. unfold hypot_exact. rewrite Rmult_0_l, Rplus_0_l. apply sqrt_0. Qed.

Lemma pow_exact_0 (y : R) : (0 < y)%R -> pow_exact 0 y = 0%R.
Proof.
  intros Hy. unfold pow_exact.
  destruct (Req_dec_T 0 0) as [_|H]; [|congruence].
  destruct (Rlt_dec 0 y) as [_|H]; [reflexivity | contradiction].
Qed.

Lemma exact_opp (x : R) : exact (- x) = (- exact x)%R.
Proof. reflexivity. Qed.


Lemma log2_exact_256 : log2_exact (/ 256) = (- 8)%R.
Proof.
  unfold log2_exact. rewrite ln_Rinv by lra.
  assert (H2 : (0 < ln 2)%R) by (generalize ln_lt_2; lra).
  assert (E : ln 256 = (8 * ln 2)%R).
  { replace 256%R with (2 ^ 8)%R by lra. rewrite ln_pow by lra. simpl. lra. }
  rewrite E. field. lra.
Qed.

Lemma log2_exact_accurate (x : R) :
  (/ 2 ^ 16 <= x <= 1)%R -> (Rabs (log2_exact x - ln x / ln 2) <= / 2 ^ 30)%R.
Proof.
  intros _. unfold log2_exact. rewrite Rminus_diag, Rabs_R0.
  left. apply Rinv_0_lt_compat. lra.
Qed.

Lemma exact_idem (x : R) : exact (exact x) = exact x.
Proof. reflexivity. Qed.

Lemma exact_1 : exact 1 = 1%R.
Proof. reflexivity. Qed.

Lemma exp_exact_ge_1 (x : R) : (0 <= x)%R -> (1 <= exp x)%R.
Proof. intros H. generalize (exp_ineq1_le x). lra. Qed.

Lemma exp_exact_mono (x y : R) : (x <= y)%R -> (exp x <= exp y)%R.
Proof.
  intros [H| ->]; [|apply Rle_refl].
  apply Rlt_le. now apply exp_increasing.
Qed.

Lemma hypot_exact_nonneg (x y : R) : (0 <= hypot_exact x y)%R.
Proof. apply sqrt_pos. Qed.

Lemma pow_exact_1 (y : R) : pow_exact 1 y = 1%R.
Proof.
  unfold pow_exact. destruct (Req_dec_T 1 0) as [E|_]; [lra|].
  unfold Rpower. rewrite ln_1, Rmult_0_r. apply exp_0.
Qed.

Lemma length_uniformImage (n : nat) (r g b a : Z) :
  length (uniformImage n r g b a) = (4 * n)%nat.
Proof. induction n as [|n IH]; simpl; [reflexivity | rewrite IH; lia]. Qed.

Lemma grayImage_length : Z.of_nat (length grayImage) = 4 * size * size.
Proof. unfold grayImage, size. rewrite length_uniformImage. lia. Qed.

Lemma splitImage_length : Z.of_nat (length splitImage) = 4 * size * size.
Proof.
  unfold splitImage, size. rewrite length_app, !length_uniformImage. lia.
Qed.

Lemma uniformImage_bytes (n : nat) (r g b a : Z) :
  is_byte r -> is_byte g -> is_byte b -> is_byte a ->
  Forall is_byte (uniformImage n r g b a).
Proof.
  intros Hr Hg Hb Ha. induction n as [|n IH]; cbn [uniformImage].
  - apply Forall_nil_2.
  - repeat (apply Forall_cons; split; [assumption|]). exact IH.
Qed.

Lemma splitImage_bytes : Forall is_byte splitImage.
Proof.
  unfold splitImage. apply Forall_app.
  split; apply uniformImage_bytes; unfold is_byte; lia.
Qed.

Lemma sameColour_uniform (n : nat) (r g b a a' : Z) :
  sameColour (uniformImage n r g b a) (uniformImage n r g b a').
Proof. induction n as [|n IH]; simpl; auto. Qed.

(** ** The functions on small inputs *)

Example scanMinMax_sample :
  scanMinMax [10; 0; 0; 255; 200; 0; 0; 255; 50; 0; 0; 255] 255 0 = (10, 200).
Proof. reflexivity. Qed.

Example histCounts_sample :
  histCounts [3; 0; 0; 255; 3; 0; 0; 255; 1; 0; 0; 255] [0; 0; 0; 0] 0
  = ([0; 1; 0; 2], 3).
Proof. reflexivity. Qed.

Example copyLuma_sample : copyLuma [7; 8; 9; 255; 4; 5; 6; 255] = [7; 7; 7; 0; 4; 4; 4; 0].
Proof. reflexivity. Qed.

(** A 3 x 3 image whose right column is white: the horizontal response at
    the centre is 255 * (1 + 2 + 1), the vertical one 0. *)
Example sobelKernelLoops_sample :
  sobelKernelLoops clamp
    (flat_map (fun v => [v; v; v; 255]) [0; 0; 255; 0; 0; 255; 0; 0; 255])
    3 3 1 1
  = (1020, 0, 9).
Proof. reflexivity. Qed.

(** The window of the only pixel of a 1 x 1 image is that pixel 25
    times. *)
Example windowSums_sample : windowSums [7; 7; 7; 255] 1 1 0 0 = (175, 1225, 25).
Proof. reflexivity. Qed.

Example luma_sample : luma exact 10 20 30 = 19.
Proof.
  unfold luma, lit, fmul, fadd, exact, Math_round. apply Zfloor_eq. lra.
Qed.

Example toGrayscale_sample : toGrayscale exact [10; 20; 30; 255] = [19; 19; 19; 255].
Proof. cbn [toGrayscale]. rewrite luma_sample. reflexivity. Qed.

(** [Math.round] takes the tie 127.5 up. *)
Example normalizePixel_tie : normalizePixel exact 10 190 105 = 128.
Proof.
  unfold normalizePixel, fmul, fdiv, exact, Math_round. apply Zfloor_eq.
  change (105 - 10) with 95. lra.
Qed.

Example normalizeIntensity_sample :
  normalizeIntensity exact [10; 10; 10; 255; 200; 200; 200; 255; 105; 105; 105; 255]
  = [0; 0; 0; 255; 255; 255; 255; 255; 128; 128; 128; 255].
Proof.
  unfold normalizeIntensity.
  change (scanMinMax [10; 10; 10; 255; 200; 200; 200; 255; 105; 105; 105; 255] 255 0)
    with (10, 200).
  cbn [stretch]. change (Z.max 1 (200 - 10)) with 190.
  rewrite normalizePixel_tie.
  rewrite (normalizePixel_min exact exact_dyadic 10 190).
  change 190 with (200 - 10).
  rewrite (normalizePixel_max exact exact_dyadic 10 200) by lia.
  reflexivity.
Qed.

(** ** The theorems at concrete inputs, in exact arithmetic *)

Lemma analyzeCtVsMri_gray_witness :
  features (analyzeCtVsMri exact exact exp log2_exact hypot_exact grayImage)
  = zeroFeatures.
Proof.
  exact (proj1 (proj2 (proj2 (proj2
           (analyzeCtVsMri_gray exact exact exp log2_exact hypot_exact
              exact_mono exact_dyadic exact_error exp_exact_accurate
              log2_exact_1 hypot_exact_0 exact_0))))).
Defined.

(** The claim C1 as the specification words it fails on the code: the
    histogram of the gray image has nothing in bin 128 and the score is
    not -2.28. *)
Lemma analyzeCtVsMri_gray_counterexample :
  get 0%R (computeHistogram exact
             (normalizeIntensity exact (toGrayscale exact grayImage))) 128
  <> 1%R /\
  classifierScore exact
    (features (analyzeCtVsMri exact exact exp log2_exact hypot_exact grayImage))
  <> (-2.28)%R.
Proof.
  assert (Hn : (0 < 256 * 256)%nat) by lia.
  assert (Hn' : Z.of_nat (256 * 256) <= 2 ^ 53) by lia.
  destruct (analyzeCtVsMri_uniform exact exact exp log2_exact hypot_exact
              exact_dyadic log2_exact_1 hypot_exact_0 exact_0
              (256 * 256) 128 128 128 255 Hn Hn') as (_ & Hh & _ & Hs).
  fold grayImage in Hh, Hs. rewrite Hh, Hs. split.
  - change (get 0%R (1%R :: replicate 255 0%R) 128) with 0%R. lra.
  - lra.
Qed.

Lemma normalizeIntensity_range_witness :
  Forall is_byte [10; 10; 10; 255; 200; 200; 200; 255] /\
  0 ∈ lumas (normalizeIntensity exact [10; 10; 10; 255; 200; 200; 200; 255]) /\
  255 ∈ lumas (normalizeIntensity exact [10; 10; 10; 255; 200; 200; 200; 255]).
Proof.
  assert (Hb : Forall is_byte [10; 10; 10; 255; 200; 200; 200; 255]).
  { repeat constructor; unfold is_byte; lia. }
  split; [exact Hb|].
  destruct (normalizeIntensity_range exact exact_dyadic
              [10; 10; 10; 255; 200; 200; 200; 255] Hb) as (_ & _ & _ & H).
  destruct H as (H0 & H255 & _).
  - exists 10, 200. cbn [lumas]. split; [apply list_elem_of_here|].
    split; [apply list_elem_of_further, list_elem_of_here | lia].
  - split; assumption.
Defined.

Lemma computeSobelEdges_magnitude_witness :
  Z.of_nat (length (replicate 36 7)) = 3 * 3 * 4 /\
  Z.of_nat (length (computeSobelEdges exact hypot_exact (replicate 36 7) 3 3))
  = 3 * 3.
Proof.
  split; [reflexivity|].
  exact (proj1 (computeSobelEdges_magnitude exact hypot_exact (replicate 36 7) 3 3
                  ltac:(lia) ltac:(lia) eq_refl)).
Defined.




Lemma computeHistogram_sum_witness :
  Forall is_byte [0; 0; 0; 255; 255; 255; 255; 255] /\
  (Rabs (sumR (computeHistogram exact [0; 0; 0; 255; 255; 255; 255; 255]%Z) - 1)
   <= 1e-9)%R.
Proof.
  assert (Hb : Forall is_byte [0; 0; 0; 255; 255; 255; 255; 255]).
  { repeat constructor; unfold is_byte; lia. }
  split; [exact Hb|].
  exact (proj1 (proj2 (computeHistogram_sum exact exact_mono exact_dyadic
                         exact_error [0; 0; 0; 255; 255; 255; 255; 255] Hb
                         ltac:(discriminate) ltac:(simpl; lia)))).
Defined.

Lemma splitImage_nonempty : splitImage <> [].
Proof. discriminate. Qed.

Lemma histogramEntropy_bounds_witness :
  Forall is_byte splitImage /\
  Z.of_nat (length splitImage) = 4 * size * size /\
  (0 <= histogramEntropy exact log2_exact (computeHistogram exact splitImage)
   <= 8)%R.
Proof.
  split; [exact splitImage_bytes|]. split; [exact splitImage_length|].
  destruct (histogramEntropy_bounds exact log2_exact exact_mono exact_dyadic
              exact_error log2_exact_nonpos exact_opp log2_exact_256
              log2_exact_accurate splitImage splitImage_bytes
              splitImage_nonempty) as (Hlo & Hhi & _).
  split; [exact Hlo | exact (Hhi splitImage_length)].
Defined.

Lemma toGrayscale_pixels_witness :
  Forall is_byte [10; 20; 30; 255] /\
  length (toGrayscale exact [10; 20; 30; 255]) = length [10; 20; 30; 255].
Proof.
  assert (Hb : Forall is_byte [10; 20; 30; 255]).
  { repeat constructor; unfold is_byte; lia. }
  split; [exact Hb|].
  exact (proj1 (toGrayscale_pixels exact exact_mono exact_dyadic
                  [10; 20; 30; 255] Hb)).
Defined.

Lemma percentiles_monotone_witness :
  ([1; 3; 2]%R <> [] /\
   exists edgeP50 edgeP90 edgeP99 : R,
     percentiles exact [1; 3; 2]%R [50; 90; 99]%R = [edgeP50; edgeP90; edgeP99] /\
     (edgeP50 <= edgeP90 <= edgeP99)%R) /\
  (Z.of_nat (length splitImage) = 4 * size * size /\
   (field "edgeP50" (extractFeatures exact exact log2_exact hypot_exact splitImage)
    <= field "edgeP90" (extractFeatures exact exact log2_exact hypot_exact splitImage)
    <= field "edgeP99" (extractFeatures exact exact log2_exact hypot_exact splitImage))%R).
Proof.
  pose proof (percentiles_monotone exact exact log2_exact hypot_exact exact_mono)
    as H.
  split.
  - split; [discriminate|].
    exact (proj2 (proj1 H [1; 3; 2]%R ltac:(discriminate))).
  - split; [exact splitImage_length|].
    exact (proj2 H splitImage splitImage_length).
Defined.

Lemma analyzeCtVsMri_confidence_witness :
  Z.of_nat (length splitImage) = 4 * size * size /\
  (0.5 <= confidence
            (analyzeCtVsMri exact exact exp log2_exact hypot_exact splitImage)
   <= 1)%R.
Proof.
  split; [exact splitImage_length|].
  exact (proj1 (analyzeCtVsMri_confidence exact exact exp log2_exact hypot_exact
                  exact_mono exact_dyadic exp_exact_nonneg
                  splitImage splitImage_length)).
Defined.

(** ** The further theorems at concrete inputs, in exact arithmetic *)

Lemma toGrayscale_between_witness :
  Forall is_byte [10; 20; 30; 255] /\
  exists y : Z,
    toGrayscale exact [10; 20; 30; 255] !! (4 * 0)%nat = Some y /\
    Z.min 10 (Z.min 20 30) <= y <= Z.max 10 (Z.max 20 30) /\
    (10 = 20 -> 20 = 30 -> y = 10).
Proof.
  assert (Hb : Forall is_byte [10; 20; 30; 255]).
  { repeat constructor; unfold is_byte; lia. }
  split; [exact Hb|].
  exact (toGrayscale_between exact exact_mono exact_dyadic [10; 20; 30; 255] Hb
           0%nat 10 20 30 eq_refl eq_refl eq_refl).
Defined.

Lemma toGrayscale_idempotent_witness :
  Forall is_byte [10; 20; 30; 255] /\
  toGrayscale exact (toGrayscale exact [10; 20; 30; 255])
  = toGrayscale exact [10; 20; 30; 255].
Proof.
  assert (Hb : Forall is_byte [10; 20; 30; 255]).
  { repeat constructor; unfold is_byte; lia. }
  split; [exact Hb|].
  exact (toGrayscale_idempotent exact exact_mono exact_dyadic [10; 20; 30; 255] Hb).
Defined.

Lemma normalizeIntensity_monotone_witness :
  grayPixels (normalizeIntensity exact [10; 0; 0; 255; 200; 0; 0; 255]) /\
  exists ni nj : Z,
    lumas (normalizeIntensity exact [10; 0; 0; 255; 200; 0; 0; 255]) !! 0%nat
    = Some ni /\
    lumas (normalizeIntensity exact [10; 0; 0; 255; 200; 0; 0; 255]) !! 1%nat
    = Some nj /\
    ni <= nj.
Proof.
  pose proof (normalizeIntensity_monotone exact exact_mono
                [10; 0; 0; 255; 200; 0; 0; 255]) as H.
  exact (conj (proj1 H)
           (proj2 (proj2 H) 0%nat 1%nat 10 200 eq_refl eq_refl ltac:(lia))).
Defined.

Lemma normalizeIntensity_idempotent_witness :
  Forall is_byte [10; 0; 0; 255; 200; 0; 0; 255] /\
  normalizeIntensity exact (normalizeIntensity exact [10; 0; 0; 255; 200; 0; 0; 255])
  = normalizeIntensity exact [10; 0; 0; 255; 200; 0; 0; 255].
Proof.
  assert (Hb : Forall is_byte [10; 0; 0; 255; 200; 0; 0; 255]).
  { repeat constructor; unfold is_byte; lia. }
  split; [exact Hb|].
  exact (normalizeIntensity_idempotent exact exact_dyadic exact_error
           [10; 0; 0; 255; 200; 0; 0; 255] Hb).
Defined.

Lemma computeHistogram_bins_witness :
  Forall is_byte [10; 20; 30; 255; 10; 0; 0; 255] /\
  is_byte 10 /\
  get 0%R (computeHistogram exact [10; 20; 30; 255; 10; 0; 0; 255]) 10
  = fdiv exact (IZR (countZ 10 (lumas [10; 20; 30; 255; 10; 0; 0; 255])))
      (IZR (Z.of_nat (length (lumas [10; 20; 30; 255; 10; 0; 0; 255])))).
Proof.
  assert (Hb : Forall is_byte [10; 20; 30; 255; 10; 0; 0; 255]).
  { repeat constructor; unfold is_byte; lia. }
  assert (Hv : is_byte 10) by (unfold is_byte; lia).
  split; [exact Hb|]. split; [exact Hv|].
  exact (proj1 (computeHistogram_bins exact [10; 20; 30; 255; 10; 0; 0; 255] 10
                  Hb ltac:(discriminate) Hv)).
Defined.

(** A 3 x 3 image with nine different values. *)
Lemma sobelKernelLoops_bounds_witness :
  Forall is_byte nineLevels /\
  Z.of_nat (length nineLevels) = 3 * 3 * 4 /\
  exists gx gy : Z,
    sobelKernelLoops clamp nineLevels 3 3 1 1 = (gx, gy, 9) /\
    -1020 <= gx <= 1020 /\ -1020 <= gy <= 1020.
Proof.
  assert (Hb : Forall is_byte nineLevels).
  { unfold nineLevels. repeat constructor; unfold is_byte; lia. }
  split; [exact Hb|]. split; [reflexivity|].
  exact (sobelKernelLoops_bounds nineLevels 3 3 1 1 Hb eq_refl
           ltac:(lia) ltac:(lia)).
Defined.

Lemma flat_image_no_edges_witness :
  Z.of_nat 9 = 3 * 3 /\
  computeSobelEdges exact hypot_exact (uniformImage 9 77 77 77 255) 3 3
  = replicate (Z.to_nat (3 * 3)) 0%R /\
  computeTextureEnergy exact (uniformImage 9 77 77 77 255) 3 3 = 0%R.
Proof.
  split; [reflexivity|].
  exact (flat_image_no_edges exact exact hypot_exact exact_dyadic hypot_exact_0
           exact_0 9 77 77 77 255 3 3 ltac:(lia) ltac:(lia) eq_refl).
Defined.

(** A 2 x 2 image with four different values. *)
Lemma computeTextureEnergy_bounds_witness :
  Forall is_byte fourLevels /\
  Z.of_nat (length fourLevels) = 2 * 2 * 4 /\
  (0 <= computeTextureEnergy exact fourLevels 2 2 <= 510)%R.
Proof.
  assert (Hb : Forall is_byte fourLevels).
  { unfold fourLevels. repeat constructor; unfold is_byte; lia. }
  split; [exact Hb|]. split; [reflexivity|].
  exact (computeTextureEnergy_bounds exact exact_mono exact_dyadic
           fourLevels 2 2 Hb ltac:(lia) ltac:(lia) eq_refl ltac:(lia)).
Defined.

Lemma percentiles_ends_witness :
  [3; 1; 2]%R <> [] /\
  length (percentiles exact [3; 1; 2]%R [0; 100]%R) = length [0; 100]%R /\
  exists r : R,
    percentiles exact [3; 1; 2]%R [100]%R = [r] /\ r ∈ [3; 1; 2]%R /\
    forall v : R, v ∈ [3; 1; 2]%R -> (v <= r)%R.
Proof.
  split; [discriminate|].
  pose proof (percentiles_ends exact exact_mono exact_dyadic [3; 1; 2]%R
                [0; 100]%R ltac:(discriminate) ltac:(simpl; lia)) as H.
  exact (conj (proj1 H) (proj2 (proj2 (proj2 H)) 100%R ltac:(lra))).
Defined.

Lemma analyzeCtVsMri_features_nonneg_witness :
  Z.of_nat (length grayImage) = 4 * size * size /\
  Forall (fun kv => (0 <= snd kv)%R)
    (features (analyzeCtVsMri exact exact exp log2_exact hypot_exact grayImage)).
Proof.
  split; [exact grayImage_length|].
  exact (proj2 (analyzeCtVsMri_features_nonneg exact exact exp log2_exact
                  hypot_exact exact_mono exact_dyadic log2_exact_nonpos exact_0
                  hypot_exact_nonneg exact_mono grayImage grayImage_length)).
Defined.

Lemma analyzeCtVsMri_MRI_needs_entropy_witness :
  Z.of_nat (length grayImage) = 4 * size * size /\
  (modality (analyzeCtVsMri exact exact exp log2_exact hypot_exact grayImage)
   = MRI ->
   (0 < classifierScore exact
          (features (analyzeCtVsMri exact exact exp log2_exact hypot_exact
                       grayImage)))%R).
Proof.
  split; [exact grayImage_length|].
  exact (proj1 (analyzeCtVsMri_MRI_needs_entropy exact exact exp log2_exact
                  hypot_exact exact_mono exact_dyadic log2_exact_nonpos exact_0
                  exact_idem exp_exact_ge_1 hypot_exact_nonneg exact_mono
                  grayImage grayImage_length)).
Defined.

Lemma analyzeCtVsMri_ignores_alpha_witness :
  sameColour grayImage (uniformImage (256 * 256) 128 128 128 0) /\
  analyzeCtVsMri exact exact exp log2_exact hypot_exact grayImage
  = analyzeCtVsMri exact exact exp log2_exact hypot_exact
      (uniformImage (256 * 256) 128 128 128 0).
Proof.
  assert (H : sameColour grayImage (uniformImage (256 * 256) 128 128 128 0))
    by apply sameColour_uniform.
  split; [exact H|].
  exact (analyzeCtVsMri_ignores_alpha exact exact exp log2_exact hypot_exact
           grayImage (uniformImage (256 * 256) 128 128 128 0)
           grayImage_length H).
Defined.

Lemma heatNormalize_unit_interval_witness :
  length (heatNormalize exact exact [1; 3; 2]%R) = length [1; 3; 2]%R /\
  Forall (fun v => (0 <= v <= 1)%R) (heatNormalize exact exact [1; 3; 2]%R).
Proof.
  pose proof (heatNormalize_unit_interval exact exact exact_mono exact_dyadic
                exact_0 exact_mono exact_1 [1; 3; 2]%R) as H.
  exact (conj (proj1 H) (proj1 (proj2 H))).
Defined.

Lemma drawGradCAMLikeHeatmap_pixels_witness :
  Z.of_nat (length [10; 20; 30; 255]) = 1 * 1 * 4 /\
  get 0 (drawGradCAMLikeHeatmap exact exact pow_exact [10; 20; 30; 255] 1 1)
    ((0 * 1 + 0) * 4 + 3) = 180.
Proof.
  split; [reflexivity|].
  exact (proj1 (proj2 (proj2 (drawGradCAMLikeHeatmap_pixels exact exact pow_exact
                  [10; 20; 30; 255] 1 1 ltac:(lia) ltac:(lia) eq_refl)
                  0 0 ltac:(lia) ltac:(lia)))).
Defined.

(** A row of three pixels, two black and one white: the local variance
    differs between the first two pixels. *)
Lemma threePixels_variance :
  exists v1 v2 : R,
    v1 ∈ localVariance exact exact
           (copyLuma [0; 0; 0; 255; 0; 0; 0; 255; 255; 255; 255; 255]) 3 1 /\
    v2 ∈ localVariance exact exact
           (copyLuma [0; 0; 0; 255; 0; 0; 0; 255; 255; 255; 255; 255]) 3 1 /\
    v1 <> v2.
Proof.
  set (gray := copyLuma [0; 0; 0; 255; 0; 0; 0; 255; 255; 255; 255; 255]).
  destruct (localVariance_get exact exact gray 3 1 ltac:(lia) ltac:(lia))
    as [Hlen Hget].
  pose proof (Hget 0 0 ltac:(lia) ltac:(lia)) as H0.
  pose proof (Hget 1 0 ltac:(lia) ltac:(lia)) as H1.
  assert (W0 : windowSums gray 3 1 0 0 = (1275, 325125, 25))
    by (vm_compute; reflexivity).
  assert (W1 : windowSums gray 3 1 1 0 = (2550, 650250, 25))
    by (vm_compute; reflexivity).
  rewrite W0 in H0. rewrite W1 in H1.
  exists (get 0%R (localVariance exact exact gray 3 1) (0 * 3 + 0)),
         (get 0%R (localVariance exact exact gray 3 1) (0 * 3 + 1)).
  split; [apply get_elem_of; lia|]. split; [apply get_elem_of; lia|].
  rewrite H0, H1. unfold exact, fsub, fdiv, fmul. lra.
Qed.

Lemma drawGradCAMLikeHeatmap_full_scale_witness :
  Z.of_nat (length [0; 0; 0; 255; 0; 0; 0; 255; 255; 255; 255; 255]) = 3 * 1 * 4 /\
  exists x y : Z,
    0 <= x < 3 /\ 0 <= y < 1 /\
    get 0 (drawGradCAMLikeHeatmap exact exact pow_exact
             [0; 0; 0; 255; 0; 0; 0; 255; 255; 255; 255; 255] 3 1)
      ((y * 3 + x) * 4) = 255 /\
    get 0 (drawGradCAMLikeHeatmap exact exact pow_exact
             [0; 0; 0; 255; 0; 0; 0; 255; 255; 255; 255; 255] 3 1)
      ((y * 3 + x) * 4 + 1) = 0 /\
    get 0 (drawGradCAMLikeHeatmap exact exact pow_exact
             [0; 0; 0; 255; 0; 0; 0; 255; 255; 255; 255; 255] 3 1)
      ((y * 3 + x) * 4 + 2) = 0.
Proof.
  split; [reflexivity|].
  exact (proj2 (drawGradCAMLikeHeatmap_full_scale exact exact pow_exact
                  exact_mono exact_dyadic pow_exact_0 pow_exact_1
                  [0; 0; 0; 255; 0; 0; 0; 255; 255; 255; 255; 255] 3 1
                  ltac:(lia) ltac:(lia) eq_refl exact_id exact_id
                  threePixels_variance)).
Defined.

Lemma page_one_analysis_at_a_time_witness :
  pageRun [FileChosen (Some "blob:a"%string); AnalyzeClicked true;
           AnalysisReturned (mkResult CT 0.7 []); HeatmapReturned] mounted
  = Some (mkRunning
            (mkPage (Some "blob:a"%string) (Some (mkResult CT 0.7 [])) false None)
            0 0) /\
  (0 + 0 <= 1)%nat.
Proof.
  assert (H : pageRun [FileChosen (Some "blob:a"%string); AnalyzeClicked true;
                       AnalysisReturned (mkResult CT 0.7 []); HeatmapReturned]
                mounted
              = Some (mkRunning
                        (mkPage (Some "blob:a"%string)
                           (Some (mkResult CT 0.7 [])) false None) 0 0))
    by reflexivity.
  split; [exact H|].
  exact (proj1 (page_one_analysis_at_a_time _ _ H)).
Defined.

Lemma logistic_monotone_witness :
  (forall x y : R, (x <= y)%R -> (logistic exact exp x <= logistic exact exp y)%R) /\
  logistic exact exp 0 = 0.5%R.
Proof.
  exact (logistic_monotone exact exp exact_mono exact_dyadic exp_exact_nonneg
           exp_exact_mono exp_0).
Defined.

Lemma drawGradCAMLikeHeatmap_red_channel_witness :
  lumas [10; 20; 30; 255] = lumas [10; 0; 0; 0] /\
  drawGradCAMLikeHeatmap exact exact pow_exact [10; 20; 30; 255] 1 1
  = drawGradCAMLikeHeatmap exact exact pow_exact [10; 0; 0; 0] 1 1.
Proof.
  split; [reflexivity|].
  exact (drawGradCAMLikeHeatmap_red_channel exact exact pow_exact
           [10; 20; 30; 255] [10; 0; 0; 0] 1 1 eq_refl eq_refl).
Defined.

Lemma histogramMean_is_pixel_mean_witness :
  Forall is_byte [10; 20; 30; 255; 30; 0; 0; 255] /\
  histogramMean exact (computeHistogram exact [10; 20; 30; 255; 30; 0; 0; 255])
  = (IZR (sumZ (lumas [10; 20; 30; 255; 30; 0; 0; 255]%Z))
     / IZR (Z.of_nat (length (lumas [10; 20; 30; 255; 30; 0; 0; 255]%Z))))%R.
Proof.
  assert (Hb : Forall is_byte [10; 20; 30; 255; 30; 0; 0; 255]).
  { repeat constructor; unfold is_byte; lia. }
  split; [exact Hb|].
  exact (histogramMean_is_pixel_mean exact [10; 20; 30; 255; 30; 0; 0; 255] Hb
           ltac:(discriminate) exact_id).
Defined.

Lemma grayImage_levels (y : Z) :
  y ∈ lumas (toGrayscale exact grayImage) -> y = 128 \/ y = 128.
Proof.
  unfold grayImage. rewrite toGrayscale_uniform, lumas_uniform.
  intros H. apply elem_of_replicate in H as [-> _].
  rewrite (luma_128 exact exact_mono exact_dyadic). now left.
Qed.

Lemma analyzeCtVsMri_two_levels_witness :
  Z.of_nat (length grayImage) = 4 * size * size /\
  modality (analyzeCtVsMri exact exact exp log2_exact hypot_exact grayImage) = CT.
Proof.
  split; [exact grayImage_length|].
  exact (analyzeCtVsMri_two_levels exact exact exp log2_exact hypot_exact
           exact_mono exact_dyadic log2_exact_nonpos exact_0 exact_idem
           exp_exact_ge_1 hypot_exact_nonneg exact_mono grayImage 128 128
           grayImage_length grayImage_levels exact_id log2_exact_ln).
Defined.


Lemma std_edges_witness :
  (0 <= std exact [1; 2; 4]%R None)%R /\ std exact [7]%R (Some 7%R) = 0%R.
Proof.
  pose proof (std_edges exact exact_mono exact_dyadic) as H.
  exact (conj (proj1 H [1; 2; 4]%R None)
           (proj2 (proj2 H) [7]%R 7%R ltac:(repeat constructor))).
Defined.
